(** * readyq: the markdown task store and its dependency graph

    A shallow embedding of the persistence and dependency-graph core of
    [readyq.py]: the document codec ([generate_markdown_task],
    [md_load_tasks], [parse_task_section]), the writers ([md_save_tasks],
    [md_append_task], the document of [auto_migrate_jsonl]), format
    detection ([detect_database_format]), prefix lookup ([find_task],
    [get_short_id]), the commands ([cmd_new], [cmd_list], [cmd_ready],
    [cmd_update], [cmd_delete]), the validation ([validate_task],
    [validate_markdown_database]) and the cycle search
    ([find_circular_dependencies]).

    Conventions of the embedding.
    - A Python [str] is a [string]; a character stands for a code point
      below 256.
    - A task is a Python dict with a fixed set of keys; it is a record whose
      fields are options, [None] meaning that the key is absent.  A
      subscript [t['k']] on an absent key raises [KeyError], which the
      [result] monad carries.
    - The commands mutate the dicts of the loaded list in place.  A task
      object is therefore named by its position in the list, and every
      read and write goes through that position.
    - Locking and printing are left out: a command takes the loaded
      collection and the current time stamp and returns the collection it
      saves; a writer returns the text the file holds afterwards. *)

From Stdlib Require Import String Ascii List Bool Arith ZArith Lia.
From Stdlib Require Import Permutation Sorted.
Import ListNotations.
Local Open Scope string_scope.
Local Open Scope list_scope.

(** ** Python string primitives *)

(** [s[len(p):]] when [s.startswith(p)]. *)
Fixpoint strip_prefix (p s : string) : option string :=
  match p, s with
  | EmptyString, _ => Some s
  | String a p', String b s' =>
      if Ascii.eqb a b then strip_prefix p' s' else None
  | String _ _, EmptyString => None
  end.

(** [s.startswith(p)] *)
Definition startswith (s p : string) : bool :=
  match strip_prefix p s with Some _ => true | None => false end.

(** [c.isspace()] for a code point below 256: tab, line feed, vertical
    tab, form feed, carriage return, the four separators 0x1c-0x1f,
    space, next-line 0x85 and no-break space 0xa0. *)
Definition isspace (c : ascii) : bool :=
  let n := nat_of_ascii c in
  (((9 <=? n) && (n <=? 13)) || ((28 <=? n) && (n <=? 32))
   || (n =? 133) || (n =? 160))%nat.

(** [s.lstrip()] *)
Fixpoint lstrip (s : string) : string :=
  match s with
  | EmptyString => EmptyString
  | String c s' => if isspace c then lstrip s' else s
  end.

(** [s.rstrip()] *)
Fixpoint rstrip (s : string) : string :=
  match s with
  | EmptyString => EmptyString
  | String c s' =>
      match rstrip s' with
      | EmptyString => if isspace c then EmptyString else String c EmptyString
      | r => String c r
      end
  end.

(** [s.strip()] *)
Definition strip (s : string) : string := rstrip (lstrip s).

(** [s.split(sep)] for a one-character separator: never empty, the empty
    string splits into one empty piece. *)
Fixpoint split_chr (sep : ascii) (s : string) : list string :=
  match s with
  | EmptyString => [EmptyString]
  | String c s' =>
      if Ascii.eqb c sep then EmptyString :: split_chr sep s'
      else match split_chr sep s' with
           | [] => [String c EmptyString]
           | w :: ws => String c w :: ws
           end
  end.

(** [not s] for a string: the empty string is falsy. *)
Definition str_falsy (s : string) : bool :=
  match s with EmptyString => true | _ => false end.

(** [x in l] for a list of strings. *)
Definition mem (x : string) (l : list string) : bool :=
  existsb (String.eqb x) l.

(** [l.remove(x)] where [x in l] has been tested: the first occurrence
    goes. *)
Fixpoint remove_first (x : string) (l : list string) : list string :=
  match l with
  | [] => []
  | y :: r => if String.eqb y x then r else y :: remove_first x r
  end.

(** ** Exceptions *)

(** A computation that may raise [KeyError]. *)
Inductive result (A : Type) : Type :=
| Ok (a : A)
| KeyError.
Arguments Ok {A} a.
Arguments KeyError {A}.

Definition bind {A B} (r : result A) (k : A -> result B) : result B :=
  match r with
  | Ok a => k a
  | KeyError => KeyError
  end.

Notation "x <- e ;; k" := (bind e (fun x => k))
  (at level 61, e at next level, right associativity).

(** [d['k']] *)
Definition getitem {A} (field : option A) : result A :=
  match field with
  | Some a => Ok a
  | None => KeyError
  end.

(** A loop body run over a list, left to right, stopping at the first
    exception. *)
Fixpoint for_each {A S} (body : S -> A -> result S) (l : list A) (s : S)
  : result S :=
  match l with
  | [] => Ok s
  | a :: r => s' <- body s a ;; for_each body r s'
  end.

(** A list comprehension whose element expression may raise. *)
Fixpoint map_result {A B} (f : A -> result B) (l : list A)
  : result (list B) :=
  match l with
  | [] => Ok []
  | a :: r => b <- f a ;; bs <- map_result f r ;; Ok (b :: bs)
  end.

(** ** Data model *)

(** A session log entry, [{"timestamp": ..., "log": ...}]. *)
Record session : Type := mkSession {
  timestamp : string;
  log : string
}.

(** A task dict.  The status is kept as the string the dict holds. *)
Record task : Type := mkTask {
  id : option string;
  title : option string;
  description : option string;
  status : option string;
  created_at : option string;
  updated_at : option string;
  blocks : option (list string);
  blocked_by : option (list string);
  sessions : option (list session)
}.

(** The empty dict [{}]. *)
Definition empty_task : task :=
  mkTask None None None None None None None None None.

Definition set_id (v : string) (t : task) : task :=
  mkTask (Some v) (title t) (description t) (status t) (created_at t)
         (updated_at t) (blocks t) (blocked_by t) (sessions t).
Definition set_title (v : string) (t : task) : task :=
  mkTask (id t) (Some v) (description t) (status t) (created_at t)
         (updated_at t) (blocks t) (blocked_by t) (sessions t).
Definition set_description (v : string) (t : task) : task :=
  mkTask (id t) (title t) (Some v) (status t) (created_at t)
         (updated_at t) (blocks t) (blocked_by t) (sessions t).
Definition set_status (v : string) (t : task) : task :=
  mkTask (id t) (title t) (description t) (Some v) (created_at t)
         (updated_at t) (blocks t) (blocked_by t) (sessions t).
Definition set_created_at (v : string) (t : task) : task :=
  mkTask (id t) (title t) (description t) (status t) (Some v)
         (updated_at t) (blocks t) (blocked_by t) (sessions t).
Definition set_updated_at (v : string) (t : task) : task :=
  mkTask (id t) (title t) (description t) (status t) (created_at t)
         (Some v) (blocks t) (blocked_by t) (sessions t).
Definition set_blocks (v : list string) (t : task) : task :=
  mkTask (id t) (title t) (description t) (status t) (created_at t)
         (updated_at t) (Some v) (blocked_by t) (sessions t).
Definition set_blocked_by (v : list string) (t : task) : task :=
  mkTask (id t) (title t) (description t) (status t) (created_at t)
         (updated_at t) (blocks t) (Some v) (sessions t).
Definition set_sessions (v : list session) (t : task) : task :=
  mkTask (id t) (title t) (description t) (status t) (created_at t)
         (updated_at t) (blocks t) (blocked_by t) (Some v).

(** [t.get('blocks', [])] and [t.get('blocked_by', [])] *)
Definition blocks_of (t : task) : list string :=
  match blocks t with Some l => l | None => [] end.
Definition blocked_by_of (t : task) : list string :=
  match blocked_by t with Some l => l | None => [] end.
Definition sessions_of (t : task) : list session :=
  match sessions t with Some l => l | None => [] end.

(** The object at position [i] of the loaded list. *)
Definition task_at (ts : list task) (i : nat) : task := nth i ts empty_task.

(** An in-place mutation of the object at position [i]. *)
Fixpoint mutate (i : nat) (f : task -> task) (ts : list task) : list task :=
  match ts, i with
  | [], _ => []
  | t :: r, O => f t :: r
  | t :: r, S i' => t :: mutate i' f r
  end.

(** [{t['id']: t for t in tasks}]: every task must have an id; of two
    tasks with one id the later one is the value.  The dict is kept as the
    list it was built from, and [dict_get] returns the position of the
    value. *)
Definition id_dict (ts : list task) : result (list string) :=
  map_result (fun t => getitem (id t)) ts.

Fixpoint last_index_from (k : nat) (key : string) (ids : list string)
  : option nat :=
  match ids with
  | [] => None
  | x :: r =>
      match last_index_from (S k) key r with
      | Some j => Some j
      | None => if String.eqb x key then Some k else None
      end
  end.

(** [all_task_ids.get(key)] *)
Definition dict_get (ids : list string) (key : string) : option nat :=
  last_index_from 0 key ids.

(** ** Prefix lookup *)

(** What [find_task] tells its caller: the task (by position), or no task
    together with the message it printed. *)
Inductive find_outcome : Type :=
| Found (i : nat)
| Ambiguous (matches : list (string * string))
| NotFound
| NoPrefix.

(** [[t for t in tasks if t['id'].startswith(prefix)]], as positions. *)
Fixpoint matches_from (k : nat) (prefix : string) (ts : list task)
  : result (list nat) :=
  match ts with
  | [] => Ok []
  | t :: r =>
      tid <- getitem (id t) ;;
      ms <- matches_from (S k) prefix r ;;
      Ok (if startswith tid prefix then k :: ms else ms)
  end.

(** [find_task(task_id_prefix)] on the loaded collection.  For an
    ambiguous prefix the printed lines, one [(id, title)] per match, are
    the payload. *)
Definition find_task (tasks : list task) (task_id_prefix : string)
  : result find_outcome :=
  if str_falsy task_id_prefix then Ok NoPrefix
  else
    ms <- matches_from 0 task_id_prefix tasks ;;
    match ms with
    | [i] => Ok (Found i)
    | _ :: _ :: _ =>
        lines <- map_result
                   (fun i => tid <- getitem (id (task_at tasks i)) ;;
                             ttl <- getitem (title (task_at tasks i)) ;;
                             Ok (tid, ttl)) ms ;;
        Ok (Ambiguous lines)
    | [] => Ok NotFound
    end.

(** [next((t for t in tasks if t['id'].startswith(prefix)), None)]: the
    position of the first match; the generator stops there, so a later
    task without id is never looked at. *)
Fixpoint first_match_from (k : nat) (prefix : string) (ts : list task)
  : result (option nat) :=
  match ts with
  | [] => Ok None
  | t :: r =>
      tid <- getitem (id t) ;;
      if startswith tid prefix then Ok (Some k)
      else first_match_from (S k) prefix r
  end.

Definition first_match (ts : list task) (prefix : string)
  : result (option nat) :=
  first_match_from 0 prefix ts.

(** ** The ready query *)

(** The inner loop of [cmd_ready] over [task['blocked_by']]. *)
Fixpoint blockers_done (ts : list task) (ids : list string)
  (bs : list string) : result bool :=
  match bs with
  | [] => Ok true
  | blocker_id :: r =>
      match dict_get ids blocker_id with
      | None => Ok false
      | Some j =>
          st <- getitem (status (task_at ts j)) ;;
          if String.eqb st "done" then blockers_done ts ids r else Ok false
      end
  end.

(** [cmd_ready]: the list it prints. *)
Definition cmd_ready (tasks : list task) : result (list task) :=
  ids <- id_dict tasks ;;
  for_each
    (fun ready t =>
       st <- getitem (status t) ;;
       if String.eqb st "done" then Ok ready
       else
         is_ready <- blockers_done tasks ids (blocked_by_of t) ;;
         Ok (if is_ready then ready ++ [t] else ready))
    tasks [].

(** ** The update command *)

(** The arguments of [update]; [None] is an option that was not given. *)
Record update_args : Type := mkArgs {
  arg_id : string;
  arg_title : option string;
  arg_description : option string;
  arg_delete_log : option Z;
  arg_log : option string;
  arg_add_blocks : option string;
  arg_add_blocked_by : option string;
  arg_remove_blocks : option string;
  arg_remove_blocked_by : option string;
  arg_status : option string
}.

(** [hasattr(args, 'x') and args.x]: given and not empty. *)
Definition given (o : option string) : option string :=
  match o with
  | Some s => if str_falsy s then None else Some s
  | None => None
  end.

(** [[bid.strip() for bid in arg.split(',')]] *)
Definition id_prefixes (arg : string) : list string :=
  map strip (split_chr "," arg).

(** What a command leaves behind: the collection passed to [save_tasks],
    or no save at all. *)
Inductive saved : Type :=
| Saved (ts : list task)
| NotSaved.

(** [if 'blocks' not in t: t['blocks'] = []] and its twin. *)
Definition default_blocks (t : task) : task :=
  match blocks t with None => set_blocks [] t | Some _ => t end.
Definition default_blocked_by (t : task) : task :=
  match blocked_by t with None => set_blocked_by [] t | Some _ => t end.

(** [t['blocks'].append(x)], [t['blocked_by'].append(x)] and the two
    [remove]s. *)
Definition append_blocks (x : string) (t : task) : task :=
  set_blocks (blocks_of t ++ [x]) t.
Definition append_blocked_by (x : string) (t : task) : task :=
  set_blocked_by (blocked_by_of t ++ [x]) t.
Definition remove_blocks (x : string) (t : task) : task :=
  set_blocks (remove_first x (blocks_of t)) t.
Definition remove_blocked_by (x : string) (t : task) : task :=
  set_blocked_by (remove_first x (blocked_by_of t)) t.

(** [if not t['blocked_by'] and t['status'] == 'blocked':
       t['status'] = 'open'] on the object at [j]; the status is read
    only when the list is empty. *)
Definition unblock_if_free (j : nat) (ts : list task) : result (list task) :=
  match blocked_by_of (task_at ts j) with
  | [] =>
      st <- getitem (status (task_at ts j)) ;;
      Ok (if String.eqb st "blocked" then mutate j (set_status "open") ts
          else ts)
  | _ :: _ => Ok ts
  end.

(** [if t['status'] not in ['done', 'blocked']: t['status'] = 'blocked']
    on the object at [j]. *)
Definition block_unless_settled (j : nat) (ts : list task)
  : result (list task) :=
  st <- getitem (status (task_at ts j)) ;;
  Ok (if mem st ["done"; "blocked"] then ts
      else mutate j (set_status "blocked") ts).

(** One round of the [--add-blocks] loop: the task at [i] is the command's
    target, the prefix names the task it shall block. *)
Definition add_blocks_step (now : string) (i : nat)
  (st : list task * bool) (block_id_prefix : string)
  : result (list task * bool) :=
  let (ts, updated) := st in
  found <- first_match ts block_id_prefix ;;
  match found with
  | None => Ok (ts, updated)
  | Some j =>
      let ts := mutate i default_blocks ts in
      bid <- getitem (id (task_at ts j)) ;;
      let ts := if mem bid (blocks_of (task_at ts i)) then ts
                else mutate i (append_blocks bid) ts in
      let ts := mutate j default_blocked_by ts in
      tid <- getitem (id (task_at ts i)) ;;
      ts <- (if mem tid (blocked_by_of (task_at ts j)) then Ok ts
             else
               let ts := mutate j (append_blocked_by tid) ts in
               let ts := mutate j (set_updated_at now) ts in
               block_unless_settled j ts) ;;
      Ok (ts, true)
  end.

(** One round of the [--add-blocked-by] loop: the prefix names a blocker
    of the target at [i]. *)
Definition add_blocked_by_step (now : string) (i : nat)
  (st : list task * bool) (blocker_id_prefix : string)
  : result (list task * bool) :=
  let (ts, updated) := st in
  found <- first_match ts blocker_id_prefix ;;
  match found with
  | None => Ok (ts, updated)
  | Some j =>
      let ts := mutate i default_blocked_by ts in
      bid <- getitem (id (task_at ts j)) ;;
      ts <- (if mem bid (blocked_by_of (task_at ts i)) then Ok ts
             else
               let ts := mutate i (append_blocked_by bid) ts in
               block_unless_settled i ts) ;;
      let ts := mutate j default_blocks ts in
      tid <- getitem (id (task_at ts i)) ;;
      let ts := if mem tid (blocks_of (task_at ts j)) then ts
                else mutate j (set_updated_at now)
                       (mutate j (append_blocks tid) ts) in
      Ok (ts, true)
  end.

(** One round of the [--remove-blocks] loop. *)
Definition remove_blocks_step (now : string) (i : nat)
  (st : list task * bool) (block_id_prefix : string)
  : result (list task * bool) :=
  let (ts, updated) := st in
  found <- first_match ts block_id_prefix ;;
  match found with
  | None => Ok (ts, updated)
  | Some j =>
      bid <- getitem (id (task_at ts j)) ;;
      let ts := if mem bid (blocks_of (task_at ts i))
                then mutate i (remove_blocks bid) ts else ts in
      tid <- getitem (id (task_at ts i)) ;;
      ts <- (if mem tid (blocked_by_of (task_at ts j)) then
               let ts := mutate j (remove_blocked_by tid) ts in
               let ts := mutate j (set_updated_at now) ts in
               unblock_if_free j ts
             else Ok ts) ;;
      Ok (ts, true)
  end.

(** One round of the [--remove-blocked-by] loop. *)
Definition remove_blocked_by_step (now : string) (i : nat)
  (st : list task * bool) (blocker_id_prefix : string)
  : result (list task * bool) :=
  let (ts, updated) := st in
  found <- first_match ts blocker_id_prefix ;;
  match found with
  | None => Ok (ts, updated)
  | Some j =>
      bid <- getitem (id (task_at ts j)) ;;
      ts <- (if mem bid (blocked_by_of (task_at ts i)) then
               let ts := mutate i (remove_blocked_by bid) ts in
               unblock_if_free i ts
             else Ok ts) ;;
      tid <- getitem (id (task_at ts i)) ;;
      let ts := if mem tid (blocks_of (task_at ts j))
                then mutate j (set_updated_at now)
                       (mutate j (remove_blocks tid) ts)
                else ts in
      Ok (ts, true)
  end.

(** An edge option: absent or empty, the loop does not run. *)
Definition edge_loop
  (step : list task * bool -> string -> result (list task * bool))
  (arg : option string) (st : list task * bool)
  : result (list task * bool) :=
  match given arg with
  | Some s => for_each step (id_prefixes s) st
  | None => Ok st
  end.

(** [l.pop(k)] for [0 <= k < len(l)]. *)
Fixpoint pop_at {A} (k : nat) (l : list A) : list A :=
  match l, k with
  | [], _ => []
  | _ :: r, O => r
  | x :: r, S k' => x :: pop_at k' r
  end.

(** The [--delete-log] block: [None] is the early return on a bad index. *)
Definition delete_log_part (args : update_args) (i : nat)
  (st : list task * bool) : option (list task * bool) :=
  let (ts, updated) := st in
  match arg_delete_log args with
  | None => Some st
  | Some log_index =>
      match sessions (task_at ts i) with
      | None => None
      | Some l =>
          if ((log_index <? 0) || (Z.of_nat (length l) <=? log_index))%Z
          then None
          else Some (mutate i (set_sessions (pop_at (Z.to_nat log_index) l))
                       ts, true)
      end
  end.

(** The [--log] block. *)
Definition log_part (now : string) (args : update_args) (i : nat)
  (st : list task * bool) : list task * bool :=
  let (ts, updated) := st in
  match given (arg_log args) with
  | None => st
  | Some text =>
      (mutate i (fun t => set_sessions
                            (sessions_of t ++ [mkSession now text]) t) ts,
       true)
  end.

(** One round of the cascade that follows [--status done]: [ids] is the
    dict built before the loop, [blocked_task_id] an entry of the
    target's [blocks]. *)
Definition unblock_step (now : string) (i : nat) (ids : list string)
  (ts : list task) (blocked_task_id : string) : result (list task) :=
  match dict_get ids blocked_task_id with
  | None => Ok ts
  | Some j =>
      tid <- getitem (id (task_at ts i)) ;;
      if mem tid (blocked_by_of (task_at ts j)) then
        let ts := mutate j (remove_blocked_by tid) ts in
        let ts := mutate j (set_updated_at now) ts in
        unblock_if_free j ts
      else Ok ts
  end.

(** The [--status] block: [None] is the early return on an unknown
    status. *)
Definition status_part (now : string) (args : update_args) (i : nat)
  (st : list task * bool) : result (option (list task * bool)) :=
  let (ts, updated) := st in
  match given (arg_status args) with
  | None => Ok (Some st)
  | Some new_status =>
      if negb (mem new_status ["open"; "in_progress"; "done"; "blocked"])
      then Ok None
      else
        let ts := mutate i (set_status new_status) ts in
        if String.eqb new_status "done" then
          match blocks_of (task_at ts i) with
          | [] => Ok (Some (ts, true))
          | bs =>
              ids <- id_dict ts ;;
              ts <- for_each (unblock_step now i ids) bs ts ;;
              Ok (Some (ts, true))
          end
        else Ok (Some (ts, true))
  end.

(** [cmd_update] on the loaded collection [tasks] at time [now]. *)
Definition cmd_update (now : string) (args : update_args)
  (tasks : list task) : result saved :=
  found <- find_task tasks (arg_id args) ;;
  match found with
  | Found i =>
      let ts := mutate i (set_updated_at now) tasks in
      let st := (ts, false) in
      let st := match given (arg_title args) with
                | Some v => (mutate i (set_title v) (fst st), true)
                | None => st
                end in
      let st := match arg_description args with
                | Some v => (mutate i (set_description v) (fst st), true)
                | None => st
                end in
      match delete_log_part args i st with
      | None => Ok NotSaved
      | Some st =>
          let st := log_part now args i st in
          st <- edge_loop (add_blocks_step now i) (arg_add_blocks args) st ;;
          st <- edge_loop (add_blocked_by_step now i)
                  (arg_add_blocked_by args) st ;;
          st <- edge_loop (remove_blocks_step now i)
                  (arg_remove_blocks args) st ;;
          st <- edge_loop (remove_blocked_by_step now i)
                  (arg_remove_blocked_by args) st ;;
          r <- status_part now args i st ;;
          match r with
          | None => Ok NotSaved
          | Some (ts, updated) => Ok (if updated then Saved ts else NotSaved)
          end
      end
  | _ => Ok NotSaved
  end.

(** ** The delete command *)

(** The body of the clean-up loop of [cmd_delete] for one task. *)
Definition delete_clean (now : string) (task_id : string) (other : task)
  : result task :=
  oid <- getitem (id other) ;;
  if String.eqb oid task_id then Ok other
  else
    let other :=
      if mem task_id (blocks_of other)
      then set_updated_at now (remove_blocks task_id other)
      else other in
    if mem task_id (blocked_by_of other) then
      let other := set_updated_at now (remove_blocked_by task_id other) in
      match blocked_by_of other with
      | [] =>
          st <- getitem (status other) ;;
          Ok (if String.eqb st "blocked" then set_status "open" other
              else other)
      | _ :: _ => Ok other
      end
    else Ok other.

(** [[t for t in tasks if t['id'] != task_id]] *)
Fixpoint drop_id (task_id : string) (ts : list task) : result (list task) :=
  match ts with
  | [] => Ok []
  | t :: r =>
      tid <- getitem (id t) ;;
      r' <- drop_id task_id r ;;
      Ok (if String.eqb tid task_id then r' else t :: r')
  end.

(** [cmd_delete] on the loaded collection [tasks] at time [now]. *)
Definition cmd_delete (now : string) (id_prefix : string)
  (tasks : list task) : result saved :=
  found <- find_task tasks id_prefix ;;
  match found with
  | Found i =>
      task_id <- getitem (id (task_at tasks i)) ;;
      _ <- getitem (title (task_at tasks i)) ;;
      ts <- map_result (delete_clean now task_id) tasks ;;
      ts <- drop_id task_id ts ;;
      Ok (Saved ts)
  | _ => Ok NotSaved
  end.

(** ** Cycle search *)

(** [task_dict], a dict from id to task in insertion order: assigning to
    a key that is there keeps its place and replaces its value. *)
Definition task_dict : Type := list (string * task).

Fixpoint dict_set (k : string) (v : task) (d : task_dict) : task_dict :=
  match d with
  | [] => [(k, v)]
  | (k', v') :: r =>
      if String.eqb k' k then (k, v) :: r else (k', v') :: dict_set k v r
  end.

Fixpoint dict_lookup (k : string) (d : task_dict) : option task :=
  match d with
  | [] => None
  | (k', v) :: r => if String.eqb k' k then Some v else dict_lookup k r
  end.

(** The loop that builds [task_dict], skipping tasks without id. *)
Definition build_task_dict (tasks : list task) : task_dict :=
  fold_left (fun d t => match id t with
                        | Some k => dict_set k t d
                        | None => d
                        end) tasks [].

(** [task_dict.get(task_id, {}).get('blocked_by', [])] *)
Definition blockers (d : task_dict) (task_id : string) : list string :=
  match dict_lookup task_id d with
  | Some t => blocked_by_of t
  | None => []
  end.

(** The three mutable arguments of [has_cycle].  The two sets are lists
    without repetition. *)
Record dfs_state : Type := mkDfs {
  visited : list string;
  rec_stack : list string;
  path : list string
}.

(** [s.add(x)] *)
Definition set_add (x : string) (s : list string) : list string :=
  if mem x s then s else x :: s.

(** [path[path.index(x):]] for [x in path] *)
Fixpoint from_first (x : string) (p : list string) : list string :=
  match p with
  | [] => []
  | y :: r => if String.eqb y x then p else from_first x r
  end.

(** What a call of [has_cycle] gives: a cycle, or [None] with the state
    it leaves; [OutOfFuel] when the recursion budget of the model is
    used up. *)
Inductive dfs_result : Type :=
| Cycle (c : list string)
| NoCycle (st : dfs_state)
| OutOfFuel.

(** The [for] loop of [has_cycle] for [task_id], [call] being the
    recursive call. *)
Fixpoint scan (call : string -> dfs_state -> dfs_result) (task_id : string)
  (bs : list string) (st : dfs_state) : dfs_result :=
  match bs with
  | [] =>
      NoCycle (mkDfs (visited st) (remove_first task_id (rec_stack st))
                     (removelast (path st)))
  | blocked_id :: r =>
      if negb (mem blocked_id (visited st)) then
        match call blocked_id st with
        | Cycle c => Cycle c
        | NoCycle st' => scan call task_id r st'
        | OutOfFuel => OutOfFuel
        end
      else if mem blocked_id (rec_stack st) then
        Cycle (from_first blocked_id (path st) ++ [blocked_id])
      else scan call task_id r st
  end.

(** [has_cycle(task_id, visited, rec_stack, task_dict, path)], the
    recursion depth bounded by [fuel]. *)
Fixpoint has_cycle (fuel : nat) (d : task_dict) (task_id : string)
  (st : dfs_state) : dfs_result :=
  match fuel with
  | O => OutOfFuel
  | S fuel' =>
      scan (has_cycle fuel' d) task_id (blockers d task_id)
        (mkDfs (set_add task_id (visited st))
               (set_add task_id (rec_stack st))
               (path st ++ [task_id]))
  end.

(** The outer loop over the keys of [task_dict]; each root starts with a
    fresh stack and path and the shared [visited]. *)
Fixpoint search_roots (fuel : nat) (d : task_dict) (keys : list string)
  (seen : list string) : dfs_result :=
  match keys with
  | [] => NoCycle (mkDfs seen [] [])
  | task_id :: r =>
      if negb (mem task_id seen) then
        match has_cycle fuel d task_id (mkDfs seen [] []) with
        | Cycle c => Cycle c
        | NoCycle st => search_roots fuel d r (visited st)
        | OutOfFuel => OutOfFuel
        end
      else search_roots fuel d r seen
  end.

(** Every id the search can meet: the keys and all they refer to. *)
Definition graph_nodes (d : task_dict) : list string :=
  map fst d ++ flat_map (fun kv => blocked_by_of (snd kv)) d.

(** [find_circular_dependencies(tasks)]: [Cycle c] for the cycle the
    search returns, [NoCycle] for Python's [None].  The budget is one more
    than the number of ids in the graph, which the recursion cannot
    exceed. *)
Definition find_circular_dependencies (tasks : list task) : dfs_result :=
  let d := build_task_dict tasks in
  search_roots (S (length (graph_nodes d))) d (map fst d) [].

(** ** Document codec: more string primitives *)

(** The line feed. *)
Definition nl : string := String "010" EmptyString.

(** The text before and after the first occurrence of [p] in [s]:
    [s.split(p, 1)] when [p in s]; also a lazy [(.*?)] followed by the
    literal [p] under [re.DOTALL]. *)
Fixpoint cut (p s : string) : option (string * string) :=
  match strip_prefix p s with
  | Some rest => Some (EmptyString, rest)
  | None =>
      match s with
      | EmptyString => None
      | String c s' =>
          match cut p s' with
          | Some (a, b) => Some (String c a, b)
          | None => None
          end
      end
  end.

(** [p in s] *)
Definition contains (p s : string) : bool :=
  match cut p s with Some _ => true | None => false end.

Fixpoint string_rev (s : string) : string :=
  match s with
  | EmptyString => EmptyString
  | String c s' => string_rev s' ++ String c EmptyString
  end.

(** [s.endswith(p)] *)
Definition endswith (s p : string) : bool :=
  startswith (string_rev s) (string_rev p).

(** [s.replace(c, '')] for a character [c]. *)
Fixpoint remove_chr (c : ascii) (s : string) : string :=
  match s with
  | EmptyString => EmptyString
  | String x s' =>
      if Ascii.eqb x c then remove_chr c s' else String x (remove_chr c s')
  end.

Fixpoint map_chr (f : ascii -> ascii) (s : string) : string :=
  match s with
  | EmptyString => EmptyString
  | String x s' => String (f x) (map_chr f s')
  end.

(** [c.lower()] for a code point below 256: the letters A-Z and the
    capital letters 0xc0-0xde, the multiplication sign 0xd7 apart. *)
Definition lower_chr (c : ascii) : ascii :=
  let n := nat_of_ascii c in
  if (((65 <=? n) && (n <=? 90))
      || ((192 <=? n) && (n <=? 222) && negb (n =? 215)))%nat
  then ascii_of_nat (n + 32) else c.

(** [s.lower()] and [s.replace(' ', '_')] *)
Definition lower (s : string) : string := map_chr lower_chr s.
Definition spaces_to_underscores (s : string) : string :=
  map_chr (fun c => if Ascii.eqb c " " then "_"%char else c) s.

(** A lazy [(.*?)] followed by a lookahead: the shortest text before a
    position where [stop] holds of the rest.  Every lookahead used here
    holds at the end of the string. *)
Fixpoint take_until (stop : string -> bool) (s : string) : string * string :=
  if stop s then (EmptyString, s)
  else match s with
       | EmptyString => (EmptyString, EmptyString)
       | String c s' =>
           let (a, b) := take_until stop s' in (String c a, b)
       end.

(** [$] without [re.MULTILINE]: at the end of the string, or before a
    line feed that ends it. *)
Definition at_end (s : string) : bool :=
  String.eqb s EmptyString || String.eqb s nl.

(** [[^\n]*], greedy. *)
Fixpoint take_line (s : string) : string :=
  match s with
  | EmptyString => EmptyString
  | String c s' =>
      if Ascii.eqb c "010" then EmptyString else String c (take_line s')
  end.

(** [\d] on a code point below 256. *)
Definition is_digit (c : ascii) : bool :=
  let n := nat_of_ascii c in ((48 <=? n) && (n <=? 57))%nat.

(** ** Document codec: rendering *)

(** One line of the status checklist. *)
Definition status_line (st key label : string) : string :=
  "- " ++ (if String.eqb st key then "[x]" else "[ ]") ++ " " ++ label ++ nl.

(** The session log section of [generate_markdown_task]. *)
Definition render_session (s : session) : string :=
  "### " ++ timestamp s ++ nl ++ "<log>" ++ nl ++ log s ++ nl
  ++ "</log>" ++ nl ++ nl.

Definition render_sessions (ss : list session) : string :=
  match ss with
  | [] => EmptyString
  | _ => nl ++ "## Session Logs" ++ nl ++ nl
         ++ String.concat EmptyString (map render_session ss)
  end.

(** [generate_markdown_task(task)] *)
Definition generate_markdown_task (t : task) : result string :=
  ttl <- getitem (title t) ;;
  tid <- getitem (id t) ;;
  created <- getitem (created_at t) ;;
  updated <- getitem (updated_at t) ;;
  st <- getitem (status t) ;;
  Ok ("# Task: " ++ ttl ++ nl ++ nl
      ++ "**ID**: " ++ tid ++ nl
      ++ "**Created**: " ++ created ++ nl
      ++ "**Updated**: " ++ updated ++ nl
      ++ "**Blocks**: " ++ String.concat ", " (blocks_of t) ++ nl
      ++ "**Blocked By**: " ++ String.concat ", " (blocked_by_of t) ++ nl
      ++ nl ++ "## Status" ++ nl ++ nl
      ++ status_line st "open" "Open"
      ++ status_line st "in_progress" "In Progress"
      ++ status_line st "blocked" "Blocked"
      ++ status_line st "done" "Done"
      ++ nl ++ "## Description" ++ nl ++ nl
      ++ "<description>" ++ nl
      ++ match description t with Some d => d | None => EmptyString end
      ++ nl ++ "</description>" ++ nl
      ++ render_sessions (sessions_of t))%string.

(** The separator written between two tasks. *)
Definition separator : string := nl ++ "---" ++ nl ++ nl.

(** The text [md_save_tasks] writes to the file. *)
Fixpoint md_save_tasks (tasks : list task) : result string :=
  match tasks with
  | [] => Ok EmptyString
  | t :: r =>
      md <- generate_markdown_task t ;;
      match r with
      | [] => Ok md
      | _ => rest <- md_save_tasks r ;; Ok (md ++ separator ++ rest)%string
      end
  end.

(** ** Document codec: parsing *)

(** The lookahead [(?=\n---\n\n# Task:|\n# Task:|$)] that ends a task
    section. *)
Definition at_task_boundary (s : string) : bool :=
  startswith s (nl ++ "---" ++ nl ++ nl ++ "# Task:")
  || startswith s (nl ++ "# Task:")
  || at_end s.

(** [re.finditer(r'# Task: (.*?)\n(.*?)(?=\n---\n\n# Task:|\n# Task:|$)',
    content, re.DOTALL)]: the two groups of every match.  A match starts
    at the first [# Task: ] that a line feed follows; the title runs to
    that line feed, the section to the first boundary; the search goes on
    where the section ended.  [fuel] bounds the number of matches. *)
Fixpoint task_sections (fuel : nat) (content : string)
  : list (string * string) :=
  match fuel with
  | O => []
  | S fuel' =>
      match cut "# Task: " content with
      | None => []
      | Some (_, rest) =>
          match cut nl rest with
          | None => []
          | Some (ttl, rest) =>
              let (section, rest) := take_until at_task_boundary rest in
              (ttl, section) :: task_sections fuel' rest
          end
      end
  end.

(** An assignment [task[key] = value] of the metadata loop, for the keys
    of the schema.  Other keys are stored by the source and never read;
    the record has no place for them.  A value under the key [sessions]
    would be a string, which no reader of that key accepts; the record
    leaves the field as it is. *)
Definition set_key (key value : string) (t : task) : task :=
  if String.eqb key "id" then set_id value t
  else if String.eqb key "title" then set_title value t
  else if String.eqb key "description" then set_description value t
  else if String.eqb key "status" then set_status value t
  else if String.eqb key "created_at" then set_created_at value t
  else if String.eqb key "updated_at" then set_updated_at value t
  else t.

(** [field_mapping.get(clean_key, clean_key)] *)
Definition final_key (clean_key : string) : string :=
  if String.eqb clean_key "created" then "created_at"
  else if String.eqb clean_key "updated" then "updated_at"
  else clean_key.

(** [[item.strip() for item in value.split(',') if item.strip()]] *)
Definition id_list (value : string) : list string :=
  filter (fun s => negb (str_falsy s)) (map strip (split_chr "," value)).

(** The body of the metadata loop of [parse_task_section] for one
    line. *)
Definition metadata_line (t : task) (raw : string) : task :=
  let line := strip raw in
  if startswith line "**" && (contains "**:" line || endswith line "**")
  then
    let (field, value) :=
      match cut "**:" line with
      | Some (before, after) => (strip (remove_chr "*" before), strip after)
      | None =>
          match strip_prefix "**" line with
          | Some r =>
              match cut "**" r with
              | Some (name, after) => (strip name, strip after)
              | None => (strip r, EmptyString)
              end
          | None => (EmptyString, EmptyString)
          end
      end in
    let clean_key := spaces_to_underscores (lower field) in
    if String.eqb clean_key "blocks" then
      set_blocks (if str_falsy value then [] else id_list value) t
    else if String.eqb clean_key "blocked_by" then
      set_blocked_by (if str_falsy value then [] else id_list value) t
    else set_key (final_key clean_key) value t
  else t.

(** [re.search(r'- \[x\] ([^\n]+)', content)]: the group of the first
    match, a [- [x] ] that at least one character other than a line feed
    follows. *)
Fixpoint checked_label (s : string) : option string :=
  match
    match strip_prefix "- [x] " s with
    | Some r =>
        match take_line r with
        | EmptyString => None
        | label => Some label
        end
    | None => None
    end
  with
  | Some label => Some label
  | None =>
      match s with
      | EmptyString => None
      | String _ s' => checked_label s'
      end
  end.

(** [status_mapping.get(status_text, 'open')] *)
Definition status_of_label (status_text : string) : string :=
  if String.eqb status_text "Open" then "open"
  else if String.eqb status_text "In Progress" then "in_progress"
  else if String.eqb status_text "Blocked" then "blocked"
  else if String.eqb status_text "Done" then "done"
  else "open".

(** [re.search(r'## Description\n\n<description>\n(.*?)\n</description>',
    content, re.DOTALL)], the group stripped.  When the first opening has
    no closing after it, no later opening has one. *)
Definition xml_description (content : string) : option string :=
  match cut ("## Description" ++ nl ++ nl ++ "<description>" ++ nl)
            content with
  | None => None
  | Some (_, rest) =>
      match cut (nl ++ "</description>") rest with
      | None => None
      | Some (body, _) => Some (strip body)
      end
  end.

(** The lookahead [(?=\n##|\n---|$)] *)
Definition at_description_end (s : string) : bool :=
  startswith s (nl ++ "##") || startswith s (nl ++ "---") || at_end s.

(** [re.search(r'## Description\n\n(.*?)(?=\n##|\n---|$)', content,
    re.DOTALL)], the group stripped. *)
Definition legacy_description (content : string) : option string :=
  match cut ("## Description" ++ nl ++ nl) content with
  | None => None
  | Some (_, rest) => Some (strip (fst (take_until at_description_end rest)))
  end.

(** [\d{4}-\d{2}-\d{2}T] at the head of [s]: the eleven characters and
    the rest. *)
Definition date_head (s : string) : option (string * string) :=
  match s with
  | String y1 (String y2 (String y3 (String y4 (String h1
      (String m1 (String m2 (String h2 (String d1 (String d2
        (String t rest)))))))))) =>
      if is_digit y1 && is_digit y2 && is_digit y3 && is_digit y4
         && Ascii.eqb h1 "-" && is_digit m1 && is_digit m2
         && Ascii.eqb h2 "-" && is_digit d1 && is_digit d2
         && Ascii.eqb t "T"
      then Some (String y1 (String y2 (String y3 (String y4 (String h1
                   (String m1 (String m2 (String h2 (String d1 (String d2
                     (String t EmptyString)))))))))), rest)
      else None
  | _ => None
  end.

(** The first place where [### \d{4}-\d{2}-\d{2}T] matches: the date and
    what follows it. *)
Fixpoint find_stamp (s : string) : option (string * string) :=
  match
    match strip_prefix "### " s with
    | Some r => date_head r
    | None => None
    end
  with
  | Some found => Some found
  | None =>
      match s with
      | EmptyString => None
      | String _ s' => find_stamp s'
      end
  end.

(** [re.finditer(r'### (\d{4}-\d{2}-\d{2}T.*?)\n<log>\n(.*?)\n</log>',
    content, re.DOTALL)], each log stripped.  When the first heading has
    no [<log>] line with a closing after it, no later heading has. *)
Fixpoint xml_sessions (fuel : nat) (content : string) : list session :=
  match fuel with
  | O => []
  | S fuel' =>
      match find_stamp content with
      | None => []
      | Some (date, rest) =>
          match cut (nl ++ "<log>" ++ nl) rest with
          | None => []
          | Some (more, rest) =>
              match cut (nl ++ "</log>") rest with
              | None => []
              | Some (log_text, rest) =>
                  mkSession (date ++ more) (strip log_text)
                  :: xml_sessions fuel' rest
              end
          end
      end
  end.

(** The lookahead [(?=\n###|\n---|$)] *)
Definition at_log_end (s : string) : bool :=
  startswith s (nl ++ "###") || startswith s (nl ++ "---") || at_end s.

(** [re.finditer(r'### (\d{4}-\d{2}-\d{2}T.*?)\n(.*?)(?=\n###|\n---|$)',
    content, re.DOTALL)], each log stripped. *)
Fixpoint legacy_sessions (fuel : nat) (content : string) : list session :=
  match fuel with
  | O => []
  | S fuel' =>
      match find_stamp content with
      | None => []
      | Some (date, rest) =>
          match cut nl rest with
          | None => []
          | Some (more, rest) =>
              let (log_text, rest) := take_until at_log_end rest in
              mkSession (date ++ more) (strip log_text)
              :: legacy_sessions fuel' rest
          end
      end
  end.

(** [parse_task_section(content)].  The two [finditer] loops get a budget
    of one match per character, which they cannot use up. *)
Definition parse_task_section (content : string) : task :=
  let t := fold_left metadata_line (split_chr "010" content) empty_task in
  let t :=
    set_status
      match checked_label content with
      | Some status_text => status_of_label (strip status_text)
      | None => "open"
      end t in
  let t :=
    match xml_description content with
    | Some d => set_description d t
    | None =>
        match legacy_description content with
        | Some d => set_description d t
        | None => t
        end
    end in
  let found :=
    match xml_sessions (String.length content) content with
    | [] => legacy_sessions (String.length content) content
    | xml => xml
    end in
  match found with
  | [] => t
  | _ => set_sessions found t
  end.

(** [md_load_tasks] on the text of the file.  A parsed section is never
    an empty dict, so every match yields a task. *)
Definition md_load_tasks (content : string) : list task :=
  map (fun m => set_title (strip (fst m)) (parse_task_section (snd m)))
      (task_sections (String.length content) content).

(** ** Short ids *)

(** [s[:n]] *)
Fixpoint take_chars (n : nat) (s : string) : string :=
  match n, s with
  | S n', String c s' => String c (take_chars n' s')
  | _, _ => EmptyString
  end.

(** [get_short_id(task_id)] *)
Definition get_short_id (task_id : string) : string := take_chars 8 task_id.

(** ** What the writers leave in the file *)

(** The file after a writer ran: the text it holds, and whether the
    writer raised [KeyError] on the way.  The [with] block closes the
    file, and so flushes it, in either case. *)
Record written : Type := mkWritten {
  file_text : string;
  raised : bool
}.

(** The loop of [md_save_tasks]: [first] tells that no task was written
    yet, [text] is what the file holds.  The separator is written before
    the task is rendered. *)
Fixpoint md_save_loop (first : bool) (tasks : list task) (text : string)
  : written :=
  match tasks with
  | [] => mkWritten text false
  | t :: r =>
      let text := if first then text else (text ++ separator)%string in
      match generate_markdown_task t with
      | Ok md => md_save_loop false r (text ++ md)%string
      | KeyError => mkWritten text true
      end
  end.

(** [md_save_tasks(tasks)], by its effect: the file is opened for
    writing, which empties it, and the loop runs. *)
Definition md_save_file (tasks : list task) : written :=
  md_save_loop true tasks EmptyString.

(** [md_append_task(task)] on a file that holds [content], the empty
    text when the file was not there. *)
Definition md_append_task (content : string) (t : task) : written :=
  let text := (content ++ separator)%string in
  match generate_markdown_task t with
  | Ok md => mkWritten (text ++ md)%string false
  | KeyError => mkWritten text true
  end.

(** The text [auto_migrate_jsonl] writes for the tasks of the JSONL
    file: [md_content]. *)
Definition md_content (jsonl_tasks : list task) : result string :=
  mds <- map_result generate_markdown_task jsonl_tasks ;;
  Ok (String.concat (nl ++ nl ++ "---" ++ nl ++ nl) mds).

(** ** The format of a database file *)

Inductive db_format : Type :=
| Jsonl
| Markdown.

(** [f.readline()] of a text file: the first line with its end.  A
    carriage return ends a line as a line feed does, and is read as
    one. *)
Fixpoint readline (s : string) : string :=
  match s with
  | EmptyString => EmptyString
  | String c s' =>
      if Ascii.eqb c "010" || Ascii.eqb c "013" then nl
      else String c (readline s')
  end.

(** [detect_database_format(db_file)]; [None] for the content is a file
    that does not exist. *)
Definition detect_database_format (content : option string)
  : option db_format :=
  match content with
  | None => None
  | Some text =>
      Some (if startswith (strip (readline text)) "{" then Jsonl
            else Markdown)
  end.

(** ** Validation *)

(** The error messages of the validation, by kind:
    - [MissingField ttl f]: Task '[ttl]' missing required field: [f]
    - [InvalidId ttl i]: Task '[ttl]' has invalid ID format: [i]
    - [DanglingBlocks ttl i]: Task '[ttl]' references non-existent task
      in blocks: [i]
    - [DanglingBlockedBy ttl i]: the same for blocked_by
    - [DuplicateIds]: Duplicate task IDs found - each task must have
      unique ID
    - [CircularDependency c]: Circular dependency detected: the ids of
      [c] joined by arrows. *)
Inductive issue : Type :=
| MissingField (ttl field : string)
| InvalidId (ttl i : string)
| DanglingBlocks (ttl i : string)
| DanglingBlockedBy (ttl i : string)
| DuplicateIds
| CircularDependency (c : list string).

(** [task.get('title', 'Unknown')] *)
Definition title_or_unknown (t : task) : string :=
  match title t with Some s => s | None => "Unknown" end.

(** [field not in task or not task[field]] *)
Definition missing (field : option string) : bool :=
  match field with
  | Some s => str_falsy s
  | None => true
  end.

(** [[a-f0-9]] *)
Definition is_hex (c : ascii) : bool :=
  let n := nat_of_ascii c in
  (((48 <=? n) && (n <=? 57)) || ((97 <=? n) && (n <=? 102)))%nat.

(** [[a-f0-9]{n}] at the head of [s]: what follows it. *)
Fixpoint hex_run (n : nat) (s : string) : option string :=
  match n with
  | O => Some s
  | S n' =>
      match s with
      | String c s' => if is_hex c then hex_run n' s' else None
      | EmptyString => None
      end
  end.

(** [re.match(r'^[a-f0-9]{32}$', s)] *)
Definition valid_id_format (s : string) : bool :=
  match hex_run 32 s with
  | Some rest => at_end rest
  | None => false
  end.

(** [key in task_dict] *)
Definition dict_has (d : task_dict) (key : string) : bool :=
  match dict_lookup key d with Some _ => true | None => false end.

(** One of the two dependency loops of [validate_task]: the message
    reads [task['title']], which raises when there is no title. *)
Definition validate_refs (report : string -> string -> issue) (t : task)
  (d : task_dict) (ids : list string) (errors : list issue)
  : result (list issue) :=
  for_each
    (fun errors block_id =>
       if dict_has d block_id then Ok errors
       else ttl <- getitem (title t) ;; Ok (errors ++ [report ttl block_id]))
    ids errors.

(** [validate_task(task, task_dict, db_file)] *)
Definition validate_task (t : task) (d : task_dict) : result (list issue) :=
  let errors :=
    fold_left
      (fun errors (f : string * option string) =>
         if missing (snd f)
         then errors ++ [MissingField (title_or_unknown t) (fst f)]
         else errors)
      [("id", id t); ("created_at", created_at t);
       ("updated_at", updated_at t)]
      [] in
  let errors :=
    match id t with
    | Some i =>
        if negb (str_falsy i) && negb (valid_id_format i)
        then errors ++ [InvalidId (title_or_unknown t) i]
        else errors
    | None => errors
    end in
  errors <- validate_refs DanglingBlocks t d (blocks_of t) errors ;;
  validate_refs DanglingBlockedBy t d (blocked_by_of t) errors.

(** [validate_markdown_database(tasks, db_file)]: the errors and the
    warnings.  The cycle search of the model cannot run out of budget;
    the case is there for the type. *)
Definition validate_markdown_database (tasks : list task)
  : result (list issue * list string) :=
  let d := build_task_dict tasks in
  errors <- for_each
              (fun errors t =>
                 task_errors <- validate_task t d ;;
                 Ok (errors ++ task_errors))
              tasks [] ;;
  let errors :=
    if negb (Nat.eqb (length tasks) (length d))
    then errors ++ [DuplicateIds]
    else errors in
  let errors :=
    match find_circular_dependencies tasks with
    | Cycle (x :: c) => errors ++ [CircularDependency (x :: c)]
    | _ => errors
    end in
  Ok (errors, []).

(** ** The new command *)

(** The arguments of [new]. *)
Record new_args : Type := mkNewArgs {
  new_title : string;
  new_description : option string;
  new_blocked_by : option string
}.

(** What [cmd_new] hands to the store: the whole collection to
    [save_tasks], or the new task alone to [append_task]. *)
Inductive created : Type :=
| Rewritten (ts : list task)
| Appended (t : task).

(** One round of the [--blocked-by] loop of [cmd_new]: [bb] is the
    [blocked_by] list of the new task. *)
Definition new_step (now new_id : string) (st : list task * list string)
  (blocker_id_prefix : string) : result (list task * list string) :=
  let (ts, bb) := st in
  found <- first_match ts blocker_id_prefix ;;
  match found with
  | None => Ok st
  | Some j =>
      bid <- getitem (id (task_at ts j)) ;;
      let bb := bb ++ [bid] in
      let ts := mutate j default_blocks ts in
      let ts := mutate j (append_blocks new_id) ts in
      let ts := mutate j (set_updated_at now) ts in
      Ok (ts, bb)
  end.

(** [cmd_new] at time [now], [new_id] being the id [uuid4] draws and
    [tasks] the collection [load_tasks] gives when it is called. *)
Definition cmd_new (now new_id : string) (args : new_args)
  (tasks : list task) : result created :=
  let new_task :=
    mkTask (Some new_id) (Some (new_title args))
           (Some match given (new_description args) with
                 | Some d => d
                 | None => EmptyString
                 end)
           (Some "open") (Some now) (Some now)
           (Some []) (Some []) (Some []) in
  match given (new_blocked_by args) with
  | Some arg =>
      let new_task := set_status "blocked" new_task in
      st <- for_each (new_step now new_id) (id_prefixes arg) (tasks, []) ;;
      let (ts, bb) := st in
      Ok (Rewritten (ts ++ [set_blocked_by bb new_task]))
  | None => Ok (Appended new_task)
  end.

(** ** The list command *)

(** A stable sort by key: an element goes behind the elements of the
    sorted rest whose key is smaller, and before those whose key is the
    same, which came later. *)
Fixpoint insert_by_key (k : string) (t : task) (l : list (string * task))
  : list (string * task) :=
  match l with
  | [] => [(k, t)]
  | (k', t') :: r =>
      if String.ltb k' k then (k', t') :: insert_by_key k t r
      else (k, t) :: l
  end.

Definition sort_by_key (l : list (string * task)) : list (string * task) :=
  fold_right (fun kt sorted => insert_by_key (fst kt) (snd kt) sorted) [] l.

(** [cmd_list]: the list it prints.  [tasks.sort(key=...)] reads the key
    of every task, which raises for a task without [created_at], and
    sorts by it; strings compare by code point; the sort is stable. *)
Definition cmd_list (tasks : list task) : result (list task) :=
  keys <- map_result (fun t => getitem (created_at t)) tasks ;;
  Ok (map snd (sort_by_key (combine keys tasks))).

(** * Properties *)

(** ** Well-formed collections *)

(** A task on which no subscript of the graph commands raises: it has an
    id and a status. *)
Definition keyed (t : task) : Prop := id t <> None /\ status t <> None.

(** Ids are unique in the collection. *)
Definition unique_ids (ts : list task) : Prop := NoDup (map id ts).

(** ** The ready set, as the specification words it *)

(** [b] is the id of a task of the collection whose status is done. *)
Definition done_id (tasks : list task) (b : string) : Prop :=
  exists u, In u tasks /\ id u = Some b /\ status u = Some "done".

Definition ready_spec (tasks : list task) (t : task) : Prop :=
  status t <> Some "done" /\
  forall b, In b (blocked_by_of t) -> done_id tasks b.

Definition done_idb (tasks : list task) (b : string) : bool :=
  existsb (fun u => match id u, status u with
                    | Some i, Some s => String.eqb i b && String.eqb s "done"
                    | _, _ => false
                    end) tasks.

Definition readyb (tasks : list task) (t : task) : bool :=
  match status t with
  | Some s => negb (String.eqb s "done")
  | None => true
  end && forallb (done_idb tasks) (blocked_by_of t).

(** ** Prefix lookup, as the specification words it *)

(** The tasks whose id starts with the prefix, in the order of the
    collection. *)
Definition matching (prefix : string) (tasks : list task) : list task :=
  filter (fun t => match id t with
                   | Some i => startswith i prefix
                   | None => false
                   end) tasks.

(** The candidate list reported for an ambiguous prefix. *)
Definition candidates (ms : list task) : list (option string * option string) :=
  map (fun t => (id t, title t)) ms.

(** A task that [find_task] can print: it has an id and a title. *)
Definition printable (t : task) : Prop := id t <> None /\ title t <> None.

(** ** Sample collections *)

(** A task as [cmd_new] writes it, all nine keys present. *)
Definition sample (i ttl st : string) (bs bbs : list string) : task :=
  mkTask (Some i) (Some ttl) (Some "") (Some st)
         (Some "2025-01-01T00:00:00+00:00")
         (Some "2025-01-01T00:00:00+00:00")
         (Some bs) (Some bbs) (Some []).

(** The same task after a command at [later] touched it. *)
Definition later : string := "2025-02-02T00:00:00+00:00".

Definition touched (i ttl st : string) (bs bbs : list string) : task :=
  set_updated_at later (sample i ttl st bs bbs).

(** The chain A blocks B blocks C. *)
Definition chain : list task :=
  [ sample "a1" "A" "open" ["b2"] [];
    sample "b2" "B" "blocked" ["c3"] ["a1"];
    sample "c3" "C" "blocked" [] ["b2"] ].

(** Two ids with the common prefix [ab], and a third task. *)
Definition twins : list task :=
  [ sample "ab1" "first" "open" [] [];
    sample "ab2" "second" "open" [] [];
    sample "cd3" "third" "open" [] [] ].

(** One option given. *)
Definition with_status (task_id st : string) : update_args :=
  mkArgs task_id None None None None None None None None (Some st).
Definition with_add_blocks (task_id ids : string) : update_args :=
  mkArgs task_id None None None None (Some ids) None None None None.
Definition with_add_blocked_by (task_id ids : string) : update_args :=
  mkArgs task_id None None None None None (Some ids) None None None.
Definition with_remove_blocks (task_id ids : string) : update_args :=
  mkArgs task_id None None None None None None (Some ids) None None.

(** ** What an edge operation does to one task

    Each graph operation changes at most two objects, and each change is
    one of four: a task gains or loses an entry of [blocks], or gains or
    loses an entry of [blocked_by] and has its status adjusted.  [stamp]
    is the time written to [updated_at] when the entry changes, if the
    code writes one at that place. *)

(** [if x not in l: l.append(x)] *)
Definition add_if_absent (x : string) (l : list string) : list string :=
  if mem x l then l else l ++ [x].

Definition stamped (stamp : option string) (t : task) : task :=
  match stamp with
  | Some now => set_updated_at now t
  | None => t
  end.

Definition gain_block (stamp : option string) (x : string) (t : task)
  : task :=
  let t := default_blocks t in
  if mem x (blocks_of t) then t else stamped stamp (append_blocks x t).

Definition settle (t : task) : task :=
  match status t with
  | Some s => if mem s ["done"; "blocked"] then t
              else set_status "blocked" t
  | None => t
  end.

Definition gain_blocker (stamp : option string) (x : string) (t : task)
  : task :=
  let t := default_blocked_by t in
  if mem x (blocked_by_of t) then t
  else settle (stamped stamp (append_blocked_by x t)).

Definition lose_block (stamp : option string) (x : string) (t : task)
  : task :=
  if mem x (blocks_of t) then stamped stamp (remove_blocks x t) else t.

Definition release (t : task) : task :=
  match blocked_by_of t, status t with
  | [], Some s => if String.eqb s "blocked" then set_status "open" t else t
  | _, _ => t
  end.

Definition lose_blocker (stamp : option string) (x : string) (t : task)
  : task :=
  if mem x (blocked_by_of t)
  then release (stamped stamp (remove_blocked_by x t))
  else t.

(** ** Edge symmetry and the blocked-status invariant *)

(** A's [blocks] contains B exactly when B's [blocked_by] contains A. *)
Definition symmetric (ts : list task) : Prop :=
  forall A B a b, In A ts -> In B ts -> id A = Some a -> id B = Some b ->
    (In b (blocks_of A) <-> In a (blocked_by_of B)).

(** The half that completing a task keeps: every [blocked_by] entry has
    its [blocks] counterpart. *)
Definition backed (ts : list task) : Prop :=
  forall A B a b, In A ts -> In B ts -> id A = Some a -> id B = Some b ->
    In a (blocked_by_of B) -> In b (blocks_of A).

(** Edge lists without repetition. *)
Definition no_dup_edges (t : task) : Prop :=
  NoDup (blocks_of t) /\ NoDup (blocked_by_of t).

(** A task on which no subscript of [cmd_update] and [cmd_delete]
    raises: it has an id, a title and a status. *)
Definition readable (t : task) : Prop :=
  id t <> None /\ title t <> None /\ status t <> None.

(** The collections of the data model: keys present, ids unique, edge
    lists without repetition. *)
Definition well_formed (ts : list task) : Prop :=
  Forall readable ts /\ unique_ids ts /\ Forall no_dup_edges ts.

(** A task that is blocked has a blocker. *)
Definition busy_if_blocked (t : task) : Prop :=
  status t = Some "blocked" -> blocked_by_of t <> [].

(** No task is blocked with an empty [blocked_by]. *)
Definition no_idle_blocked (ts : list task) : Prop :=
  Forall busy_if_blocked ts.

(** The id of the object at position [j], for a position that has one. *)
Definition id_at (ts : list task) (j : nat) : string :=
  match id (task_at ts j) with Some x => x | None => "" end.

(** An operation on the edge between the objects at [i] (the command's
    target, changed first) and [j] (the task the prefix named). *)
Definition on_edge (fi fj : string -> task -> task) (i j : nat)
  (ts : list task) : list task :=
  mutate j (fj (id_at ts i)) (mutate i (fi (id_at ts j)) ts).

(** A change of one task that touches neither its id, its status nor its
    edges, and leaves a title where there was one. *)
Definition quiet (g : task -> task) : Prop :=
  forall t, id (g t) = id t /\ status (g t) = status t /\
            blocks (g t) = blocks t /\ blocked_by (g t) = blocked_by t /\
            (title t <> None -> title (g t) <> None).

(** The ids of a collection in which every task has one. *)
Definition ids_of (ts : list task) : list string :=
  map (fun t => match id t with Some x => x | None => "" end) ts.

(** The cascade that follows [--status done]: each task named in [bs]
    loses the blocker [tid]. *)
Definition relieve_all (now tid : string) (ids bs : list string)
  (ts : list task) : list task :=
  fold_left (fun ts b => match dict_get ids b with
                         | Some j => mutate j (lose_blocker (Some now) tid) ts
                         | None => ts
                         end) bs ts.

(** The collection after the task at [i] was set to done. *)
Definition completed (now : string) (i : nat) (ts : list task) : list task :=
  let ts1 := mutate i (set_status "done") ts in
  relieve_all now (id_at ts i) (ids_of ts) (blocks_of (task_at ts1 i)) ts1.

(** The four status values [--status] accepts. *)
Definition valid_status (s : string) : bool :=
  mem s ["open"; "in_progress"; "done"; "blocked"].

(** The collection [cmd_delete] saves when it deletes the task with id
    [d]. *)
Definition has_id (d : string) (t : task) : bool :=
  match id t with Some x => String.eqb x d | None => false end.

Definition deleted (now d : string) (ts : list task) : list task :=
  map (fun t => lose_blocker (Some now) d (lose_block (Some now) d t))
      (filter (fun t => negb (has_id d t)) ts).

(** ** Deciding the invariants on a given collection *)

Definition present {A} (o : option A) : bool :=
  match o with Some _ => true | None => false end.

Definition readableb (t : task) : bool :=
  present (id t) && present (title t) && present (status t).

Fixpoint nodupb (l : list string) : bool :=
  match l with
  | [] => true
  | x :: r => negb (mem x r) && nodupb r
  end.

Definition well_formedb (ts : list task) : bool :=
  forallb readableb ts && nodupb (ids_of ts)
  && forallb (fun t => nodupb (blocks_of t) && nodupb (blocked_by_of t)) ts.

Definition symmetricb (ts : list task) : bool :=
  forallb (fun A =>
    forallb (fun B =>
      match id A, id B with
      | Some a, Some b =>
          Bool.eqb (mem b (blocks_of A)) (mem a (blocked_by_of B))
      | _, _ => true
      end) ts) ts.

Definition no_idle_blockedb (ts : list task) : bool :=
  forallb (fun t => match status t, blocked_by_of t with
                    | Some s, [] => negb (String.eqb s "blocked")
                    | _, _ => true
                    end) ts.

(** Symmetry and its half, read by position. *)
Definition symmetric_at (ts : list task) : Prop :=
  forall m n, m < length ts -> n < length ts ->
    (In (id_at ts n) (blocks_of (task_at ts m)) <->
     In (id_at ts m) (blocked_by_of (task_at ts n))).

Definition backed_at (ts : list task) : Prop :=
  forall m n, m < length ts -> n < length ts ->
    In (id_at ts m) (blocked_by_of (task_at ts n)) ->
    In (id_at ts n) (blocks_of (task_at ts m)).

(** A done task and an open one, no edge between them. *)
Definition done_and_open : list task :=
  [ sample "a1" "A" "done" [] [];
    sample "b2" "B" "open" [] [] ].

(** A blocks B, and B was put to work by hand. *)
Definition edge_in_progress : list task :=
  [ sample "a1" "A" "open" ["b2"] [];
    sample "b2" "B" "in_progress" [] ["a1"] ].

(** ** The graph of the cycle search *)

(** [a] is blocked by [b]: the search goes from a task to its blockers. *)
Definition edge (d : task_dict) (a b : string) : Prop :=
  In b (blockers d a).

(** One or more edges in a row. *)
Inductive walk (d : task_dict) : string -> string -> Prop :=
| walk_edge a b : edge d a b -> walk d a b
| walk_more a b c : edge d a b -> walk d b c -> walk d a c.

(** The graph has a cycle. *)
Definition cyclic (d : task_dict) : Prop := exists x, walk d x x.

(** Every element of the list is blocked by the next one. *)
Fixpoint linked (d : task_dict) (p : list string) : Prop :=
  match p with
  | a :: (b :: _) as r => edge d a b /\ linked d r
  | _ => True
  end.

(** A reported cycle: it starts and ends with the same id and follows
    the edges. *)
Definition closed_walk (d : task_dict) (c : list string) : Prop :=
  exists x mid, c = x :: mid ++ [x] /\ linked d c.

(** Finished nodes, the last finished first: all blockers of a node
    finished before it. *)
Fixpoint finished_order (d : task_dict) (L : list string) : Prop :=
  match L with
  | [] => True
  | u :: r => (forall w, edge d u w -> In w r) /\ finished_order d r
  end.

(** How many ids of [U] the search has not seen yet. *)
Definition unvisited (U seen : list string) : nat :=
  length (filter (fun x => negb (mem x seen)) U).

(** The invariant of the search: [L] lists the finished nodes, which are
    the visited ones off the stack; the stack holds visited nodes and is
    the path as a set. *)
Record dfs_inv (d : task_dict) (st : dfs_state) (L : list string)
  : Prop := mkInv {
  inv_nodup : NoDup L;
  inv_order : finished_order d L;
  inv_finished : forall u, In u L <->
                   In u (visited st) /\ ~ In u (rec_stack st);
  inv_stack : forall u, In u (rec_stack st) -> In u (visited st);
  inv_path : forall u, In u (rec_stack st) <-> In u (path st)
}.

(** What one call of [has_cycle] promises, within a set [U] of ids that
    holds every blocker: a reported cycle is one; a return without cycle
    restores stack and path, keeps the invariant and has visited the
    node; the budget is not used up while it exceeds the number of ids
    not yet visited. *)
Definition call_ok (d : task_dict) (U : list string) (fuel : nat) : Prop :=
  forall v st L,
    dfs_inv d st L -> In v U -> ~ In v (visited st) ->
    linked d (path st ++ [v]) -> unvisited U (visited st) < fuel ->
    match has_cycle fuel d v st with
    | Cycle c => closed_walk d c
    | NoCycle st' =>
        exists L', dfs_inv d st' L' /\ rec_stack st' = rec_stack st /\
                   path st' = path st /\
                   incl (visited st) (visited st') /\ In v (visited st')
    | OutOfFuel => False
    end.

(** The blocked-by relation read off the tasks themselves. *)
Definition blocked_by_edge (tasks : list task) (a b : string) : Prop :=
  exists t, In t tasks /\ id t = Some a /\ In b (blocked_by_of t).

(** The cycle A blocked by B, B blocked by C, C blocked by A, next to a
    task D that stands alone and a task E blocked by a missing id. *)
Definition ring : list task :=
  [ sample "d4" "D" "open" [] [];
    sample "e5" "E" "blocked" [] ["zz"];
    sample "a1" "A" "blocked" ["c3"] ["b2"];
    sample "b2" "B" "blocked" ["a1"] ["c3"];
    sample "c3" "C" "blocked" ["b2"] ["a1"] ].

(** ** Texts that survive the document format *)

(** The character [c] does not occur in [s]. *)
Fixpoint char_free (c : ascii) (s : string) : bool :=
  match s with
  | EmptyString => true
  | String x s' => negb (Ascii.eqb x c) && char_free c s'
  end.

(** A one-line field free of the characters the format gives a meaning:
    line feed, [#], [*], [<], [[] and the comma. *)
Definition plain (s : string) : bool :=
  char_free "010" s && char_free "#" s && char_free "*" s
  && char_free "<" s && char_free "[" s && char_free "," s.

(** A body free of [#], [*] and [<]; it may have several lines. *)
Definition texty (s : string) : bool :=
  char_free "#" s && char_free "*" s && char_free "<" s.

(** No white space at either end. *)
Definition stripped (s : string) : Prop := strip s = s.

(** A scan that stops where [f] holds of the rest of the text does not
    stop inside [X] when [R] follows it. *)
Fixpoint quiet_over (f : string -> bool) (X R : string) : Prop :=
  match X with
  | EmptyString => True
  | String c X' =>
      f (String c (X' ++ R)%string) = false /\ quiet_over f X' R
  end.

(** The first [k] characters of [R] are not [c]. *)
Fixpoint head_free (c : ascii) (k : nat) (R : string) : bool :=
  match k, R with
  | O, _ => true
  | S _, EmptyString => true
  | S k', String a R' => negb (Ascii.eqb a c) && head_free c k' R'
  end.

(** [X] put in front of the first part of a cut. *)
Definition prepend (X : string) (r : option (string * string))
  : option (string * string) :=
  match r with
  | Some (a, b) => Some ((X ++ a)%string, b)
  | None => None
  end.

(** ** The document of a collection, as the parser reads it *)

(** One session of the log section, without the blank line after it. *)
Definition entry (s : session) : string :=
  "### " ++ timestamp s ++ nl ++ "<log>" ++ nl ++ log s ++ nl ++ "</log>".

(** The sessions of a task, each between two line feeds, followed by
    [T]. *)
Fixpoint entries (ss : list session) (T : string) : string :=
  match ss with
  | [] => T
  | s :: r => nl ++ entry s ++ nl ++ entries r T
  end.

(** What follows [</description>]: the session log section when there
    are sessions, then [T]. *)
Definition closing (ss : list session) (T : string) : string :=
  match ss with
  | [] => T
  | _ => nl ++ nl ++ "## Session Logs" ++ nl ++ entries ss T
  end.

(** The text of a task after its title line, followed by [T]. *)
Definition section (tid created updated : string) (bl bb : list string)
    (st desc : string) (ss : list session) (T : string) : string :=
  nl ++ "**ID**: " ++ tid ++ nl
  ++ "**Created**: " ++ created ++ nl
  ++ "**Updated**: " ++ updated ++ nl
  ++ "**Blocks**: " ++ String.concat ", " bl ++ nl
  ++ "**Blocked By**: " ++ String.concat ", " bb ++ nl
  ++ nl ++ "## Status" ++ nl ++ nl
  ++ status_line st "open" "Open"
  ++ status_line st "in_progress" "In Progress"
  ++ status_line st "blocked" "Blocked"
  ++ status_line st "done" "Done"
  ++ nl ++ "## Description" ++ nl ++ nl
  ++ "<description>" ++ nl ++ desc ++ nl ++ "</description>"
  ++ closing ss T.

(** [t.get('description', '')] *)
Definition description_of (t : task) : string :=
  match description t with Some d => d | None => EmptyString end.

(** ** Collections that the document keeps *)

(** [s] starts with a date, [\d{4}-\d{2}-\d{2}T]. *)
Definition dated (s : string) : bool :=
  match date_head s with Some _ => true | None => false end.

(** A one-line field: plain, and no white space around it. *)
Definition field (s : string) : Prop := plain s = true /\ stripped s.

(** A reference to a task: a field that is not empty. *)
Definition reference (s : string) : Prop := field s /\ s <> EmptyString.

(** A title: one line, no white space around it. *)
Definition headline (s : string) : Prop :=
  char_free "010" s = true /\ stripped s.

(** A description or a log: free text, no white space around it. *)
Definition body (s : string) : Prop := texty s = true /\ stripped s.

(** A session: a dated one-line timestamp and a log. *)
Definition storable_session (s : session) : Prop :=
  plain (timestamp s) = true /\ dated (timestamp s) = true /\ body (log s).

(** A task the document keeps: the keys [generate_markdown_task] reads
    are there, the status is one of the four, and every text stays clear
    of the characters of the format. *)
Definition storable (t : task) : Prop :=
  match id t, title t, status t, created_at t, updated_at t with
  | Some tid, Some ttl, Some st, Some created, Some updated =>
      field tid /\ headline ttl /\ valid_status st = true
      /\ field created /\ field updated
      /\ Forall reference (blocks_of t)
      /\ Forall reference (blocked_by_of t)
      /\ body (description_of t)
      /\ Forall storable_session (sessions_of t)
  | _, _, _, _, _ => False
  end.

(** The data of a task that a round trip is to keep. *)
Definition task_data (t : task)
  : option string * option string * option string * option string
    * option string * list string * list string * string * list session :=
  (id t, title t, status t, created_at t, updated_at t,
   blocks_of t, blocked_by_of t, description_of t, sessions_of t).

(** A line of [s] is the horizontal rule [---]. *)
Definition has_rule_line (s : string) : bool :=
  existsb (String.eqb "---") (split_chr "010" s).

(** The description or a log of [t] has a rule line. *)
Definition rule_in_body (t : task) : bool :=
  has_rule_line (description_of t)
  || existsb (fun s => has_rule_line (log s)) (sessions_of t).

(** The dict the parser builds for a storable task: the description and
    the two edge lists are always set, the session list only when it is
    not empty. *)
Definition reloaded (t : task) : task :=
  mkTask (id t) (title t) (Some (description_of t)) (status t)
         (created_at t) (updated_at t)
         (Some (blocks_of t)) (Some (blocked_by_of t))
         (match sessions_of t with [] => None | l => Some l end).

(** ** Sample documents *)

(** Two tasks with a rule line in a description and in a log. *)
Definition journal : list task :=
  [ mkTask (Some "a1") (Some "Write the parser")
      (Some ("first part" ++ nl ++ "---" ++ nl ++ "second part")%string)
      (Some "in_progress")
      (Some "2024-05-01T10:00:00.000001") (Some "2024-05-02T09:30:00.000002")
      (Some ["b2"; "c3"]) None
      (Some [ mkSession "2024-05-01T12:00:00.000003" "---";
              mkSession "2024-05-02T09:30:00.000002"
                ("tried - [x] Done" ++ nl ++ nl ++ "works")%string ]);
    mkTask (Some "b2") (Some "Ship it: v1 **now**") None (Some "blocked")
      (Some "2024-05-01T10:05:00.000004") (Some "2024-05-01T10:05:00.000004")
      None (Some ["a1"]) None;
    mkTask (Some "c3") (Some "Tell everyone") (Some "a note") (Some "done")
      (Some "2024-05-01T10:06:00.000005") (Some "2024-05-03T08:00:00.000006")
      (Some []) (Some ["a1"])
      (Some [ mkSession "2024-05-03T08:00:00.000006" "told them" ]) ].

(** One task whose description has a line that reads like a metadata
    line, and white space in front. *)
Definition shadowed : list task :=
  [ mkTask (Some "a1") (Some "Explain the format")
      (Some ("  an indented example:" ++ nl ++ "**ID**: zz")%string)
      (Some "open")
      (Some "2024-05-01T10:00:00.000001") (Some "2024-05-01T10:00:00.000001")
      (Some []) (Some []) None ].

(** One task whose description has a rule line, a blank line and a line
    that reads like a task heading. *)
Definition quoted : list task :=
  [ mkTask (Some "a1") (Some "Explain the format")
      (Some ("tasks are separated like this:" ++ nl ++ "---" ++ nl ++ nl
             ++ "# Task: the next one")%string)
      (Some "open")
      (Some "2024-05-01T10:00:00.000001") (Some "2024-05-01T10:00:00.000001")
      (Some []) (Some []) None ].

(** ** Updates that touch no edge *)

(** No edge option, no status and no [--delete-log]: what is left are
    [--title], [--description] and [--log]. *)
Definition only_metadata (args : update_args) : Prop :=
  arg_delete_log args = None /\
  given (arg_add_blocks args) = None /\
  given (arg_add_blocked_by args) = None /\
  given (arg_remove_blocks args) = None /\
  given (arg_remove_blocked_by args) = None /\
  given (arg_status args) = None.

(** One of the three is given: a title or a log that is not empty, or a
    description, empty or not. *)
Definition metadata_given (args : update_args) : bool :=
  present (given (arg_title args)) || present (arg_description args)
  || present (given (arg_log args)).

(** [--delete-log] alone. *)
Definition only_delete_log (args : update_args) : Prop :=
  given (arg_title args) = None /\ arg_description args = None /\
  given (arg_log args) = None /\
  given (arg_add_blocks args) = None /\
  given (arg_add_blocked_by args) = None /\
  given (arg_remove_blocks args) = None /\
  given (arg_remove_blocked_by args) = None /\
  given (arg_status args) = None.

(** ** Collections the validation accepts *)

(** Every character is one of [0-9a-f]. *)
Fixpoint all_hex (s : string) : bool :=
  match s with
  | EmptyString => true
  | String c s' => is_hex c && all_hex s'
  end.

(** The three required fields are there and not empty, and the id has
    the format of the validation. *)
Definition identified (t : task) : Prop :=
  exists i c u,
    id t = Some i /\ valid_id_format i = true /\
    created_at t = Some c /\ c <> EmptyString /\
    updated_at t = Some u /\ u <> EmptyString.

(** Every id in the edge lists of [t] is the id of a task of the
    collection. *)
Definition resolved (tasks : list task) (t : task) : Prop :=
  forall x, In x (blocks_of t) \/ In x (blocked_by_of t) ->
            exists u, In u tasks /\ id u = Some x.

(** A task with a reference to no task. *)
Definition dangling (d : task_dict) (t : task) : bool :=
  negb (forallb (dict_has d) (blocks_of t)
        && forallb (dict_has d) (blocked_by_of t)).

(** Two tasks as the program writes them, with ids of the format the
    validation asks for: the first blocks the second. *)
Definition vault : list task :=
  [ mkTask (Some "0123456789abcdef0123456789abcdef") (Some "Draw the map")
      (Some "") (Some "open")
      (Some "2024-05-01T10:00:00.000001+00:00")
      (Some "2024-05-01T10:00:00.000001+00:00")
      (Some ["fedcba9876543210fedcba9876543210"]) (Some []) (Some []);
    mkTask (Some "fedcba9876543210fedcba9876543210") (Some "Find the way")
      (Some "") (Some "blocked")
      (Some "2024-05-01T10:05:00.000002+00:00")
      (Some "2024-05-01T10:05:00.000002+00:00")
      (Some []) (Some ["0123456789abcdef0123456789abcdef"]) (Some []) ].

(** The document [md_save_tasks] writes for a collection, the empty
    text if it raises. *)
Definition document (tasks : list task) : string :=
  match md_save_tasks tasks with
  | Ok text => text
  | KeyError => EmptyString
  end.

(** White space that ends no line: every character is a space character
    other than the line feed and the carriage return. *)
Fixpoint inline_blank (s : string) : bool :=
  match s with
  | EmptyString => true
  | String c s' =>
      isspace c && negb (Ascii.eqb c "010") && negb (Ascii.eqb c "013")
      && inline_blank s'
  end.

(** ** New tasks *)

(** The id is new to the collection: no task has it, no edge list names
    it. *)
Definition fresh (new_id : string) (tasks : list task) : Prop :=
  Forall (fun t => id t <> Some new_id /\ ~ In new_id (blocks_of t)
                   /\ ~ In new_id (blocked_by_of t)) tasks.

(** What one round of the [--blocked-by] loop of [cmd_new] does to the
    blocker it found. *)
Definition block_new (now new_id : string) (t : task) : task :=
  set_updated_at now (append_blocks new_id (default_blocks t)).

(** The state of the loop of [cmd_new] after some rounds. *)
Definition new_inv (new_id : string) (tasks ts : list task)
    (bb : list string) : Prop :=
  Forall readable ts /\ map id ts = map id tasks /\
  (forall j, j < length tasks ->
     blocked_by (task_at ts j) = blocked_by (task_at tasks j) /\
     forall x, In x (blocks_of (task_at ts j)) <->
               In x (blocks_of (task_at tasks j))
               \/ (x = new_id /\ In (id_at tasks j) bb)) /\
  (forall b, In b bb -> exists j, j < length tasks /\ id_at tasks j = b).


(** The sort key of [cmd_list], for a task that has one. *)
Definition created_of (t : task) : string :=
  match created_at t with Some c => c | None => EmptyString end.

(** [a] does not come after [b] in creation order. *)
Definition not_after (a b : task) : Prop :=
  String.ltb (created_of b) (created_of a) = false.

(** The tasks created at [k]. *)
Definition created_on (k : string) (ts : list task) : list task :=
  filter (fun t => String.eqb (created_of t) k) ts.
(** ** Helper lemmas on the monad and on positions *)

Lemma keyed_id t : keyed t -> exists i, id t = Some i.
Proof. intros [H _]. destruct (id t); [eauto | congruence]. Qed.

Lemma keyed_status t : keyed t -> exists s, status t = Some s.
Proof. intros [_ H]. destruct (status t); [eauto | congruence]. Qed.

Lemma id_dict_ok ts :
  Forall keyed ts ->
  exists ids, id_dict ts = Ok ids /\ map id ts = map Some ids.
Proof.
  unfold id_dict. induction 1 as [|t r Ht _ IH]; simpl.
  - exists []. split; reflexivity.
  - destruct (keyed_id _ Ht) as [i Hi]. destruct IH as [ids [E1 E2]].
    rewrite Hi. simpl. rewrite E1. simpl. exists (i :: ids).
    split; [reflexivity | now rewrite E2].
Qed.

Lemma last_index_from_some k key ids j :
  last_index_from k key ids = Some j ->
  k <= j /\ nth_error ids (j - k) = Some key.
Proof.
  revert k. induction ids as [|x r IH]; intros k; simpl; [discriminate|].
  destruct (last_index_from (S k) key r) eqn:E.
  - intros [= <-]. destruct (IH _ E) as [Hle Hn]. split; [lia|].
    replace (n - k) with (S (n - S k)) by lia. exact Hn.
  - destruct (String.eqb x key) eqn:Ex; [|discriminate].
    intros [= <-]. apply String.eqb_eq in Ex. subst x.
    split; [lia|]. now rewrite Nat.sub_diag.
Qed.

Lemma last_index_from_none k key ids :
  last_index_from k key ids = None -> ~ In key ids.
Proof.
  revert k. induction ids as [|x r IH]; intros k; simpl; [tauto|].
  destruct (last_index_from (S k) key r) eqn:E; [discriminate|].
  destruct (String.eqb x key) eqn:Ex; [discriminate|].
  intros _ [->|H]; [now rewrite String.eqb_refl in Ex | eapply IH; eauto].
Qed.

Lemma dict_get_some ids key j :
  dict_get ids key = Some j -> nth_error ids j = Some key.
Proof.
  intros H. apply last_index_from_some in H. now rewrite Nat.sub_0_r in H.
Qed.

Lemma dict_get_none ids key : dict_get ids key = None -> ~ In key ids.
Proof. apply last_index_from_none. Qed.

Lemma task_at_nth_error ts j t :
  nth_error ts j = Some t -> task_at ts j = t.
Proof. intros H. unfold task_at. now apply nth_error_nth. Qed.

Lemma ids_nth_error ts ids j key :
  map id ts = map Some ids -> nth_error ids j = Some key ->
  exists t, nth_error ts j = Some t /\ id t = Some key.
Proof.
  intros Hm Hn.
  assert (H : nth_error (map id ts) j = Some (Some key))
    by (rewrite Hm; now apply map_nth_error).
  rewrite nth_error_map in H. destruct (nth_error ts j) as [t|]; [|discriminate].
  exists t. split; [reflexivity|]. now inversion H.
Qed.

Lemma unique_ids_same ts t u key :
  unique_ids ts -> In t ts -> In u ts ->
  id t = Some key -> id u = Some key -> t = u.
Proof.
  unfold unique_ids. induction ts as [|x r IH]; simpl; [tauto|].
  intros Hnd Ht Hu Hit Hiu. inversion Hnd as [|? ? Hnot Hnd']; subst.
  destruct Ht as [->|Ht], Hu as [->|Hu]; auto.
  - exfalso. apply Hnot. rewrite Hit, <- Hiu. now apply in_map.
  - exfalso. apply Hnot. rewrite Hiu, <- Hit. now apply in_map.
Qed.

(** ** The ready query: lemmas *)

Lemma done_idb_spec tasks b : done_idb tasks b = true <-> done_id tasks b.
Proof.
  unfold done_idb, done_id. rewrite existsb_exists. split.
  - intros [u [Hin H]]. exists u. split; [exact Hin|].
    destruct (id u) as [i|]; [|discriminate].
    destruct (status u) as [s|]; [|discriminate].
    apply andb_true_iff in H. destruct H as [H1 H2].
    apply String.eqb_eq in H1, H2. now subst.
  - intros [u [Hin [Hi Hs]]]. exists u. split; [exact Hin|].
    rewrite Hi, Hs. now rewrite String.eqb_refl.
Qed.

Lemma readyb_spec tasks t : readyb tasks t = true <-> ready_spec tasks t.
Proof.
  unfold readyb, ready_spec. rewrite andb_true_iff, forallb_forall.
  split; intros [H1 H2]; split.
  - intros E. rewrite E in H1. discriminate.
  - intros b Hb. now apply done_idb_spec, H2.
  - destruct (status t) as [s|]; [|reflexivity].
    destruct (String.eqb s "done") eqn:E; [|reflexivity].
    apply String.eqb_eq in E. subst. congruence.
  - intros b Hb. now apply done_idb_spec, H2.
Qed.

Lemma blockers_done_ok tasks ids bs :
  Forall keyed tasks -> unique_ids tasks -> map id tasks = map Some ids ->
  blockers_done tasks ids bs = Ok (forallb (done_idb tasks) bs).
Proof.
  intros Hk Hu Hm. induction bs as [|b r IH]; simpl; [reflexivity|].
  destruct (dict_get ids b) as [j|] eqn:E.
  - apply dict_get_some in E.
    destruct (ids_nth_error _ _ _ _ Hm E) as [t [Hn Hi]].
    rewrite (task_at_nth_error _ _ _ Hn).
    assert (Hin : In t tasks) by (eapply nth_error_In; eauto).
    rewrite Forall_forall in Hk.
    destruct (keyed_status _ (Hk _ Hin)) as [s Hs]. rewrite Hs. simpl.
    destruct (String.eqb s "done") eqn:Es.
    + apply String.eqb_eq in Es. subst s.
      assert (Hd : done_idb tasks b = true)
        by (apply done_idb_spec; exists t; auto).
      now rewrite Hd.
    + assert (Hd : done_idb tasks b = false).
      { destruct (done_idb tasks b) eqn:Hd; [|reflexivity].
        apply done_idb_spec in Hd. destruct Hd as [u [Hu1 [Hu2 Hu3]]].
        assert (t = u) by (eapply unique_ids_same; eauto). subst u.
        rewrite Hs in Hu3. inversion Hu3. subst.
        now rewrite String.eqb_refl in Es. }
      now rewrite Hd.
  - apply dict_get_none in E.
    assert (Hd : done_idb tasks b = false).
    { destruct (done_idb tasks b) eqn:Hd; [|reflexivity].
      apply done_idb_spec in Hd. destruct Hd as [u [Hu1 [Hu2 Hu3]]].
      exfalso. apply E.
      assert (H : In (Some b) (map Some ids))
        by (rewrite <- Hm, <- Hu2; now apply in_map).
      apply in_map_iff in H. destruct H as [x [[= ->] Hx]]. exact Hx. }
    now rewrite Hd.
Qed.

Lemma ready_loop tasks ids l acc :
  Forall keyed tasks -> unique_ids tasks -> map id tasks = map Some ids ->
  Forall keyed l ->
  for_each
    (fun ready t =>
       st <- getitem (status t) ;;
       if String.eqb st "done" then Ok ready
       else
         is_ready <- blockers_done tasks ids (blocked_by_of t) ;;
         Ok (if is_ready then ready ++ [t] else ready))
    l acc = Ok (acc ++ filter (readyb tasks) l).
Proof.
  intros Hk Hu Hm Hl. revert acc.
  induction Hl as [|t r Ht _ IH]; intros acc; simpl.
  - now rewrite app_nil_r.
  - destruct (keyed_status _ Ht) as [s Hs]. unfold readyb at 1.
    rewrite Hs. simpl.
    destruct (String.eqb s "done") eqn:Es; simpl.
    + apply IH.
    + rewrite (blockers_done_ok _ _ _ Hk Hu Hm). simpl.
      destruct (forallb (done_idb tasks) (blocked_by_of t)).
      * rewrite IH. now rewrite <- app_assoc.
      * apply IH.
Qed.

(** C6.  On a collection in which every task has an id and a status and
    ids are unique, [cmd_ready] returns, in the order of the collection,
    exactly the tasks whose status is not done and whose [blocked_by]
    holds only ids of tasks of the collection that are done; an id that
    names no task makes the task not ready. *)
Theorem cmd_ready_exact (tasks : list task) :
  Forall keyed tasks -> unique_ids tasks ->
  cmd_ready tasks = Ok (filter (readyb tasks) tasks) /\
  (forall t, In t (filter (readyb tasks) tasks) <->
             In t tasks /\ ready_spec tasks t) /\
  (forall t b, In b (blocked_by_of t) ->
               (forall u, In u tasks -> id u <> Some b) ->
               ~ In t (filter (readyb tasks) tasks)).
Proof.
  intros Hk Hu. split; [|split].
  - unfold cmd_ready. destruct (id_dict_ok _ Hk) as [ids [E Hm]].
    rewrite E. simpl. now rewrite (ready_loop tasks ids tasks []).
  - intros t. rewrite filter_In. now rewrite readyb_spec.
  - intros t b Hb Hnone Hin. apply filter_In in Hin. destruct Hin as [_ Hr].
    apply readyb_spec in Hr. destruct Hr as [_ Hr].
    destruct (Hr _ Hb) as [u [Hu1 [Hu2 _]]]. now apply (Hnone u).
Qed.
(** ** Prefix lookup: lemmas *)

Lemma matches_from_ok k prefix ts :
  Forall printable ts ->
  exists ms,
    matches_from k prefix ts = Ok ms /\
    map (fun i => nth (i - k) ts empty_task) ms = matching prefix ts /\
    Forall (fun i => k <= i) ms.
Proof.
  intros H. revert k. induction H as [|t r [Hi Ht] _ IH]; intros k.
  - exists []. repeat split; constructor.
  - cbn [matches_from matching filter].
    destruct (id t) as [i|] eqn:Ei; [|congruence]. cbn [getitem bind].
    destruct (IH (S k)) as [ms [E [Hm Hle]]]. rewrite E. cbn [bind].
    fold (matching prefix r).
    assert (Hshift : map (fun i0 => nth (i0 - k) (t :: r) empty_task) ms
                     = matching prefix r).
    { rewrite <- Hm. apply map_ext_in. intros j Hj.
      rewrite Forall_forall in Hle. specialize (Hle _ Hj).
      replace (j - k) with (S (j - S k)) by lia. reflexivity. }
    destruct (startswith i prefix).
    + exists (k :: ms). split; [reflexivity|]. split.
      * cbn [map]. rewrite Nat.sub_diag. now rewrite Hshift.
      * constructor; [lia|]. eapply Forall_impl; [|exact Hle].
        simpl. intros; lia.
    + exists ms. split; [reflexivity|]. split; [exact Hshift|].
      eapply Forall_impl; [|exact Hle]. simpl. intros; lia.
Qed.

Lemma matches_positions prefix tasks :
  Forall printable tasks ->
  exists ms,
    matches_from 0 prefix tasks = Ok ms /\
    map (task_at tasks) ms = matching prefix tasks.
Proof.
  intros H. destruct (matches_from_ok 0 prefix tasks H) as [ms [E [Hm _]]].
  exists ms. split; [exact E|]. rewrite <- Hm. apply map_ext.
  intros j. unfold task_at. now rewrite Nat.sub_0_r.
Qed.

Lemma matching_printable prefix tasks :
  Forall printable tasks -> Forall printable (matching prefix tasks).
Proof.
  intros H. apply Forall_forall. intros t Ht. apply filter_In in Ht.
  rewrite Forall_forall in H. now apply H.
Qed.

Lemma report_lines tasks ms :
  Forall printable (map (task_at tasks) ms) ->
  exists lines,
    map_result (fun i => tid <- getitem (id (task_at tasks i)) ;;
                         ttl <- getitem (title (task_at tasks i)) ;;
                         Ok (tid, ttl)) ms = Ok lines /\
    map (fun l => (Some (fst l), Some (snd l))) lines
    = candidates (map (task_at tasks) ms).
Proof.
  induction ms as [|i r IH]; simpl; intros H.
  - exists []. split; reflexivity.
  - inversion H as [|? ? [Hi Ht] Hr]; subst.
    destruct (IH Hr) as [lines [E Hl]].
    destruct (id (task_at tasks i)) as [x|] eqn:Ex; [|congruence].
    destruct (title (task_at tasks i)) as [y|] eqn:Ey; [|congruence].
    simpl. rewrite E. simpl. exists ((x, y) :: lines).
    split; [reflexivity|]. simpl. now rewrite Hl.
Qed.

(** C9, as amended.  On a collection whose tasks all have an id and a
    title, [find_task] with a non-empty prefix returns the task when
    exactly one id starts with the prefix, reports not-found when none
    does, and reports an ambiguity that lists every matching task, in
    order, when more than one does; it never returns one of several
    matches.  With the empty prefix it returns no task and reports
    nothing. *)
Theorem find_task_unique_match (tasks : list task) (prefix : string) :
  Forall printable tasks ->
  (prefix = "" -> find_task tasks prefix = Ok NoPrefix) /\
  (prefix <> "" ->
   match matching prefix tasks with
   | [] => find_task tasks prefix = Ok NotFound
   | [t] => exists i, find_task tasks prefix = Ok (Found i) /\
                      nth_error tasks i = Some t
   | ms => exists lines,
             find_task tasks prefix = Ok (Ambiguous lines) /\
             map (fun l => (Some (fst l), Some (snd l))) lines
             = candidates ms
   end).
Proof.
  intros Hp. split.
  - intros ->. reflexivity.
  - intros Hne. unfold find_task.
    destruct prefix as [|c p]; [congruence|]. simpl str_falsy. cbv iota.
    destruct (matches_positions (String c p) tasks Hp) as [ms [E Hm]].
    rewrite E. simpl.
    pose proof (matching_printable (String c p) tasks Hp) as Hmp.
    rewrite <- Hm in *.
    destruct ms as [|i [|j r]]; simpl map.
    + reflexivity.
    + exists i. split; [reflexivity|].
      assert (Hin : In (task_at tasks i) (matching (String c p) tasks))
        by (rewrite <- Hm; left; reflexivity).
      apply filter_In in Hin. destruct Hin as [Hin _].
      unfold task_at in *.
      destruct (Nat.lt_ge_cases i (length tasks)) as [Hlt|Hge].
      * now apply nth_error_nth'.
      * exfalso. cbn [map] in Hmp. rewrite nth_overflow in Hmp by exact Hge.
        inversion Hmp as [|? ? [Hbad _] _]. now apply Hbad.
    + destruct (report_lines tasks (i :: j :: r) Hmp) as [lines [El Hl]].
      rewrite El. simpl. exists lines. split; [reflexivity|exact Hl].
Qed.
Ltac keyed_all := repeat constructor; simpl; discriminate.

Lemma chain_keyed : Forall keyed chain.
Proof. keyed_all. Defined.

Lemma unique_ids_by_compute ts :
  (fix go (l : list (option string)) : bool :=
     match l with
     | [] => true
     | x :: r =>
         negb (existsb (fun y => match x, y with
                                 | Some a, Some b => String.eqb a b
                                 | None, None => true
                                 | _, _ => false
                                 end) r) && go r
     end) (map id ts) = true -> unique_ids ts.
Proof.
  unfold unique_ids. induction (map id ts) as [|x r IH]; intros H.
  - constructor.
  - apply andb_true_iff in H. destruct H as [H1 H2]. constructor; auto.
    intros Hin. apply negb_true_iff in H1.
    assert (E : existsb (fun y => match x, y with
                                 | Some a, Some b => String.eqb a b
                                 | None, None => true
                                 | _, _ => false
                                 end) r = true).
    { apply existsb_exists. exists x. split; [exact Hin|].
      destruct x; [apply String.eqb_refl | reflexivity]. }
    congruence.
Defined.

Lemma chain_unique : unique_ids chain.
Proof. apply unique_ids_by_compute. reflexivity. Defined.

Lemma cmd_ready_exact_witness :
  cmd_ready chain = Ok [sample "a1" "A" "open" ["b2"] []].
Proof.
  exact (proj1 (cmd_ready_exact chain chain_keyed chain_unique)).
Defined.

Lemma twins_printable : Forall printable twins.
Proof. keyed_all. Defined.

Lemma find_task_unique_match_witness :
  exists lines,
    find_task twins "ab" = Ok (Ambiguous lines) /\
    map (fun l => (Some (fst l), Some (snd l))) lines
    = [(Some "ab1", Some "first"); (Some "ab2", Some "second")].
Proof.
  refine (proj2 (find_task_unique_match twins "ab" twins_printable) _).
  discriminate.
Defined.

Lemma prefix_resolution_not_unique :
  length (matching "" twins) = 3 /\
  find_task twins "" = Ok NoPrefix /\
  length (matching "ab" twins) = 2 /\
  cmd_update later (with_add_blocks "cd3" "ab") twins
  = Ok (Saved [ touched "ab1" "first" "blocked" [] ["cd3"];
                sample "ab2" "second" "open" [] [];
                touched "cd3" "third" "open" ["ab1"] [] ]).
Proof. repeat split. Qed.

(** ** In-place mutation: lemmas *)

Lemma mutate_length i f ts : length (mutate i f ts) = length ts.
Proof.
  revert i. induction ts as [|t r IH]; intros [|i]; simpl; auto.
Qed.

Lemma task_at_mutate i f ts k :
  i < length ts ->
  task_at (mutate i f ts) k
  = if Nat.eqb k i then f (task_at ts k) else task_at ts k.
Proof.
  unfold task_at. revert i k.
  induction ts as [|t r IH]; intros i k Hi; simpl in Hi; [lia|].
  destruct i as [|i], k as [|k]; simpl; auto.
  apply IH. lia.
Qed.

Lemma task_at_mutate_same i f ts :
  i < length ts -> task_at (mutate i f ts) i = f (task_at ts i).
Proof. intros H. rewrite task_at_mutate by exact H. now rewrite Nat.eqb_refl. Qed.

Lemma mutate_ext_at i f g ts :
  f (task_at ts i) = g (task_at ts i) -> mutate i f ts = mutate i g ts.
Proof.
  unfold task_at. revert i.
  induction ts as [|t r IH]; intros [|i] H; simpl in *; auto.
  - now rewrite H.
  - now rewrite (IH i H).
Qed.

Lemma mutate_same i ts : mutate i (fun t => t) ts = ts.
Proof.
  revert i. induction ts as [|t r IH]; intros [|i]; simpl; auto.
  now rewrite IH.
Qed.

Lemma mutate_fix i f ts : f (task_at ts i) = task_at ts i -> mutate i f ts = ts.
Proof.
  intros H. rewrite <- (mutate_same i ts) at 2. now apply mutate_ext_at.
Qed.

Lemma mutate_mutate i f g ts :
  mutate i g (mutate i f ts) = mutate i (fun t => g (f t)) ts.
Proof.
  revert i. induction ts as [|t r IH]; intros [|i]; simpl; auto.
  now rewrite IH.
Qed.

Lemma mutate_In i f ts t :
  In t (mutate i f ts) -> In t ts \/ exists u, In u ts /\ t = f u.
Proof.
  revert i. induction ts as [|x r IH]; intros [|i]; simpl; auto.
  - intros [<-|H]; [right; eauto | auto].
  - intros [<-|H]; [auto|].
    destruct (IH _ H) as [H1|[u [H1 H2]]]; [auto | right; eauto].
Qed.

Lemma mutate_map {A} (p : task -> A) i f ts :
  (forall t, p (f t) = p t) -> map p (mutate i f ts) = map p ts.
Proof.
  intros H. revert i. induction ts as [|x r IH]; intros [|i]; simpl; auto.
  - now rewrite H.
  - now rewrite IH.
Qed.

Lemma mutate_Forall (P : task -> Prop) i f ts :
  (forall t, P t -> P (f t)) -> Forall P ts -> Forall P (mutate i f ts).
Proof.
  intros H Hall. revert i.
  induction Hall as [|x r Hx Hr IH]; intros [|i]; simpl; constructor; auto.
Qed.

Lemma task_at_In ts i : i < length ts -> In (task_at ts i) ts.
Proof. intros H. unfold task_at. now apply nth_In. Qed.

Lemma In_task_at ts t : In t ts -> exists i, i < length ts /\ task_at ts i = t.
Proof. intros H. unfold task_at. now apply In_nth. Qed.

Lemma unique_ids_position ts i j x :
  unique_ids ts -> i < length ts -> j < length ts ->
  id (task_at ts i) = Some x -> id (task_at ts j) = Some x -> i = j.
Proof.
  unfold unique_ids, task_at. intros Hnd Hi Hj Ei Ej.
  rewrite (NoDup_nth _ None) in Hnd. apply (Hnd i j).
  - now rewrite length_map.
  - now rewrite length_map.
  - change None with (id empty_task). rewrite !map_nth. congruence.
Qed.

(** ** The four transformers: what they keep *)

Ltac by_cases :=
  repeat match goal with
         | |- context [if ?x then _ else _] =>
             lazymatch x with
             | context [if _ then _ else _] => fail
             | context [match _ with _ => _ end] => fail
             | _ => destruct x eqn:?; simpl
             end
         | |- context [match ?x with _ => _ end] =>
             lazymatch x with
             | context [if _ then _ else _] => fail
             | context [match _ with _ => _ end] => fail
             | _ => destruct x eqn:?; simpl
             end
         end;
  try reflexivity; try congruence.

Ltac open_task t :=
  destruct t as [? ? ? ? ? ? ? ? ?];
  unfold gain_block, gain_blocker, lose_block, lose_blocker, settle, release,
    stamped, default_blocks, default_blocked_by, append_blocks,
    append_blocked_by, remove_blocks, remove_blocked_by, add_if_absent,
    blocks_of, blocked_by_of; simpl.

Lemma remove_first_absent x l : mem x l = false -> remove_first x l = l.
Proof.
  induction l as [|y r IH]; simpl; [reflexivity|].
  rewrite String.eqb_sym. destruct (String.eqb y x); simpl; [discriminate|].
  intros H. now rewrite IH.
Qed.

Lemma gain_block_id s x t : id (gain_block s x t) = id t.
Proof. open_task t. by_cases. Qed.
Lemma gain_block_status s x t : status (gain_block s x t) = status t.
Proof. open_task t. by_cases. Qed.
Lemma gain_block_blocked_by s x t :
  blocked_by (gain_block s x t) = blocked_by t.
Proof. open_task t. by_cases. Qed.
Lemma gain_block_blocks s x t :
  blocks_of (gain_block s x t) = add_if_absent x (blocks_of t).
Proof. open_task t. by_cases. Qed.

Lemma gain_blocker_id s x t : id (gain_blocker s x t) = id t.
Proof. open_task t. by_cases. Qed.
Lemma gain_blocker_blocks s x t : blocks (gain_blocker s x t) = blocks t.
Proof. open_task t. by_cases. Qed.
Lemma gain_blocker_blocked_by s x t :
  blocked_by_of (gain_blocker s x t) = add_if_absent x (blocked_by_of t).
Proof. open_task t. by_cases. Qed.

Lemma lose_block_id s x t : id (lose_block s x t) = id t.
Proof. open_task t. by_cases. Qed.
Lemma lose_block_status s x t : status (lose_block s x t) = status t.
Proof. open_task t. by_cases. Qed.
Lemma lose_block_blocked_by s x t :
  blocked_by (lose_block s x t) = blocked_by t.
Proof. open_task t. by_cases. Qed.
Lemma lose_block_blocks s x t :
  blocks_of (lose_block s x t) = remove_first x (blocks_of t).
Proof.
  unfold lose_block. destruct (mem x (blocks_of t)) eqn:E.
  - destruct s; reflexivity.
  - now rewrite remove_first_absent.
Qed.

Lemma lose_blocker_id s x t : id (lose_blocker s x t) = id t.
Proof. open_task t. by_cases. Qed.
Lemma lose_blocker_blocks s x t : blocks (lose_blocker s x t) = blocks t.
Proof. open_task t. by_cases. Qed.
Lemma lose_blocker_blocked_by s x t :
  blocked_by_of (lose_blocker s x t) = remove_first x (blocked_by_of t).
Proof.
  unfold lose_blocker. destruct (mem x (blocked_by_of t)) eqn:E.
  - open_task t. by_cases.
  - now rewrite remove_first_absent.
Qed.

(** ** The loop bodies as transformers *)

Lemma status_present ts p :
  Forall keyed ts -> p < length ts ->
  exists s, status (task_at ts p) = Some s.
Proof.
  intros Hk Hp. rewrite Forall_forall in Hk.
  apply keyed_status, Hk, task_at_In, Hp.
Qed.

Lemma id_present ts p :
  Forall keyed ts -> p < length ts ->
  id (task_at ts p) = Some (id_at ts p).
Proof.
  intros Hk Hp. rewrite Forall_forall in Hk. unfold id_at.
  destruct (keyed_id _ (Hk _ (task_at_In _ _ Hp))) as [x Hx]. now rewrite Hx.
Qed.

Lemma block_unless_settled_ok p ts :
  Forall keyed ts -> p < length ts ->
  block_unless_settled p ts = Ok (mutate p settle ts).
Proof.
  intros Hk Hp. destruct (status_present ts p Hk Hp) as [s Hs].
  unfold block_unless_settled. rewrite Hs. cbn [bind getitem]. f_equal.
  destruct (mem s ["done"; "blocked"]) eqn:E.
  - symmetry. apply mutate_fix. unfold settle. now rewrite Hs, E.
  - apply mutate_ext_at. unfold settle. now rewrite Hs, E.
Qed.

Lemma unblock_if_free_ok p ts :
  Forall keyed ts -> p < length ts ->
  unblock_if_free p ts = Ok (mutate p release ts).
Proof.
  intros Hk Hp. destruct (status_present ts p Hk Hp) as [s Hs].
  unfold unblock_if_free.
  destruct (blocked_by_of (task_at ts p)) eqn:Eb.
  - rewrite Hs. cbn [bind getitem]. f_equal. destruct (String.eqb s "blocked") eqn:E.
    + apply mutate_ext_at. unfold release. now rewrite Eb, Hs, E.
    + symmetry. apply mutate_fix. unfold release. now rewrite Eb, Hs, E.
  - f_equal. symmetry. apply mutate_fix. unfold release. now rewrite Eb.
Qed.

Lemma keyed_keep f :
  (forall t, id (f t) = id t) ->
  (forall t, status (f t) <> None <-> status t <> None) ->
  forall t, keyed t -> keyed (f t).
Proof.
  intros Hi Hs t [H1 H2]. split; [now rewrite Hi | now apply Hs].
Qed.

Lemma keyed_set_updated_at now t : keyed t -> keyed (set_updated_at now t).
Proof. intros [H1 H2]. split; assumption. Qed.

Lemma keyed_stamped s t : keyed t -> keyed (stamped s t).
Proof. destruct s; [apply keyed_set_updated_at | auto]. Qed.

Lemma keyed_append_blocked_by x t : keyed t -> keyed (append_blocked_by x t).
Proof. intros [H1 H2]. split; assumption. Qed.

Lemma keyed_remove_blocked_by x t : keyed t -> keyed (remove_blocked_by x t).
Proof. intros [H1 H2]. split; assumption. Qed.

Lemma keyed_default_blocked_by t : keyed t -> keyed (default_blocked_by t).
Proof.
  intros [H1 H2]. unfold default_blocked_by.
  destruct (blocked_by t); split; assumption.
Qed.

Lemma gain_block_fused stamp x p ts :
  p < length ts ->
  (if mem x (blocks_of (task_at (mutate p default_blocks ts) p))
   then mutate p default_blocks ts
   else mutate p (stamped stamp)
          (mutate p (append_blocks x) (mutate p default_blocks ts)))
  = mutate p (gain_block stamp x) ts.
Proof.
  intros Hp. rewrite task_at_mutate_same by exact Hp.
  destruct (mem x (blocks_of (default_blocks (task_at ts p)))) eqn:E.
  - apply mutate_ext_at. unfold gain_block. now rewrite E.
  - rewrite !mutate_mutate. apply mutate_ext_at. unfold gain_block.
    now rewrite E.
Qed.

Lemma gain_blocker_fused stamp x p ts :
  Forall keyed ts -> p < length ts ->
  (if mem x (blocked_by_of (task_at (mutate p default_blocked_by ts) p))
   then Ok (mutate p default_blocked_by ts)
   else block_unless_settled p
          (mutate p (stamped stamp)
             (mutate p (append_blocked_by x)
                (mutate p default_blocked_by ts))))
  = Ok (mutate p (gain_blocker stamp x) ts).
Proof.
  intros Hk Hp. rewrite task_at_mutate_same by exact Hp.
  destruct (mem x (blocked_by_of (default_blocked_by (task_at ts p)))) eqn:E.
  - f_equal. apply mutate_ext_at. unfold gain_blocker. now rewrite E.
  - rewrite block_unless_settled_ok.
    + f_equal. rewrite !mutate_mutate. apply mutate_ext_at.
      unfold gain_blocker. now rewrite E.
    + repeat apply mutate_Forall; auto using keyed_stamped,
        keyed_append_blocked_by, keyed_default_blocked_by.
    + now rewrite !mutate_length.
Qed.

Lemma lose_block_fused stamp x p ts :
  (if mem x (blocks_of (task_at ts p))
   then mutate p (stamped stamp) (mutate p (remove_blocks x) ts)
   else ts)
  = mutate p (lose_block stamp x) ts.
Proof.
  destruct (mem x (blocks_of (task_at ts p))) eqn:E.
  - rewrite mutate_mutate. apply mutate_ext_at. unfold lose_block.
    now rewrite E.
  - symmetry. apply mutate_fix. unfold lose_block. now rewrite E.
Qed.

Lemma lose_blocker_fused stamp x p ts :
  Forall keyed ts -> p < length ts ->
  (if mem x (blocked_by_of (task_at ts p))
   then unblock_if_free p
          (mutate p (stamped stamp) (mutate p (remove_blocked_by x) ts))
   else Ok ts)
  = Ok (mutate p (lose_blocker stamp x) ts).
Proof.
  intros Hk Hp. destruct (mem x (blocked_by_of (task_at ts p))) eqn:E.
  - rewrite unblock_if_free_ok.
    + f_equal. rewrite !mutate_mutate. apply mutate_ext_at.
      unfold lose_blocker. now rewrite E.
    + repeat apply mutate_Forall; auto using keyed_stamped,
        keyed_remove_blocked_by.
    + now rewrite !mutate_length.
  - f_equal. symmetry. apply mutate_fix. unfold lose_blocker. now rewrite E.
Qed.

Lemma task_at_mutate_keep {A} (p : task -> A) i f ts k :
  (forall t, p (f t) = p t) ->
  p (task_at (mutate i f ts) k) = p (task_at ts k).
Proof.
  intros H. unfold task_at. revert i k.
  induction ts as [|t r IH]; intros [|i] [|k]; simpl; auto.
Qed.

Lemma default_blocks_id t : id (default_blocks t) = id t.
Proof. unfold default_blocks. now destruct (blocks t). Qed.

Lemma default_blocked_by_id t : id (default_blocked_by t) = id t.
Proof. unfold default_blocked_by. now destruct (blocked_by t). Qed.

Lemma first_match_from_some k p ts j :
  first_match_from k p ts = Ok (Some j) -> k <= j /\ j - k < length ts.
Proof.
  revert k. induction ts as [|t r IH]; intros k; simpl; [discriminate|].
  destruct (id t) as [x|]; [|discriminate]. cbn [getitem bind].
  destruct (startswith x p).
  - intros [= <-]. rewrite Nat.sub_diag. lia.
  - intros H. apply IH in H. lia.
Qed.

Lemma first_match_ok ts p :
  Forall keyed ts ->
  exists r, first_match ts p = Ok r /\
            forall j, r = Some j -> j < length ts.
Proof.
  intros Hk. unfold first_match.
  assert (H : exists r, first_match_from 0 p ts = Ok r).
  { generalize 0. induction Hk as [|t r Ht _ IH]; intros k; simpl.
    - eauto.
    - destruct (keyed_id _ Ht) as [x Hx]. rewrite Hx. cbn [getitem bind].
      destruct (startswith x p); eauto. }
  destruct H as [r E]. exists r. split; [exact E|].
  intros j ->. apply first_match_from_some in E. lia.
Qed.

Lemma gain_block_plain x p ts :
  p < length ts ->
  (if mem x (blocks_of (task_at (mutate p default_blocks ts) p))
   then mutate p default_blocks ts
   else mutate p (append_blocks x) (mutate p default_blocks ts))
  = mutate p (gain_block None x) ts.
Proof.
  intros Hp. rewrite <- (gain_block_fused None x p ts Hp).
  destruct (mem x _); [reflexivity|].
  change (stamped None) with (fun t : task => t). now rewrite mutate_same.
Qed.

Lemma gain_blocker_plain x p ts :
  Forall keyed ts -> p < length ts ->
  (if mem x (blocked_by_of (task_at (mutate p default_blocked_by ts) p))
   then Ok (mutate p default_blocked_by ts)
   else block_unless_settled p
          (mutate p (append_blocked_by x) (mutate p default_blocked_by ts)))
  = Ok (mutate p (gain_blocker None x) ts).
Proof.
  intros Hk Hp. rewrite <- (gain_blocker_fused None x p ts Hk Hp).
  destruct (mem x _); [reflexivity|].
  change (stamped None) with (fun t : task => t). now rewrite mutate_same.
Qed.

Lemma lose_block_plain x p ts :
  (if mem x (blocks_of (task_at ts p))
   then mutate p (remove_blocks x) ts else ts)
  = mutate p (lose_block None x) ts.
Proof.
  rewrite <- (lose_block_fused None x p ts).
  destruct (mem x _); [|reflexivity].
  change (stamped None) with (fun t : task => t). now rewrite mutate_same.
Qed.

Lemma lose_blocker_plain x p ts :
  Forall keyed ts -> p < length ts ->
  (if mem x (blocked_by_of (task_at ts p))
   then unblock_if_free p (mutate p (remove_blocked_by x) ts)
   else Ok ts)
  = Ok (mutate p (lose_blocker None x) ts).
Proof.
  intros Hk Hp. rewrite <- (lose_blocker_fused None x p ts Hk Hp).
  destruct (mem x _); [|reflexivity].
  change (stamped None) with (fun t : task => t). now rewrite mutate_same.
Qed.

Lemma keyed_gain_block s x t : keyed t -> keyed (gain_block s x t).
Proof.
  intros [H1 H2]. split; [now rewrite gain_block_id
                         | now rewrite gain_block_status].
Qed.

Lemma keyed_gain_blocker s x t : keyed t -> keyed (gain_blocker s x t).
Proof.
  intros [H1 H2]. split; [now rewrite gain_blocker_id|].
  open_task t. simpl in H2. by_cases.
Qed.

Lemma keyed_lose_block s x t : keyed t -> keyed (lose_block s x t).
Proof.
  intros [H1 H2]. split; [now rewrite lose_block_id
                         | now rewrite lose_block_status].
Qed.

Lemma keyed_lose_blocker s x t : keyed t -> keyed (lose_blocker s x t).
Proof.
  intros [H1 H2]. split; [now rewrite lose_blocker_id|].
  open_task t. simpl in H2. by_cases.
Qed.

Create HintDb keyed.
#[export] Hint Resolve keyed_gain_block keyed_gain_blocker keyed_lose_block
  keyed_lose_blocker : keyed.

Ltac read_ids Hk :=
  repeat (rewrite (task_at_mutate_keep id)
            by first [ apply default_blocks_id | apply default_blocked_by_id
                     | apply gain_block_id | apply gain_blocker_id
                     | apply lose_block_id | apply lose_blocker_id ]);
  rewrite (id_present _ _ Hk) by assumption;
  cbn [bind getitem].

Lemma add_blocks_step_shape now i ts u p :
  Forall keyed ts -> i < length ts ->
  exists r, first_match ts p = Ok r /\
    (forall j, r = Some j -> j < length ts) /\
    add_blocks_step now i (ts, u) p
    = Ok (match r with
          | None => (ts, u)
          | Some j => (on_edge (gain_block None) (gain_blocker (Some now))
                         i j ts, true)
          end).
Proof.
  intros Hk Hi. destruct (first_match_ok ts p Hk) as [r [E Hr]].
  exists r. split; [exact E|]. split; [exact Hr|].
  unfold add_blocks_step. rewrite E. cbn [bind].
  destruct r as [j|]; [|reflexivity]. specialize (Hr j eq_refl).
  read_ids Hk. rewrite (gain_block_plain _ _ _ Hi). read_ids Hk.
  change (set_updated_at now) with (stamped (Some now)).
  rewrite gain_blocker_fused;
    [reflexivity | apply mutate_Forall; auto with keyed
    | now rewrite mutate_length].
Qed.

Lemma add_blocked_by_step_shape now i ts u p :
  Forall keyed ts -> i < length ts ->
  exists r, first_match ts p = Ok r /\
    (forall j, r = Some j -> j < length ts) /\
    add_blocked_by_step now i (ts, u) p
    = Ok (match r with
          | None => (ts, u)
          | Some j => (on_edge (gain_blocker None) (gain_block (Some now))
                         i j ts, true)
          end).
Proof.
  intros Hk Hi. destruct (first_match_ok ts p Hk) as [r [E Hr]].
  exists r. split; [exact E|]. split; [exact Hr|].
  unfold add_blocked_by_step. rewrite E. cbn [bind].
  destruct r as [j|]; [|reflexivity]. specialize (Hr j eq_refl).
  read_ids Hk. rewrite (gain_blocker_plain _ _ _ Hk Hi). cbn [bind].
  read_ids Hk.
  change (set_updated_at now) with (stamped (Some now)).
  rewrite gain_block_fused by (now rewrite mutate_length).
  reflexivity.
Qed.

Lemma remove_blocks_step_shape now i ts u p :
  Forall keyed ts -> i < length ts ->
  exists r, first_match ts p = Ok r /\
    (forall j, r = Some j -> j < length ts) /\
    remove_blocks_step now i (ts, u) p
    = Ok (match r with
          | None => (ts, u)
          | Some j => (on_edge (lose_block None) (lose_blocker (Some now))
                         i j ts, true)
          end).
Proof.
  intros Hk Hi. destruct (first_match_ok ts p Hk) as [r [E Hr]].
  exists r. split; [exact E|]. split; [exact Hr|].
  unfold remove_blocks_step. rewrite E. cbn [bind].
  destruct r as [j|]; [|reflexivity]. specialize (Hr j eq_refl).
  read_ids Hk. rewrite lose_block_plain. read_ids Hk.
  change (set_updated_at now) with (stamped (Some now)).
  rewrite lose_blocker_fused;
    [reflexivity | apply mutate_Forall; auto with keyed
    | now rewrite mutate_length].
Qed.

Lemma remove_blocked_by_step_shape now i ts u p :
  Forall keyed ts -> i < length ts ->
  exists r, first_match ts p = Ok r /\
    (forall j, r = Some j -> j < length ts) /\
    remove_blocked_by_step now i (ts, u) p
    = Ok (match r with
          | None => (ts, u)
          | Some j => (on_edge (lose_blocker None) (lose_block (Some now))
                         i j ts, true)
          end).
Proof.
  intros Hk Hi. destruct (first_match_ok ts p Hk) as [r [E Hr]].
  exists r. split; [exact E|]. split; [exact Hr|].
  unfold remove_blocked_by_step. rewrite E. cbn [bind].
  destruct r as [j|]; [|reflexivity]. specialize (Hr j eq_refl).
  read_ids Hk. rewrite (lose_blocker_plain _ _ _ Hk Hi). cbn [bind].
  read_ids Hk.
  change (set_updated_at now) with (stamped (Some now)).
  rewrite lose_block_fused. reflexivity.
Qed.

(** ** Edge lists under the transformers *)

Lemma mem_In x l : mem x l = true <-> In x l.
Proof.
  unfold mem. rewrite existsb_exists. split.
  - intros [y [Hy E]]. apply String.eqb_eq in E. now subst.
  - intros H. exists x. split; [exact H | apply String.eqb_refl].
Qed.

Lemma mem_not_In x l : mem x l = false <-> ~ In x l.
Proof.
  rewrite <- mem_In. destruct (mem x l); split; congruence.
Qed.

Lemma In_add_if_absent y x l : In y (add_if_absent x l) <-> y = x \/ In y l.
Proof.
  unfold add_if_absent. destruct (mem x l) eqn:E.
  - apply mem_In in E. split; [auto|]. intros [->|H]; auto.
  - rewrite in_app_iff. simpl. split; intros [H|H]; auto.
    + destruct H as [H|[]]; auto.
Qed.

Lemma NoDup_add_if_absent x l : NoDup l -> NoDup (add_if_absent x l).
Proof.
  intros H. unfold add_if_absent. destruct (mem x l) eqn:E; [exact H|].
  apply mem_not_In in E. apply NoDup_app; [exact H | repeat constructor; auto |].
  intros a Ha [<-|[]]. now apply E.
Qed.

Lemma In_remove_first_other y x l :
  y <> x -> (In y (remove_first x l) <-> In y l).
Proof.
  intros Hne. induction l as [|z r IH]; simpl; [tauto|].
  destruct (String.eqb z x) eqn:E.
  - apply String.eqb_eq in E. subst z. split; [auto|].
    intros [H|H]; [congruence | exact H].
  - simpl. now rewrite IH.
Qed.

Lemma In_remove_first_sub y x l : In y (remove_first x l) -> In y l.
Proof.
  induction l as [|z r IH]; simpl; [tauto|].
  destruct (String.eqb z x); simpl; tauto.
Qed.

Lemma NoDup_remove_first x l : NoDup l -> NoDup (remove_first x l).
Proof.
  induction 1 as [|z r Hz Hr IH]; simpl; [constructor|].
  destruct (String.eqb z x); [exact Hr|].
  constructor; [|exact IH]. intros H. apply Hz. now apply In_remove_first_sub in H.
Qed.

Lemma not_In_remove_first x l : NoDup l -> ~ In x (remove_first x l).
Proof.
  induction 1 as [|z r Hz Hr IH]; simpl; [tauto|].
  destruct (String.eqb z x) eqn:E.
  - apply String.eqb_eq in E. now subst.
  - intros [H|H]; [|now apply IH]. subst. now rewrite String.eqb_refl in E.
Qed.

Lemma In_remove_first y x l :
  NoDup l -> (In y (remove_first x l) <-> y <> x /\ In y l).
Proof.
  intros Hnd. split.
  - intros H. split; [|now apply In_remove_first_sub in H].
    intros ->. now apply (not_In_remove_first x l).
  - intros [Hne H]. now apply In_remove_first_other.
Qed.

(** ** Collections that differ on one edge *)

Lemma on_edge_length fi fj i j ts :
  length (on_edge fi fj i j ts) = length ts.
Proof. unfold on_edge. now rewrite !mutate_length. Qed.

Lemma on_edge_at fi fj i j ts k :
  i < length ts -> j < length ts ->
  task_at (on_edge fi fj i j ts) k
  = (if Nat.eqb k j then fj (id_at ts i) else fun t => t)
      ((if Nat.eqb k i then fi (id_at ts j) else fun t => t)
         (task_at ts k)).
Proof.
  intros Hi Hj. unfold on_edge.
  rewrite task_at_mutate by (now rewrite mutate_length).
  rewrite task_at_mutate by exact Hi.
  destruct (Nat.eqb k j), (Nat.eqb k i); reflexivity.
Qed.

Lemma on_edge_Forall (P : task -> Prop) fi fj i j ts :
  (forall x t, P t -> P (fi x t)) -> (forall x t, P t -> P (fj x t)) ->
  Forall P ts -> Forall P (on_edge fi fj i j ts).
Proof.
  intros Hi Hj H. unfold on_edge. apply mutate_Forall; [apply Hj|].
  apply mutate_Forall; [apply Hi | exact H].
Qed.

Lemma on_edge_map {A} (p : task -> A) fi fj i j ts :
  (forall x t, p (fi x t) = p t) -> (forall x t, p (fj x t) = p t) ->
  map p (on_edge fi fj i j ts) = map p ts.
Proof.
  intros Hi Hj. unfold on_edge. rewrite mutate_map by apply Hj.
  now rewrite mutate_map by apply Hi.
Qed.

(** Positions and ids name the same thing when ids are unique. *)
Lemma id_at_inj ts m n :
  Forall keyed ts -> unique_ids ts -> m < length ts -> n < length ts ->
  id_at ts m = id_at ts n -> m = n.
Proof.
  intros Hk Hu Hm Hn E.
  apply (unique_ids_position ts m n (id_at ts m)); auto.
  - now apply id_present.
  - rewrite E. now apply id_present.
Qed.

Lemma symmetric_positions ts :
  Forall keyed ts -> (symmetric ts <-> symmetric_at ts).
Proof.
  intros Hk. split.
  - intros H m n Hm Hn.
    apply (H (task_at ts m) (task_at ts n)); auto using task_at_In, id_present.
  - intros H A B a b HA HB Ea Eb.
    destruct (In_task_at _ _ HA) as [m [Hm <-]].
    destruct (In_task_at _ _ HB) as [n [Hn <-]].
    specialize (H m n Hm Hn). unfold id_at in H. now rewrite Ea, Eb in H.
Qed.

Lemma backed_positions ts :
  Forall keyed ts -> (backed ts <-> backed_at ts).
Proof.
  intros Hk. split.
  - intros H m n Hm Hn.
    apply (H (task_at ts m) (task_at ts n)); auto using task_at_In, id_present.
  - intros H A B a b HA HB Ea Eb.
    destruct (In_task_at _ _ HA) as [m [Hm <-]].
    destruct (In_task_at _ _ HB) as [n [Hn <-]].
    specialize (H m n Hm Hn). unfold id_at in H. now rewrite Ea, Eb in H.
Qed.

Lemma symmetric_backed ts : symmetric ts -> backed ts.
Proof. intros H A B a b HA HB Ea Eb. now apply H. Qed.

Lemma id_at_keep ts ts' :
  map id ts' = map id ts -> forall k, id_at ts' k = id_at ts k.
Proof.
  intros H k. unfold id_at, task_at.
  assert (E : id (nth k ts' empty_task) = id (nth k ts empty_task)).
  { rewrite <- (map_nth id ts'), <- (map_nth id ts). now rewrite H. }
  now rewrite E.
Qed.

(** An edge from the object at [p] to the object at [q] is added. *)
Lemma symmetric_gain p q ts ts' :
  Forall keyed ts -> unique_ids ts -> p < length ts -> q < length ts ->
  length ts' = length ts -> map id ts' = map id ts ->
  (forall k, blocks_of (task_at ts' k)
             = if Nat.eqb k p
               then add_if_absent (id_at ts q) (blocks_of (task_at ts k))
               else blocks_of (task_at ts k)) ->
  (forall k, blocked_by_of (task_at ts' k)
             = if Nat.eqb k q
               then add_if_absent (id_at ts p) (blocked_by_of (task_at ts k))
               else blocked_by_of (task_at ts k)) ->
  symmetric_at ts -> symmetric_at ts'.
Proof.
  intros Hk Hu Hp Hq Hlen Hid Hb Hbb Hs m n Hm Hn.
  rewrite Hlen in Hm, Hn. rewrite !(id_at_keep _ _ Hid), Hb, Hbb.
  specialize (Hs m n Hm Hn).
  destruct (Nat.eqb_spec m p) as [->|Hmp], (Nat.eqb_spec n q) as [->|Hnq];
    rewrite ?In_add_if_absent.
  - tauto.
  - split; [intros [E|H]; [|tauto] | tauto].
    exfalso. apply Hnq. now apply (id_at_inj ts).
  - split; [tauto | intros [E|H]; [|tauto]].
    exfalso. apply Hmp. now apply (id_at_inj ts).
  - exact Hs.
Qed.

(** The edge from the object at [p] to the object at [q] is removed. *)
Lemma symmetric_lose p q ts ts' :
  Forall keyed ts -> unique_ids ts -> Forall no_dup_edges ts ->
  p < length ts -> q < length ts ->
  length ts' = length ts -> map id ts' = map id ts ->
  (forall k, blocks_of (task_at ts' k)
             = if Nat.eqb k p
               then remove_first (id_at ts q) (blocks_of (task_at ts k))
               else blocks_of (task_at ts k)) ->
  (forall k, blocked_by_of (task_at ts' k)
             = if Nat.eqb k q
               then remove_first (id_at ts p) (blocked_by_of (task_at ts k))
               else blocked_by_of (task_at ts k)) ->
  symmetric_at ts -> symmetric_at ts'.
Proof.
  intros Hk Hu Hnd Hp Hq Hlen Hid Hb Hbb Hs m n Hm Hn.
  rewrite Hlen in Hm, Hn. rewrite !(id_at_keep _ _ Hid), Hb, Hbb.
  specialize (Hs m n Hm Hn). rewrite Forall_forall in Hnd.
  destruct (Hnd _ (task_at_In _ _ Hm)) as [Hd1 _].
  destruct (Hnd _ (task_at_In _ _ Hn)) as [_ Hd2].
  destruct (Nat.eqb_spec m p) as [->|Hmp], (Nat.eqb_spec n q) as [->|Hnq];
    rewrite ?In_remove_first by assumption.
  - tauto.
  - split; [tauto|]. intros H. split; [|tauto].
    intros E. apply Hnq. now apply (id_at_inj ts).
  - split; [|tauto]. intros H. split; [|tauto].
    intros E. apply Hmp. now apply (id_at_inj ts).
  - exact Hs.
Qed.

(** ** What the transformers keep of a well-formed task *)

Lemma readable_keyed t : readable t -> keyed t.
Proof. intros [H1 [_ H3]]. now split. Qed.

Lemma readable_printable t : readable t -> printable t.
Proof. intros [H1 [H2 _]]. now split. Qed.

Lemma Forall_readable_keyed ts : Forall readable ts -> Forall keyed ts.
Proof. apply Forall_impl, readable_keyed. Qed.

Lemma Forall_readable_printable ts :
  Forall readable ts -> Forall printable ts.
Proof. apply Forall_impl, readable_printable. Qed.

Ltac readable_case t :=
  intros [H1 [H2 H3]]; open_task t; simpl in H1, H2, H3;
  repeat split; by_cases.

Lemma readable_gain_block s x t : readable t -> readable (gain_block s x t).
Proof. readable_case t. Qed.
Lemma readable_gain_blocker s x t :
  readable t -> readable (gain_blocker s x t).
Proof. readable_case t. Qed.
Lemma readable_lose_block s x t : readable t -> readable (lose_block s x t).
Proof. readable_case t. Qed.
Lemma readable_lose_blocker s x t :
  readable t -> readable (lose_blocker s x t).
Proof. readable_case t. Qed.

Lemma no_dup_gain_block s x t :
  no_dup_edges t -> no_dup_edges (gain_block s x t).
Proof.
  intros [H1 H2]. split.
  - rewrite gain_block_blocks. now apply NoDup_add_if_absent.
  - unfold blocked_by_of. now rewrite gain_block_blocked_by.
Qed.

Lemma no_dup_gain_blocker s x t :
  no_dup_edges t -> no_dup_edges (gain_blocker s x t).
Proof.
  intros [H1 H2]. split.
  - unfold blocks_of. now rewrite gain_blocker_blocks.
  - rewrite gain_blocker_blocked_by. now apply NoDup_add_if_absent.
Qed.

Lemma no_dup_lose_block s x t :
  no_dup_edges t -> no_dup_edges (lose_block s x t).
Proof.
  intros [H1 H2]. split.
  - rewrite lose_block_blocks. now apply NoDup_remove_first.
  - unfold blocked_by_of. now rewrite lose_block_blocked_by.
Qed.

Lemma no_dup_lose_blocker s x t :
  no_dup_edges t -> no_dup_edges (lose_blocker s x t).
Proof.
  intros [H1 H2]. split.
  - unfold blocks_of. now rewrite lose_blocker_blocks.
  - rewrite lose_blocker_blocked_by. now apply NoDup_remove_first.
Qed.

Lemma busy_gain_block s x t :
  busy_if_blocked t -> busy_if_blocked (gain_block s x t).
Proof.
  unfold busy_if_blocked, blocked_by_of.
  now rewrite gain_block_status, gain_block_blocked_by.
Qed.

Lemma busy_lose_block s x t :
  busy_if_blocked t -> busy_if_blocked (lose_block s x t).
Proof.
  unfold busy_if_blocked, blocked_by_of.
  now rewrite lose_block_status, lose_block_blocked_by.
Qed.

Lemma add_if_absent_not_nil x l : add_if_absent x l <> [].
Proof.
  unfold add_if_absent. destruct (mem x l) eqn:E.
  - apply mem_In in E. now destruct l.
  - now destruct l.
Qed.

Lemma gain_blocker_status s x t :
  status (gain_blocker s x t)
  = if mem x (blocked_by_of t) then status t
    else match status t with
         | Some st => if mem st ["done"; "blocked"] then Some st
                      else Some "blocked"
         | None => None
         end.
Proof. open_task t. by_cases. Qed.

Lemma busy_gain_blocker s x t :
  busy_if_blocked t -> busy_if_blocked (gain_blocker s x t).
Proof.
  unfold busy_if_blocked. rewrite gain_blocker_blocked_by.
  intros H Hs Hnil.
  destruct (mem x (blocked_by_of t)) eqn:E.
  - now apply (add_if_absent_not_nil x (blocked_by_of t)).
  - now apply (add_if_absent_not_nil x (blocked_by_of t)).
Qed.

Lemma release_status t :
  status (release t)
  = match blocked_by_of t, status t with
    | [], Some s => if String.eqb s "blocked" then Some "open" else Some s
    | _, st => st
    end.
Proof. open_task t. by_cases. Qed.

Lemma release_blocked_by t : blocked_by (release t) = blocked_by t.
Proof. open_task t. by_cases. Qed.

Lemma busy_release t : busy_if_blocked (release t).
Proof.
  unfold busy_if_blocked. rewrite release_status.
  unfold blocked_by_of at 2. rewrite release_blocked_by.
  fold (blocked_by_of t). destruct (blocked_by_of t); [|discriminate].
  destruct (status t) as [s|]; [|discriminate].
  destruct (String.eqb s "blocked") eqn:E; [discriminate|].
  intros [= ->]. discriminate.
Qed.

Lemma busy_lose_blocker s x t :
  busy_if_blocked t -> busy_if_blocked (lose_blocker s x t).
Proof.
  intros H. unfold lose_blocker. destruct (mem x (blocked_by_of t)).
  - apply busy_release.
  - exact H.
Qed.

Create HintDb tame.
#[export] Hint Resolve readable_gain_block readable_gain_blocker
  readable_lose_block readable_lose_blocker no_dup_gain_block
  no_dup_gain_blocker no_dup_lose_block no_dup_lose_blocker busy_gain_block
  busy_gain_blocker busy_lose_block busy_lose_blocker gain_block_id
  gain_blocker_id lose_block_id lose_blocker_id : tame.

Lemma gain_blocker_blocks_of s x t :
  blocks_of (gain_blocker s x t) = blocks_of t.
Proof. unfold blocks_of. now rewrite gain_blocker_blocks. Qed.
Lemma lose_blocker_blocks_of s x t :
  blocks_of (lose_blocker s x t) = blocks_of t.
Proof. unfold blocks_of. now rewrite lose_blocker_blocks. Qed.
Lemma gain_block_blocked_by_of s x t :
  blocked_by_of (gain_block s x t) = blocked_by_of t.
Proof. unfold blocked_by_of. now rewrite gain_block_blocked_by. Qed.
Lemma lose_block_blocked_by_of s x t :
  blocked_by_of (lose_block s x t) = blocked_by_of t.
Proof. unfold blocked_by_of. now rewrite lose_block_blocked_by. Qed.

Create Rewrite HintDb edges.
#[export] Hint Rewrite gain_block_blocks gain_blocker_blocked_by
  lose_block_blocks lose_blocker_blocked_by gain_blocker_blocks_of
  lose_blocker_blocks_of gain_block_blocked_by_of lose_block_blocked_by_of
  : edges.

Ltac edge_cases k i j :=
  rewrite on_edge_at by assumption;
  destruct (Nat.eqb k j), (Nat.eqb k i);
  autorewrite with edges; reflexivity.

Lemma on_edge_ids fi fj i j ts :
  (forall x t, id (fi x t) = id t) -> (forall x t, id (fj x t) = id t) ->
  map id (on_edge fi fj i j ts) = map id ts.
Proof. apply on_edge_map. Qed.

Section EdgeSymmetry.
Variables (s1 s2 : option string) (i j : nat) (ts : list task).
Hypothesis Hk : Forall keyed ts.
Hypothesis Hu : unique_ids ts.
Hypothesis Hi : i < length ts.
Hypothesis Hj : j < length ts.
Hypothesis Hs : symmetric_at ts.

Lemma symmetric_add_blocks :
  symmetric_at (on_edge (gain_block s1) (gain_blocker s2) i j ts).
Proof.
  apply (symmetric_gain i j ts); auto using on_edge_length.
  - apply on_edge_ids; auto with tame.
  - intros k. edge_cases k i j.
  - intros k. edge_cases k i j.
Qed.

Lemma symmetric_add_blocked_by :
  symmetric_at (on_edge (gain_blocker s1) (gain_block s2) i j ts).
Proof.
  apply (symmetric_gain j i ts); auto using on_edge_length.
  - apply on_edge_ids; auto with tame.
  - intros k. edge_cases k i j.
  - intros k. edge_cases k i j.
Qed.

Hypothesis Hnd : Forall no_dup_edges ts.

Lemma symmetric_remove_blocks :
  symmetric_at (on_edge (lose_block s1) (lose_blocker s2) i j ts).
Proof.
  apply (symmetric_lose i j ts); auto using on_edge_length.
  - apply on_edge_ids; auto with tame.
  - intros k. edge_cases k i j.
  - intros k. edge_cases k i j.
Qed.

Lemma symmetric_remove_blocked_by :
  symmetric_at (on_edge (lose_blocker s1) (lose_block s2) i j ts).
Proof.
  apply (symmetric_lose j i ts); auto using on_edge_length.
  - apply on_edge_ids; auto with tame.
  - intros k. edge_cases k i j.
  - intros k. edge_cases k i j.
Qed.
End EdgeSymmetry.

(** ** The edge loops keep an invariant *)

Section EdgeLoop.
Variable Inv : list task -> Prop.
Variable step : list task * bool -> string -> result (list task * bool).
Variables fi fj : string -> task -> task.
Variable i : nat.

Hypothesis Inv_keyed : forall ts, Inv ts -> Forall keyed ts.
Hypothesis step_shape : forall ts u p,
  Forall keyed ts -> i < length ts ->
  exists r, first_match ts p = Ok r /\
    (forall j, r = Some j -> j < length ts) /\
    step (ts, u) p
    = Ok (match r with
          | None => (ts, u)
          | Some j => (on_edge fi fj i j ts, true)
          end).
Hypothesis Inv_step : forall ts j,
  Inv ts -> i < length ts -> j < length ts -> Inv (on_edge fi fj i j ts).

Lemma for_each_keeps ps ts u :
  Inv ts -> i < length ts ->
  exists ts' u', for_each step ps (ts, u) = Ok (ts', u') /\
                 Inv ts' /\ length ts' = length ts.
Proof.
  revert ts u. induction ps as [|p ps IH]; intros ts u HI Hi; simpl.
  - eauto.
  - destruct (step_shape ts u p (Inv_keyed _ HI) Hi) as [r [_ [Hr E]]].
    rewrite E. cbn [bind]. destruct r as [j|].
    + specialize (Hr j eq_refl).
      destruct (IH (on_edge fi fj i j ts) true) as [ts' [u' [E' [HI' Hl]]]].
      * now apply Inv_step.
      * now rewrite on_edge_length.
      * exists ts', u'. rewrite on_edge_length in Hl. auto.
    + now apply IH.
Qed.

Lemma edge_loop_keeps arg ts u :
  Inv ts -> i < length ts ->
  exists ts' u', edge_loop step arg (ts, u) = Ok (ts', u') /\
                 Inv ts' /\ length ts' = length ts.
Proof.
  intros HI Hi. unfold edge_loop. destruct (given arg).
  - now apply for_each_keeps.
  - eauto.
Qed.
End EdgeLoop.

(** ** The parts of [cmd_update] before and after the edge loops *)

Lemma quiet_compose g h : quiet g -> quiet h -> quiet (fun t => h (g t)).
Proof.
  intros Hg Hh t. destruct (Hg t) as [g1 [g2 [g3 [g4 g5]]]].
  destruct (Hh (g t)) as [h1 [h2 [h3 [h4 h5]]]].
  repeat split; try congruence. auto.
Qed.

Lemma quiet_same : quiet (fun t => t).
Proof. intros t. repeat split; auto. Qed.

Lemma quiet_set_updated_at now : quiet (set_updated_at now).
Proof. intros t. repeat split; auto. Qed.
Lemma quiet_set_title v : quiet (set_title v).
Proof. intros t. repeat split; auto. simpl. discriminate. Qed.
Lemma quiet_set_description v : quiet (set_description v).
Proof. intros t. repeat split; auto. Qed.
Lemma quiet_set_sessions (f : task -> list session) :
  quiet (fun t => set_sessions (f t) t).
Proof. intros t. repeat split; auto. Qed.

Ltac quiet_from H :=
  let t := fresh "t" in
  intros t; destruct (H t) as [? [? [? [? ?]]]]; simpl;
  repeat split; auto; try discriminate.

Lemma find_task_ok tasks prefix :
  Forall printable tasks ->
  exists r, find_task tasks prefix = Ok r /\
            forall i, r = Found i -> i < length tasks.
Proof.
  intros Hp. unfold find_task. destruct (str_falsy prefix).
  - eexists. split; [reflexivity | discriminate].
  - destruct (matches_positions prefix tasks Hp) as [ms [E Hm]].
    rewrite E. cbn [bind].
    pose proof (matching_printable prefix tasks Hp) as Hmp.
    rewrite <- Hm in Hmp.
    destruct ms as [|i [|j r]].
    + eexists. split; [reflexivity | discriminate].
    + eexists. split; [reflexivity|]. intros k [= <-].
      destruct (Nat.lt_ge_cases i (length tasks)) as [Hlt|Hge]; [exact Hlt|].
      exfalso. cbn [map] in Hmp. unfold task_at in Hmp.
      rewrite nth_overflow in Hmp by exact Hge.
      inversion Hmp as [|? ? [Hbad _] _]. now apply Hbad.
    + destruct (report_lines tasks (i :: j :: r) Hmp) as [lines [El _]].
      rewrite El. cbn [bind]. eexists. split; [reflexivity | discriminate].
Qed.

(** The state handed to the edge loops. *)
Lemma before_edges now args i tasks :
  match delete_log_part args i
          (match arg_description args with
           | Some v =>
               (mutate i (set_description v)
                  (fst match given (arg_title args) with
                       | Some v0 =>
                           (mutate i (set_title v0)
                              (fst (mutate i (set_updated_at now) tasks,
                                    false)), true)
                       | None => (mutate i (set_updated_at now) tasks, false)
                       end), true)
           | None =>
               match given (arg_title args) with
               | Some v0 =>
                   (mutate i (set_title v0)
                      (fst (mutate i (set_updated_at now) tasks, false)),
                    true)
               | None => (mutate i (set_updated_at now) tasks, false)
               end
           end) with
  | None => True
  | Some st =>
      exists g u, quiet g /\ log_part now args i st = (mutate i g tasks, u)
  end.
Proof.
  assert (H0 : exists g u, quiet g /\
            match given (arg_title args) with
            | Some v0 =>
                (mutate i (set_title v0)
                   (fst (mutate i (set_updated_at now) tasks, false)), true)
            | None => (mutate i (set_updated_at now) tasks, false)
            end = (mutate i g tasks, u)).
  { destruct (given (arg_title args)) as [v|]; cbn [fst].
    - rewrite mutate_mutate. eexists _, _. split; cycle 1; [reflexivity|].
      quiet_from quiet_same.
    - eexists _, _. split; [apply quiet_set_updated_at | reflexivity]. }
  destruct H0 as [g0 [u0 [Hg0 E0]]]. rewrite E0. clear E0.
  assert (H1 : exists g u, quiet g /\
            match arg_description args with
            | Some v => (mutate i (set_description v)
                           (fst (mutate i g0 tasks, u0)), true)
            | None => (mutate i g0 tasks, u0)
            end = (mutate i g tasks, u)).
  { destruct (arg_description args) as [v|]; cbn [fst].
    - rewrite mutate_mutate. eexists _, _. split; cycle 1; [reflexivity|].
      quiet_from Hg0.
    - eauto. }
  destruct H1 as [g1 [u1 [Hg1 E1]]]. rewrite E1. clear E1.
  unfold delete_log_part.
  destruct (arg_delete_log args) as [z|].
  - destruct (sessions (task_at (mutate i g1 tasks) i)) as [l|]; [|exact I].
    destruct ((z <? 0)%Z || (Z.of_nat (length l) <=? z)%Z); [exact I|].
    unfold log_part. rewrite mutate_mutate.
    destruct (given (arg_log args)).
    + rewrite mutate_mutate. eexists _, _. split; cycle 1; [reflexivity|].
      quiet_from Hg1.
    + eexists _, _. split; cycle 1; [reflexivity|]. quiet_from Hg1.
  - unfold log_part. destruct (given (arg_log args)).
    + rewrite mutate_mutate. eexists _, _. split; cycle 1; [reflexivity|].
      quiet_from Hg1.
    + eauto.
Qed.

Lemma ids_of_ok ts :
  Forall keyed ts -> id_dict ts = Ok (ids_of ts) /\
                     map id ts = map Some (ids_of ts).
Proof.
  unfold id_dict, ids_of. induction 1 as [|t r Ht _ [IH1 IH2]]; simpl.
  - split; reflexivity.
  - destruct (keyed_id _ Ht) as [x Hx]. rewrite Hx. cbn [getitem bind].
    rewrite IH1. cbn [bind]. split; [reflexivity | now rewrite IH2].
Qed.

Lemma ids_of_keep ts ts' : map id ts' = map id ts -> ids_of ts' = ids_of ts.
Proof.
  unfold ids_of. intros H.
  rewrite <- (map_map id (fun o => match o with Some x => x | None => "" end)).
  rewrite H. now rewrite map_map.
Qed.

Lemma dict_get_bound ts key j :
  dict_get (ids_of ts) key = Some j -> j < length ts.
Proof.
  intros H. apply dict_get_some in H.
  assert (Hlt : j < length (ids_of ts))
    by (apply nth_error_Some; congruence).
  unfold ids_of in Hlt. now rewrite length_map in Hlt.
Qed.

Lemma unblock_step_shape now i ts0 ts b :
  Forall keyed ts -> i < length ts -> map id ts = map id ts0 ->
  unblock_step now i (ids_of ts0) ts b
  = Ok (match dict_get (ids_of ts0) b with
        | Some j => mutate j (lose_blocker (Some now) (id_at ts0 i)) ts
        | None => ts
        end).
Proof.
  intros Hk Hi Hid. unfold unblock_step.
  destruct (dict_get (ids_of ts0) b) as [j|] eqn:E; [|reflexivity].
  assert (Hj : j < length ts).
  { apply dict_get_bound in E.
    rewrite <- (length_map id ts), Hid, length_map. exact E. }
  rewrite (id_present _ _ Hk Hi). cbn [bind getitem].
  rewrite (id_at_keep _ _ Hid).
  change (set_updated_at now) with (stamped (Some now)).
  now apply lose_blocker_fused.
Qed.

Lemma cascade_shape now i ts0 bs ts :
  Forall keyed ts -> i < length ts -> map id ts = map id ts0 ->
  for_each (unblock_step now i (ids_of ts0)) bs ts
  = Ok (relieve_all now (id_at ts0 i) (ids_of ts0) bs ts).
Proof.
  revert ts. induction bs as [|b bs IH]; intros ts Hk Hi Hid; simpl.
  - reflexivity.
  - rewrite (unblock_step_shape _ _ _ _ _ Hk Hi Hid). cbn [bind].
    destruct (dict_get (ids_of ts0) b) as [j|]; [|now apply IH].
    apply IH.
    + apply mutate_Forall; auto with keyed.
    + now rewrite mutate_length.
    + rewrite mutate_map; [exact Hid | apply lose_blocker_id].
Qed.

Lemma status_part_shape now args i ts u :
  Forall keyed ts -> i < length ts ->
  status_part now args i (ts, u)
  = Ok (match given (arg_status args) with
        | None => Some (ts, u)
        | Some s =>
            if valid_status s
            then Some (if String.eqb s "done" then completed now i ts
                       else mutate i (set_status s) ts, true)
            else None
        end).
Proof.
  intros Hk Hi. unfold status_part.
  destruct (given (arg_status args)) as [s|]; [|reflexivity].
  fold (valid_status s). destruct (valid_status s); [|reflexivity].
  cbn [negb]. destruct (String.eqb s "done") eqn:Es; [|reflexivity].
  apply String.eqb_eq in Es. subst s. unfold completed.
  set (ts1 := mutate i (set_status "done") ts).
  assert (Hk1 : Forall keyed ts1).
  { apply mutate_Forall; [|exact Hk]. intros t [H1 H2]. split; [exact H1|].
    discriminate. }
  assert (Hid : map id ts1 = map id ts) by (now apply mutate_map).
  assert (Hi1 : i < length ts1) by (unfold ts1; now rewrite mutate_length).
  destruct (blocks_of (task_at ts1 i)) as [|b bs] eqn:Eb; [reflexivity|].
  destruct (ids_of_ok ts1 Hk1) as [E _]. rewrite E. cbn [bind].
  rewrite (ids_of_keep _ _ Hid).
  rewrite (cascade_shape now i ts (b :: bs) ts1 Hk1 Hi1 Hid). reflexivity.
Qed.

(** ** [cmd_update] keeps an invariant *)

Section UpdateKeeps.
Variables Inv Final : list task -> Prop.
Variables (now : string) (args : update_args).

Hypothesis Inv_readable : forall ts, Inv ts -> Forall readable ts.
Hypothesis Inv_quiet : forall g i ts,
  quiet g -> Inv ts -> Inv (mutate i g ts).
Hypothesis Inv_add_blocks : forall i j ts,
  Inv ts -> i < length ts -> j < length ts ->
  Inv (on_edge (gain_block None) (gain_blocker (Some now)) i j ts).
Hypothesis Inv_add_blocked_by : forall i j ts,
  Inv ts -> i < length ts -> j < length ts ->
  Inv (on_edge (gain_blocker None) (gain_block (Some now)) i j ts).
Hypothesis Inv_remove_blocks : forall i j ts,
  Inv ts -> i < length ts -> j < length ts ->
  Inv (on_edge (lose_block None) (lose_blocker (Some now)) i j ts).
Hypothesis Inv_remove_blocked_by : forall i j ts,
  Inv ts -> i < length ts -> j < length ts ->
  Inv (on_edge (lose_blocker None) (lose_block (Some now)) i j ts).
Hypothesis Final_status : forall i ts,
  Inv ts -> i < length ts ->
  match given (arg_status args) with
  | None => Final ts
  | Some s =>
      valid_status s = true ->
      Final (if String.eqb s "done" then completed now i ts
             else mutate i (set_status s) ts)
  end.

Lemma Inv_keyed ts : Inv ts -> Forall keyed ts.
Proof. intros H. apply Forall_readable_keyed, Inv_readable, H. Qed.

Lemma cmd_update_keeps tasks :
  Inv tasks ->
  exists r, cmd_update now args tasks = Ok r /\
            match r with Saved ts' => Final ts' | NotSaved => True end.
Proof.
  intros HI. unfold cmd_update.
  destruct (find_task_ok tasks (arg_id args)) as [r [E Hr]].
  { apply Forall_readable_printable, Inv_readable, HI. }
  rewrite E. cbn [bind].
  destruct r as [i| | |]; try (eexists; split; [reflexivity | exact I]).
  specialize (Hr i eq_refl). cbv zeta.
  pose proof (before_edges now args i tasks) as Hb.
  match type of Hb with
  | match ?X with _ => _ end => destruct X as [st|]
  end; [|eexists; split; [reflexivity | exact I]].
  destruct Hb as [g [u [Hg Est]]]. rewrite Est. clear Est.
  assert (H0 : Inv (mutate i g tasks)) by (now apply Inv_quiet).
  assert (L0 : i < length (mutate i g tasks))
    by (now rewrite mutate_length).
  destruct (edge_loop_keeps Inv (add_blocks_step now i) _ _ i Inv_keyed
              (add_blocks_step_shape now i) (fun ts j => Inv_add_blocks i j ts)
              (arg_add_blocks args) _ u H0 L0) as [ts1 [u1 [E1 [H1 L1]]]].
  rewrite E1. cbn [bind]. rewrite <- L1 in L0.
  destruct (edge_loop_keeps Inv (add_blocked_by_step now i) _ _ i Inv_keyed
              (add_blocked_by_step_shape now i) (fun ts j => Inv_add_blocked_by i j ts)
              (arg_add_blocked_by args) _ u1 H1 L0)
    as [ts2 [u2 [E2 [H2 L2]]]].
  rewrite E2. cbn [bind]. rewrite <- L2 in L0.
  destruct (edge_loop_keeps Inv (remove_blocks_step now i) _ _ i Inv_keyed
              (remove_blocks_step_shape now i) (fun ts j => Inv_remove_blocks i j ts)
              (arg_remove_blocks args) _ u2 H2 L0)
    as [ts3 [u3 [E3 [H3 L3]]]].
  rewrite E3. cbn [bind]. rewrite <- L3 in L0.
  destruct (edge_loop_keeps Inv (remove_blocked_by_step now i) _ _ i
              Inv_keyed (remove_blocked_by_step_shape now i)
              (fun ts j => Inv_remove_blocked_by i j ts)
              (arg_remove_blocked_by args) _ u3 H3 L0)
    as [ts4 [u4 [E4 [H4 L4]]]].
  rewrite E4. cbn [bind]. rewrite <- L4 in L0.
  rewrite (status_part_shape now args i ts4 u4 (Inv_keyed _ H4) L0).
  cbn [bind]. pose proof (Final_status i ts4 H4 L0) as HF.
  destruct (given (arg_status args)) as [s|].
  - destruct (valid_status s); [|eexists; split; [reflexivity | exact I]].
    eexists. split; [reflexivity|]. cbn iota. now apply HF.
  - destruct u4; eexists; (split; [reflexivity|]); [exact HF | exact I].
Qed.
End UpdateKeeps.

(** ** The checkers are sound *)

Lemma nodupb_sound l : nodupb l = true -> NoDup l.
Proof.
  induction l as [|x r IH]; simpl; [constructor|].
  intros H. apply andb_true_iff in H. destruct H as [H1 H2].
  constructor; [|auto]. apply negb_true_iff in H1. now apply mem_not_In.
Qed.

Lemma present_sound {A} (o : option A) : present o = true -> o <> None.
Proof. destruct o; [discriminate | discriminate]. Qed.

Lemma readableb_sound t : readableb t = true -> readable t.
Proof.
  unfold readableb. rewrite !andb_true_iff. intros [[H1 H2] H3].
  repeat split; now apply present_sound.
Qed.

Lemma NoDup_map_Some {A} (l : list A) : NoDup l -> NoDup (map Some l).
Proof.
  induction 1 as [|x r Hx _ IH]; simpl; constructor; auto.
  intros H. apply in_map_iff in H. destruct H as [y [[= ->] Hy]]. auto.
Qed.

Lemma well_formedb_sound ts : well_formedb ts = true -> well_formed ts.
Proof.
  unfold well_formedb. rewrite !andb_true_iff, !forallb_forall.
  intros [[H1 H2] H3].
  assert (Hr : Forall readable ts).
  { apply Forall_forall. intros t Ht. now apply readableb_sound, H1. }
  split; [exact Hr|]. split.
  - unfold unique_ids.
    rewrite (proj2 (ids_of_ok ts (Forall_readable_keyed _ Hr))).
    apply NoDup_map_Some. now apply nodupb_sound.
  - apply Forall_forall. intros t Ht. specialize (H3 t Ht).
    apply andb_true_iff in H3. destruct H3.
    split; now apply nodupb_sound.
Qed.

Lemma symmetricb_sound ts : symmetricb ts = true -> symmetric ts.
Proof.
  unfold symmetricb. rewrite forallb_forall.
  intros H A B a b HA HB Ea Eb. specialize (H A HA).
  rewrite forallb_forall in H. specialize (H B HB). rewrite Ea, Eb in H.
  apply Bool.eqb_prop in H. rewrite <- !mem_In. now rewrite H.
Qed.

Lemma no_idle_blockedb_sound ts :
  no_idle_blockedb ts = true -> no_idle_blocked ts.
Proof.
  unfold no_idle_blockedb, no_idle_blocked. rewrite forallb_forall.
  intros H. apply Forall_forall. intros t Ht Hs Hnil. specialize (H t Ht).
  rewrite Hs, Hnil in H. discriminate.
Qed.

(** ** Symmetry and its half under the remaining changes *)

Lemma task_at_mutate_cases i f ts k :
  task_at (mutate i f ts) k = task_at ts k \/
  task_at (mutate i f ts) k = f (task_at ts k).
Proof.
  unfold task_at. revert i k.
  induction ts as [|t r IH]; intros [|i] [|k]; simpl; auto.
Qed.

Lemma symmetric_same_edges ts ts' :
  length ts' = length ts -> map id ts' = map id ts ->
  (forall k, blocks_of (task_at ts' k) = blocks_of (task_at ts k)) ->
  (forall k, blocked_by_of (task_at ts' k) = blocked_by_of (task_at ts k)) ->
  symmetric_at ts -> symmetric_at ts'.
Proof.
  intros Hl Hid Hb Hbb Hs m n Hm Hn. rewrite Hl in Hm, Hn.
  rewrite !(id_at_keep _ _ Hid), Hb, Hbb. now apply Hs.
Qed.

Lemma backed_lose_blocker s x j ts :
  backed_at ts -> backed_at (mutate j (lose_blocker s x) ts).
Proof.
  intros H m n Hm Hn Hin. rewrite mutate_length in Hm, Hn.
  assert (Hid : map id (mutate j (lose_blocker s x) ts) = map id ts)
    by (apply mutate_map; intros; apply lose_blocker_id).
  rewrite !(id_at_keep _ _ Hid) in *.
  rewrite (task_at_mutate_keep blocks_of)
    by (intros; apply lose_blocker_blocks_of).
  apply H; auto.
  destruct (task_at_mutate_cases j (lose_blocker s x) ts n) as [E|E];
    rewrite E in Hin; [exact Hin|].
  rewrite lose_blocker_blocked_by in Hin.
  now apply In_remove_first_sub in Hin.
Qed.

Lemma quiet_readable g t : quiet g -> readable t -> readable (g t).
Proof.
  intros Hg [H1 [H2 H3]]. destruct (Hg t) as [E1 [E2 [_ [_ E5]]]].
  repeat split; [now rewrite E1 | auto | now rewrite E2].
Qed.

Lemma quiet_no_dup g t : quiet g -> no_dup_edges t -> no_dup_edges (g t).
Proof.
  intros Hg [H1 H2]. destruct (Hg t) as [_ [_ [E3 [E4 _]]]].
  unfold no_dup_edges, blocks_of, blocked_by_of. rewrite E3, E4. now split.
Qed.

Lemma quiet_busy g t : quiet g -> busy_if_blocked t -> busy_if_blocked (g t).
Proof.
  intros Hg H. destruct (Hg t) as [_ [E2 [_ [E4 _]]]].
  unfold busy_if_blocked, blocked_by_of. rewrite E2, E4. exact H.
Qed.

Lemma well_formed_neutral g i ts :
  (forall t, id (g t) = id t) ->
  (forall t, readable t -> readable (g t)) ->
  (forall t, no_dup_edges t -> no_dup_edges (g t)) ->
  well_formed ts -> well_formed (mutate i g ts).
Proof.
  intros Hid Hr Hn [H1 [H2 H3]]. split; [|split].
  - now apply mutate_Forall.
  - unfold unique_ids. now rewrite mutate_map.
  - now apply mutate_Forall.
Qed.

Lemma symmetric_neutral g i ts :
  (forall t, id (g t) = id t) ->
  (forall t, blocks (g t) = blocks t) ->
  (forall t, blocked_by (g t) = blocked_by t) ->
  symmetric_at ts -> symmetric_at (mutate i g ts).
Proof.
  intros Hid Hb Hbb. apply symmetric_same_edges.
  - apply mutate_length.
  - now apply mutate_map.
  - intros k. apply (task_at_mutate_keep blocks_of).
    intros t. unfold blocks_of. now rewrite Hb.
  - intros k. apply (task_at_mutate_keep blocked_by_of).
    intros t. unfold blocked_by_of. now rewrite Hbb.
Qed.

(** ** The cascade and the deletion keep the invariants *)

Lemma relieve_all_Forall (P : task -> Prop) now tid ids bs ts :
  (forall t, P t -> P (lose_blocker (Some now) tid t)) ->
  Forall P ts -> Forall P (relieve_all now tid ids bs ts).
Proof.
  intros HP. unfold relieve_all. revert ts.
  induction bs as [|b bs IH]; intros ts H; simpl; [exact H|].
  apply IH. destruct (dict_get ids b); [|exact H]. now apply mutate_Forall.
Qed.

Lemma relieve_all_map {A} (p : task -> A) now tid ids bs ts :
  (forall t, p (lose_blocker (Some now) tid t) = p t) ->
  map p (relieve_all now tid ids bs ts) = map p ts.
Proof.
  intros HP. unfold relieve_all. revert ts.
  induction bs as [|b bs IH]; intros ts; simpl; [reflexivity|].
  rewrite IH. destruct (dict_get ids b); [|reflexivity]. now apply mutate_map.
Qed.

Lemma relieve_all_length now tid ids bs ts :
  length (relieve_all now tid ids bs ts) = length ts.
Proof.
  rewrite <- (length_map id), relieve_all_map, length_map; [reflexivity|].
  intros. apply lose_blocker_id.
Qed.

Lemma relieve_all_backed now tid ids bs ts :
  backed_at ts -> backed_at (relieve_all now tid ids bs ts).
Proof.
  unfold relieve_all. revert ts.
  induction bs as [|b bs IH]; intros ts H; simpl; [exact H|].
  apply IH. destruct (dict_get ids b); [|exact H].
  now apply backed_lose_blocker.
Qed.

Lemma well_formed_set_status s i ts :
  well_formed ts -> well_formed (mutate i (set_status s) ts).
Proof.
  apply well_formed_neutral; auto.
  intros t [H1 [H2 H3]]. repeat split; auto. simpl. discriminate.
Qed.

Lemma well_formed_keyed ts : well_formed ts -> Forall keyed ts.
Proof. intros [H _]. now apply Forall_readable_keyed. Qed.

Lemma well_formed_completed now i ts :
  well_formed ts -> well_formed (completed now i ts).
Proof.
  intros H. apply (well_formed_set_status "done" i) in H.
  destruct H as [H1 [H2 H3]]. unfold completed. split; [|split].
  - apply relieve_all_Forall; auto with tame.
  - unfold unique_ids. rewrite relieve_all_map; [exact H2|].
    intros. apply lose_blocker_id.
  - apply relieve_all_Forall; auto with tame.
Qed.

Lemma backed_completed now i ts :
  well_formed ts -> symmetric ts -> backed (completed now i ts).
Proof.
  intros Hw Hs.
  apply backed_positions;
    [apply well_formed_keyed, well_formed_completed, Hw|].
  unfold completed. apply relieve_all_backed.
  assert (Hsa : symmetric_at (mutate i (set_status "done") ts)).
  { apply symmetric_neutral; auto.
    now apply symmetric_positions; [apply well_formed_keyed|]. }
  apply backed_positions.
  - now apply well_formed_keyed, well_formed_set_status.
  - apply symmetric_backed, symmetric_positions; [|exact Hsa].
    now apply well_formed_keyed, well_formed_set_status.
Qed.

Lemma symmetric_set_status s i ts :
  well_formed ts -> symmetric ts -> symmetric (mutate i (set_status s) ts).
Proof.
  intros Hw Hs. apply symmetric_positions.
  - now apply well_formed_keyed, well_formed_set_status.
  - apply symmetric_neutral; auto.
    now apply symmetric_positions; [apply well_formed_keyed|].
Qed.

Lemma well_formed_quiet g i ts :
  quiet g -> well_formed ts -> well_formed (mutate i g ts).
Proof.
  intros Hg. apply well_formed_neutral.
  - intros t. apply Hg.
  - intros t. now apply quiet_readable.
  - intros t. now apply quiet_no_dup.
Qed.

Lemma symmetric_quiet g i ts :
  quiet g -> well_formed ts -> symmetric ts -> symmetric (mutate i g ts).
Proof.
  intros Hg Hw Hs. apply symmetric_positions.
  - now apply well_formed_keyed, well_formed_quiet.
  - apply symmetric_neutral; try (intros t; apply Hg).
    now apply symmetric_positions; [apply well_formed_keyed|].
Qed.

Lemma well_formed_on_edge fi fj i j ts :
  (forall x t, id (fi x t) = id t) -> (forall x t, id (fj x t) = id t) ->
  (forall x t, readable t -> readable (fi x t)) ->
  (forall x t, readable t -> readable (fj x t)) ->
  (forall x t, no_dup_edges t -> no_dup_edges (fi x t)) ->
  (forall x t, no_dup_edges t -> no_dup_edges (fj x t)) ->
  well_formed ts -> well_formed (on_edge fi fj i j ts).
Proof.
  intros Hi Hj Ri Rj Ni Nj [H1 [H2 H3]]. split; [|split].
  - now apply on_edge_Forall.
  - unfold unique_ids. now rewrite on_edge_ids.
  - now apply on_edge_Forall.
Qed.

Ltac edge_inv lemma :=
  let Hw := fresh "Hw" in
  let Hs := fresh "Hs" in
  let Hw' := fresh "Hw'" in
  intros [Hw Hs] ? ?; cbv zeta;
  match goal with
  | |- well_formed ?X /\ _ =>
      assert (Hw' : well_formed X)
        by (apply well_formed_on_edge; auto with tame)
  end;
  split; [exact Hw'|];
  apply symmetric_positions; [now apply well_formed_keyed|];
  apply lemma; auto;
  try (now apply well_formed_keyed); try apply Hw;
  now apply symmetric_positions; [apply well_formed_keyed|].

Lemma graph_add_blocks s1 s2 i j ts :
  well_formed ts /\ symmetric ts -> i < length ts -> j < length ts ->
  let ts' := on_edge (gain_block s1) (gain_blocker s2) i j ts in
  well_formed ts' /\ symmetric ts'.
Proof. edge_inv symmetric_add_blocks. Qed.

Lemma graph_add_blocked_by s1 s2 i j ts :
  well_formed ts /\ symmetric ts -> i < length ts -> j < length ts ->
  let ts' := on_edge (gain_blocker s1) (gain_block s2) i j ts in
  well_formed ts' /\ symmetric ts'.
Proof. edge_inv symmetric_add_blocked_by. Qed.

Lemma graph_remove_blocks s1 s2 i j ts :
  well_formed ts /\ symmetric ts -> i < length ts -> j < length ts ->
  let ts' := on_edge (lose_block s1) (lose_blocker s2) i j ts in
  well_formed ts' /\ symmetric ts'.
Proof. edge_inv symmetric_remove_blocks. Qed.

Lemma graph_remove_blocked_by s1 s2 i j ts :
  well_formed ts /\ symmetric ts -> i < length ts -> j < length ts ->
  let ts' := on_edge (lose_blocker s1) (lose_block s2) i j ts in
  well_formed ts' /\ symmetric ts'.
Proof. edge_inv symmetric_remove_blocked_by. Qed.

(** ** The delete command as a map and a filter *)

Lemma delete_clean_shape now d t :
  keyed t ->
  delete_clean now d t
  = Ok (if has_id d t then t
        else lose_blocker (Some now) d (lose_block (Some now) d t)).
Proof.
  intros Hk. destruct (keyed_id _ Hk) as [x Hx].
  destruct (keyed_status _ Hk) as [s Hs].
  unfold delete_clean, has_id. rewrite Hx. cbn [getitem bind].
  destruct (String.eqb x d); [reflexivity|]. cbv zeta.
  change (if mem d (blocks_of t)
          then set_updated_at now (remove_blocks d t) else t)
    with (lose_block (Some now) d t).
  assert (E : status (lose_block (Some now) d t) = Some s)
    by (now rewrite lose_block_status).
  generalize dependent (lose_block (Some now) d t). intros u Hu.
  unfold lose_blocker, release. cbn [stamped].
  destruct (mem d (blocked_by_of u)); [|reflexivity].
  change (status (set_updated_at now (remove_blocked_by d u)))
    with (status u).
  destruct (blocked_by_of (set_updated_at now (remove_blocked_by d u)));
    [|reflexivity].
  rewrite Hu. reflexivity.
Qed.

Lemma delete_loop_shape now d ts :
  Forall keyed ts ->
  map_result (delete_clean now d) ts
  = Ok (map (fun t => if has_id d t then t
                      else lose_blocker (Some now) d
                             (lose_block (Some now) d t)) ts).
Proof.
  induction 1 as [|t r Ht _ IH]; simpl; [reflexivity|].
  rewrite (delete_clean_shape _ _ _ Ht), IH. reflexivity.
Qed.

Lemma drop_id_shape now d ts :
  Forall keyed ts ->
  drop_id d (map (fun t => if has_id d t then t
                           else lose_blocker (Some now) d
                                  (lose_block (Some now) d t)) ts)
  = Ok (deleted now d ts).
Proof.
  unfold deleted. induction 1 as [|t r Ht _ IH]; [reflexivity|].
  destruct (keyed_id _ Ht) as [x Hx].
  assert (Hh : has_id d t = String.eqb x d)
    by (unfold has_id; now rewrite Hx).
  cbn [map filter drop_id]. rewrite Hh.
  destruct (String.eqb x d) eqn:E; cbn [negb map].
  - rewrite Hx. cbn [getitem bind]. rewrite IH. cbn [bind]. now rewrite E.
  - rewrite lose_blocker_id, lose_block_id, Hx. cbn [getitem bind].
    rewrite IH. cbn [bind]. now rewrite E.
Qed.

Lemma cmd_delete_shape now prefix tasks :
  Forall readable tasks ->
  exists r, find_task tasks prefix = Ok r /\
    (forall i, r = Found i -> i < length tasks) /\
    cmd_delete now prefix tasks
    = Ok (match r with
          | Found i => Saved (deleted now (id_at tasks i) tasks)
          | _ => NotSaved
          end).
Proof.
  intros Hr.
  destruct (find_task_ok tasks prefix (Forall_readable_printable _ Hr))
    as [r [E Hi]].
  exists r. split; [exact E|]. split; [exact Hi|].
  unfold cmd_delete. rewrite E. cbn [bind].
  destruct r as [i| | |]; try reflexivity. specialize (Hi i eq_refl).
  pose proof (Forall_readable_keyed _ Hr) as Hk.
  rewrite (id_present _ _ Hk Hi). cbn [getitem bind].
  rewrite Forall_forall in Hr.
  destruct (Hr _ (task_at_In _ _ Hi)) as [_ [Ht _]].
  destruct (title (task_at tasks i)); [|congruence]. cbn [getitem bind].
  rewrite (delete_loop_shape _ _ _ Hk). cbn [bind].
  rewrite (drop_id_shape _ _ _ Hk). reflexivity.
Qed.

Lemma In_deleted now d ts t' :
  In t' (deleted now d ts) <->
  exists t, In t ts /\ has_id d t = false /\
            t' = lose_blocker (Some now) d (lose_block (Some now) d t).
Proof.
  unfold deleted. rewrite in_map_iff. split.
  - intros [t [E H]]. apply filter_In in H. destruct H as [H1 H2].
    apply negb_true_iff in H2. eauto.
  - intros [t [H1 [H2 E]]]. exists t. split; [auto|].
    apply filter_In. split; [exact H1|]. now rewrite H2.
Qed.

Lemma NoDup_map_filter {A B} (f : A -> B) (p : A -> bool) l :
  NoDup (map f l) -> NoDup (map f (filter p l)).
Proof.
  induction l as [|x r IH]; simpl; [auto|].
  intros H. inversion H as [|? ? Hx Hr]; subst.
  destruct (p x); simpl; [|auto]. constructor; [|auto].
  intros Hin. apply Hx. apply in_map_iff in Hin.
  destruct Hin as [y [E Hy]]. apply filter_In in Hy.
  rewrite <- E. apply in_map. tauto.
Qed.

Lemma well_formed_deleted now d ts :
  well_formed ts -> well_formed (deleted now d ts).
Proof.
  intros [H1 [H2 H3]]. rewrite Forall_forall in H1, H3. split; [|split].
  - apply Forall_forall. intros t' Ht'. apply In_deleted in Ht'.
    destruct Ht' as [t [Ht [_ ->]]]. auto with tame.
  - unfold unique_ids, deleted. rewrite map_map.
    rewrite (map_ext _ id); [now apply NoDup_map_filter|].
    intros t. now rewrite lose_blocker_id, lose_block_id.
  - apply Forall_forall. intros t' Ht'. apply In_deleted in Ht'.
    destruct Ht' as [t [Ht [_ ->]]]. auto with tame.
Qed.

Lemma symmetric_deleted now d ts :
  symmetric ts -> symmetric (deleted now d ts).
Proof.
  intros Hs A' B' a b HA HB Ea Eb.
  apply In_deleted in HA, HB.
  destruct HA as [A [HA [Da ->]]]. destruct HB as [B [HB [Db ->]]].
  rewrite lose_blocker_id, lose_block_id in Ea, Eb.
  rewrite lose_blocker_blocks_of, lose_block_blocks.
  rewrite lose_blocker_blocked_by, lose_block_blocked_by_of.
  unfold has_id in Da, Db. rewrite Ea in Da. rewrite Eb in Db.
  apply String.eqb_neq in Da, Db.
  rewrite !In_remove_first_other by assumption.
  now apply Hs.
Qed.

Lemma no_idle_blocked_deleted now d ts :
  no_idle_blocked ts -> no_idle_blocked (deleted now d ts).
Proof.
  unfold no_idle_blocked. rewrite !Forall_forall. intros H t' Ht'.
  apply In_deleted in Ht'. destruct Ht' as [t [Ht [_ ->]]].
  auto with tame.
Qed.

(** C2, as amended.  On a collection of the data model (keys present,
    ids unique, edge lists without repetition) that satisfies edge
    symmetry, every [update] that saves, whatever its options, and every
    [delete] saves a collection of the data model; the saved collection
    satisfies edge symmetry again unless the update set the status to
    done; after an update that set the status to done every [blocked_by]
    entry still has its [blocks] counterpart. *)
Theorem edge_symmetry_kept (now : string) (tasks : list task) :
  well_formed tasks -> symmetric tasks ->
  (forall args, exists r,
      cmd_update now args tasks = Ok r /\
      match r with
      | Saved ts' =>
          well_formed ts' /\ backed ts' /\
          (given (arg_status args) <> Some "done" -> symmetric ts')
      | NotSaved => True
      end) /\
  (forall prefix, exists r,
      cmd_delete now prefix tasks = Ok r /\
      match r with
      | Saved ts' => well_formed ts' /\ symmetric ts'
      | NotSaved => True
      end).
Proof.
  intros Hw Hs. split.
  - intros args.
    apply (cmd_update_keeps (fun ts => well_formed ts /\ symmetric ts)).
    + intros ts [[H _] _]. exact H.
    + intros g i ts Hg [H1 H2]. split;
        [now apply well_formed_quiet | now apply symmetric_quiet].
    + intros i j ts. apply graph_add_blocks.
    + intros i j ts. apply graph_add_blocked_by.
    + intros i j ts. apply graph_remove_blocks.
    + intros i j ts. apply graph_remove_blocked_by.
    + intros i ts [H1 H2] Hi.
      destruct (given (arg_status args)) as [s|].
      * intros _. destruct (String.eqb s "done") eqn:E.
        -- apply String.eqb_eq in E. subst s.
           split; [now apply well_formed_completed|].
           split; [now apply backed_completed | congruence].
        -- split; [now apply well_formed_set_status|].
           split; [|intros _; now apply symmetric_set_status].
           now apply symmetric_backed, symmetric_set_status.
      * split; [exact H1|]. split; [now apply symmetric_backed | auto].
    + now split.
  - intros prefix. destruct Hw as [Hr [Hu Hn]].
    destruct (cmd_delete_shape now prefix tasks Hr) as [r [_ [_ E]]].
    rewrite E. destruct r; eexists; (split; [reflexivity|]); try exact I.
    split; [apply well_formed_deleted; now repeat split
           | now apply symmetric_deleted].
Qed.

(** C4, as amended.  On a collection whose tasks have their keys and in
    which no blocked task has an empty [blocked_by], every [update] that
    does not itself ask for the status blocked, and every [delete], saves
    a collection in which no blocked task has an empty [blocked_by]. *)
Theorem blocked_keeps_a_blocker (now : string) (tasks : list task) :
  Forall readable tasks -> no_idle_blocked tasks ->
  (forall args, given (arg_status args) <> Some "blocked" ->
      exists r,
        cmd_update now args tasks = Ok r /\
        match r with
        | Saved ts' => no_idle_blocked ts'
        | NotSaved => True
        end) /\
  (forall prefix, exists r,
      cmd_delete now prefix tasks = Ok r /\
      match r with
      | Saved ts' => no_idle_blocked ts'
      | NotSaved => True
      end).
Proof.
  intros Hr Hb. split.
  - intros args Hns.
    apply (cmd_update_keeps
             (fun ts => Forall readable ts /\ no_idle_blocked ts)).
    + intros ts [H _]. exact H.
    + intros g i ts Hg [H1 H2]. split; apply mutate_Forall; auto.
      * intros t. now apply quiet_readable.
      * intros t. now apply quiet_busy.
    + intros i j ts [H1 H2] _ _.
      split; apply on_edge_Forall; auto with tame.
    + intros i j ts [H1 H2] _ _.
      split; apply on_edge_Forall; auto with tame.
    + intros i j ts [H1 H2] _ _.
      split; apply on_edge_Forall; auto with tame.
    + intros i j ts [H1 H2] _ _.
      split; apply on_edge_Forall; auto with tame.
    + intros i ts [H1 H2] Hi.
      destruct (given (arg_status args)) as [s|]; [|exact H2].
      intros _. destruct (String.eqb s "done") eqn:E.
      * unfold completed. apply relieve_all_Forall; auto with tame.
        apply mutate_Forall; [|exact H2]. intros t _ Hst. discriminate.
      * apply mutate_Forall; [|exact H2]. intros t _ Hst.
        simpl in Hst. congruence.
    + now split.
  - intros prefix.
    destruct (cmd_delete_shape now prefix tasks Hr) as [r [_ [_ E]]].
    rewrite E. destruct r; eexists; (split; [reflexivity|]); try exact I.
    now apply no_idle_blocked_deleted.
Qed.

Lemma edge_symmetry_kept_witness :
  (well_formed chain /\ symmetric chain) /\
  exists r,
    cmd_update later (with_remove_blocks "a1" "b2") chain = Ok r /\
    match r with
    | Saved ts' =>
        well_formed ts' /\ backed ts' /\
        (given (arg_status (with_remove_blocks "a1" "b2")) <> Some "done" ->
         symmetric ts')
    | NotSaved => True
    end.
Proof.
  assert (Hw : well_formed chain)
    by (apply well_formedb_sound; vm_compute; reflexivity).
  assert (Hs : symmetric chain)
    by (apply symmetricb_sound; vm_compute; reflexivity).
  split; [split; assumption|].
  exact (proj1 (edge_symmetry_kept later chain Hw Hs)
           (with_remove_blocks "a1" "b2")).
Defined.

(** Completing A in the chain A blocks B blocks C: B loses its blocker,
    A keeps B in [blocks]. *)
Lemma completing_breaks_symmetry :
  symmetric chain /\
  cmd_update later (with_status "a1" "done") chain
  = Ok (Saved [ touched "a1" "A" "done" ["b2"] [];
                touched "b2" "B" "open" ["c3"] [];
                sample "c3" "C" "blocked" [] ["b2"] ]) /\
  ~ symmetric [ touched "a1" "A" "done" ["b2"] [];
                touched "b2" "B" "open" ["c3"] [];
                sample "c3" "C" "blocked" [] ["b2"] ].
Proof.
  split; [apply symmetricb_sound; vm_compute; reflexivity|].
  split; [vm_compute; reflexivity|].
  intros H.
  assert (Hin : In "a1" (blocked_by_of (touched "b2" "B" "open" ["c3"] []))).
  { apply (H (touched "a1" "A" "done" ["b2"] [])
             (touched "b2" "B" "open" ["c3"] []) "a1" "b2");
      simpl; auto. }
  simpl in Hin. exact Hin.
Qed.

Lemma blocked_keeps_a_blocker_witness :
  (Forall readable chain /\ no_idle_blocked chain) /\
  exists r,
    cmd_update later (with_status "a1" "done") chain = Ok r /\
    match r with
    | Saved ts' => no_idle_blocked ts'
    | NotSaved => True
    end.
Proof.
  assert (Hr : Forall readable chain)
    by (repeat constructor; simpl; discriminate).
  assert (Hb : no_idle_blocked chain)
    by (apply no_idle_blockedb_sound; vm_compute; reflexivity).
  split; [split; assumption|].
  refine (proj1 (blocked_keeps_a_blocker later chain Hr Hb)
            (with_status "a1" "done") _).
  simpl. discriminate.
Defined.

(** An edge from a task that is done: B becomes blocked although its
    only blocker is done. *)
Lemma blocked_by_done_blocker :
  cmd_update later (with_add_blocked_by "b2" "a1") done_and_open
  = Ok (Saved [ touched "a1" "A" "done" ["b2"] [];
                touched "b2" "B" "blocked" [] ["a1"] ]) /\
  status (touched "b2" "B" "blocked" [] ["a1"]) = Some "blocked" /\
  forall b, In b (blocked_by_of (touched "b2" "B" "blocked" [] ["a1"])) ->
            done_id [ touched "a1" "A" "done" ["b2"] [];
                      touched "b2" "B" "blocked" [] ["a1"] ] b.
Proof.
  split; [vm_compute; reflexivity|]. split; [reflexivity|].
  intros b [<-|[]]. exists (touched "a1" "A" "done" ["b2"] []).
  simpl. auto.
Qed.

(** ** Adding one edge *)

Lemma first_match_from_keep k p ts ts' :
  map id ts' = map id ts ->
  first_match_from k p ts' = first_match_from k p ts.
Proof.
  revert k ts'. induction ts as [|t r IH]; intros k [|t' r'] H;
    simpl in H; try discriminate; [reflexivity|].
  injection H as Ht Hr. simpl. rewrite Ht.
  destruct (id t); [|reflexivity]. cbn [getitem bind].
  destruct (startswith s p); [reflexivity | now apply IH].
Qed.

Lemma first_match_keep p ts ts' :
  map id ts' = map id ts -> first_match ts' p = first_match ts p.
Proof. apply first_match_from_keep. Qed.

Lemma given_nonempty s : s <> "" -> given (Some s) = Some s.
Proof. destruct s; [congruence | reflexivity]. Qed.

Lemma update_add_blocked_by_shape now tp op p tasks i j :
  Forall readable tasks -> find_task tasks tp = Ok (Found i) ->
  op <> "" -> id_prefixes op = [p] -> first_match tasks p = Ok (Some j) ->
  i < length tasks /\ j < length tasks /\
  cmd_update now (with_add_blocked_by tp op) tasks
  = Ok (Saved (on_edge (gain_blocker None) (gain_block (Some now)) i j
                 (mutate i (set_updated_at now) tasks))).
Proof.
  intros Hr Hf Hop Hp Hm.
  destruct (find_task_ok tasks tp (Forall_readable_printable _ Hr))
    as [r [E Hi]].
  rewrite Hf in E. injection E as <-. specialize (Hi i eq_refl).
  set (ts0 := mutate i (set_updated_at now) tasks).
  assert (Hk0 : Forall keyed ts0).
  { apply mutate_Forall; [apply keyed_set_updated_at|].
    now apply Forall_readable_keyed. }
  assert (Hi0 : i < length ts0) by (unfold ts0; now rewrite mutate_length).
  assert (Hid : map id ts0 = map id tasks) by (now apply mutate_map).
  destruct (add_blocked_by_step_shape now i ts0 false p Hk0 Hi0)
    as [r [E [Hj Es]]].
  rewrite (first_match_keep _ _ _ Hid), Hm in E. injection E as <-.
  specialize (Hj j eq_refl). unfold ts0 in Hj. rewrite mutate_length in Hj.
  split; [exact Hi|]. split; [exact Hj|].
  unfold cmd_update, with_add_blocked_by. cbn [arg_id]. rewrite Hf.
  cbn [bind arg_title arg_description arg_delete_log arg_status
       arg_log arg_add_blocks arg_add_blocked_by arg_remove_blocks
       arg_remove_blocked_by]. unfold edge_loop.
  rewrite (given_nonempty _ Hop), Hp.
  cbn [given delete_log_part arg_delete_log log_part arg_log bind fst
       for_each]. fold ts0.
  rewrite Es. reflexivity.
Qed.

Lemma update_add_blocks_shape now tp op p tasks i j :
  Forall readable tasks -> find_task tasks tp = Ok (Found i) ->
  op <> "" -> id_prefixes op = [p] -> first_match tasks p = Ok (Some j) ->
  i < length tasks /\ j < length tasks /\
  cmd_update now (with_add_blocks tp op) tasks
  = Ok (Saved (on_edge (gain_block None) (gain_blocker (Some now)) i j
                 (mutate i (set_updated_at now) tasks))).
Proof.
  intros Hr Hf Hop Hp Hm.
  destruct (find_task_ok tasks tp (Forall_readable_printable _ Hr))
    as [r [E Hi]].
  rewrite Hf in E. injection E as <-. specialize (Hi i eq_refl).
  set (ts0 := mutate i (set_updated_at now) tasks).
  assert (Hk0 : Forall keyed ts0).
  { apply mutate_Forall; [apply keyed_set_updated_at|].
    now apply Forall_readable_keyed. }
  assert (Hi0 : i < length ts0) by (unfold ts0; now rewrite mutate_length).
  assert (Hid : map id ts0 = map id tasks) by (now apply mutate_map).
  destruct (add_blocks_step_shape now i ts0 false p Hk0 Hi0)
    as [r [E [Hj Es]]].
  rewrite (first_match_keep _ _ _ Hid), Hm in E. injection E as <-.
  specialize (Hj j eq_refl). unfold ts0 in Hj. rewrite mutate_length in Hj.
  split; [exact Hi|]. split; [exact Hj|].
  unfold cmd_update, with_add_blocks. cbn [arg_id]. rewrite Hf.
  cbn [bind arg_title arg_description arg_delete_log arg_status
       arg_log arg_add_blocks arg_add_blocked_by arg_remove_blocks
       arg_remove_blocked_by]. unfold edge_loop.
  rewrite (given_nonempty _ Hop), Hp.
  cbn [given delete_log_part arg_delete_log log_part arg_log bind fst
       for_each]. fold ts0.
  rewrite Es. reflexivity.
Qed.

Lemma gain_block_updated_at s x t :
  updated_at (gain_block s x t)
  = if mem x (blocks_of t) then updated_at t
    else match s with Some now => Some now | None => updated_at t end.
Proof. destruct s; open_task t; by_cases. Qed.

Lemma gain_blocker_updated_at s x t :
  updated_at (gain_blocker s x t)
  = if mem x (blocked_by_of t) then updated_at t
    else match s with Some now => Some now | None => updated_at t end.
Proof. destruct s; open_task t; by_cases. Qed.

Lemma gain_block_blocks_list s x t :
  blocks_of (gain_block s x t)
  = if mem x (blocks_of t) then blocks_of t else blocks_of t ++ [x].
Proof. apply gain_block_blocks. Qed.

Lemma gain_blocker_blocked_by_list s x t :
  blocked_by_of (gain_blocker s x t)
  = if mem x (blocked_by_of t) then blocked_by_of t
    else blocked_by_of t ++ [x].
Proof. apply gain_blocker_blocked_by. Qed.

Lemma on_edge_target fi fj i j ts :
  i < length ts -> j < length ts -> i <> j ->
  task_at (on_edge fi fj i j ts) i = fi (id_at ts j) (task_at ts i).
Proof.
  intros Hi Hj Hne. rewrite on_edge_at by assumption.
  rewrite Nat.eqb_refl. apply Nat.eqb_neq in Hne. now rewrite Hne.
Qed.

Lemma on_edge_other fi fj i j ts :
  i < length ts -> j < length ts -> i <> j ->
  task_at (on_edge fi fj i j ts) j = fj (id_at ts i) (task_at ts j).
Proof.
  intros Hi Hj Hne. rewrite on_edge_at by assumption.
  rewrite Nat.eqb_refl. assert (E : Nat.eqb j i = false)
    by (apply Nat.eqb_neq; congruence). now rewrite E.
Qed.

Lemma on_edge_elsewhere fi fj i j ts k :
  i < length ts -> j < length ts -> k <> i -> k <> j ->
  task_at (on_edge fi fj i j ts) k = task_at ts k.
Proof.
  intros Hi Hj Hki Hkj. rewrite on_edge_at by assumption.
  apply Nat.eqb_neq in Hki, Hkj. now rewrite Hki, Hkj.
Qed.

(** C3, as amended.  Adding one block edge between two different tasks,
    through [--add-blocked-by] on the blocked task or through
    [--add-blocks] on the blocker: each of the two lists gains the other
    id at its end if it does not hold it, and is unchanged otherwise, so
    no repetition is introduced; the blocked task's status becomes blocked
    exactly when the blocker was not yet in its [blocked_by] and its
    status was neither done nor blocked, and is unchanged otherwise;
    [updated_at] is set on the task the command names, always, and on
    the other task only when its list gained the entry; no third task
    changes. *)
Theorem add_block_edge_effect (now tp op p : string) (tasks : list task)
  (i j : nat) :
  Forall readable tasks -> find_task tasks tp = Ok (Found i) ->
  op <> "" -> id_prefixes op = [p] -> first_match tasks p = Ok (Some j) ->
  i <> j ->
  let T := task_at tasks i in
  let O := task_at tasks j in
  let tid := id_at tasks i in
  let oid := id_at tasks j in
  let blocked_status (edge_there : bool) (st : option string) :=
    if edge_there then st
    else match st with
         | Some s => if mem s ["done"; "blocked"] then Some s
                     else Some "blocked"
         | None => None
         end in
  (exists ts',
      cmd_update now (with_add_blocked_by tp op) tasks = Ok (Saved ts') /\
      length ts' = length tasks /\
      (forall k, k <> i -> k <> j -> task_at ts' k = task_at tasks k) /\
      let T' := task_at ts' i in
      let O' := task_at ts' j in
      blocked_by_of T' = (if mem oid (blocked_by_of T) then blocked_by_of T
                          else blocked_by_of T ++ [oid]) /\
      blocks_of O' = (if mem tid (blocks_of O) then blocks_of O
                      else blocks_of O ++ [tid]) /\
      (NoDup (blocked_by_of T) -> NoDup (blocked_by_of T')) /\
      (NoDup (blocks_of O) -> NoDup (blocks_of O')) /\
      status T' = blocked_status (mem oid (blocked_by_of T)) (status T) /\
      status O' = status O /\
      updated_at T' = Some now /\
      updated_at O' = (if mem tid (blocks_of O) then updated_at O
                       else Some now)) /\
  (exists ts',
      cmd_update now (with_add_blocks tp op) tasks = Ok (Saved ts') /\
      length ts' = length tasks /\
      (forall k, k <> i -> k <> j -> task_at ts' k = task_at tasks k) /\
      let T' := task_at ts' i in
      let O' := task_at ts' j in
      blocks_of T' = (if mem oid (blocks_of T) then blocks_of T
                      else blocks_of T ++ [oid]) /\
      blocked_by_of O' = (if mem tid (blocked_by_of O) then blocked_by_of O
                          else blocked_by_of O ++ [tid]) /\
      (NoDup (blocks_of T) -> NoDup (blocks_of T')) /\
      (NoDup (blocked_by_of O) -> NoDup (blocked_by_of O')) /\
      status O' = blocked_status (mem tid (blocked_by_of O)) (status O) /\
      status T' = status T /\
      updated_at T' = Some now /\
      updated_at O' = (if mem tid (blocked_by_of O) then updated_at O
                       else Some now)).
Proof.
  intros Hr Hf Hop Hp Hm Hne T O tid oid blocked_status.
  set (ts0 := mutate i (set_updated_at now) tasks).
  assert (Hid : map id ts0 = map id tasks) by (now apply mutate_map).
  assert (Hl0 : length ts0 = length tasks) by apply mutate_length.
  split.
  - destruct (update_add_blocked_by_shape now tp op p tasks i j
                Hr Hf Hop Hp Hm) as [Hi [Hj E]].
    fold ts0 in E. rewrite <- Hl0 in Hi, Hj.
    assert (ET : task_at ts0 i = set_updated_at now T)
      by (apply task_at_mutate_same; now rewrite <- Hl0).
    assert (EO : task_at ts0 j = O).
    { unfold ts0. rewrite task_at_mutate by (now rewrite <- Hl0).
      assert (En : Nat.eqb j i = false) by (apply Nat.eqb_neq; congruence).
      now rewrite En. }
    eexists. split; [exact E|]. split; [now rewrite on_edge_length|].
    split.
    { intros k Hki Hkj. rewrite on_edge_elsewhere by assumption.
      unfold ts0. rewrite task_at_mutate by (now rewrite <- Hl0).
      apply Nat.eqb_neq in Hki. now rewrite Hki. }
    cbv zeta. rewrite on_edge_target, on_edge_other by assumption.
    rewrite !(id_at_keep _ _ Hid), ET, EO. fold tid oid.
    rewrite gain_blocker_blocked_by_list, gain_block_blocks_list.
    rewrite gain_blocker_status, gain_block_status.
    rewrite gain_blocker_updated_at, gain_block_updated_at.
    change (blocked_by_of (set_updated_at now T)) with (blocked_by_of T).
    change (status (set_updated_at now T)) with (status T).
    change (updated_at (set_updated_at now T)) with (Some now).
    repeat split.
    + intros H. now apply (NoDup_add_if_absent oid) in H.
    + intros H. now apply (NoDup_add_if_absent tid) in H.
    + now destruct (mem oid (blocked_by_of T)).
  - destruct (update_add_blocks_shape now tp op p tasks i j
                Hr Hf Hop Hp Hm) as [Hi [Hj E]].
    fold ts0 in E. rewrite <- Hl0 in Hi, Hj.
    assert (ET : task_at ts0 i = set_updated_at now T)
      by (apply task_at_mutate_same; now rewrite <- Hl0).
    assert (EO : task_at ts0 j = O).
    { unfold ts0. rewrite task_at_mutate by (now rewrite <- Hl0).
      assert (En : Nat.eqb j i = false) by (apply Nat.eqb_neq; congruence).
      now rewrite En. }
    eexists. split; [exact E|]. split; [now rewrite on_edge_length|].
    split.
    { intros k Hki Hkj. rewrite on_edge_elsewhere by assumption.
      unfold ts0. rewrite task_at_mutate by (now rewrite <- Hl0).
      apply Nat.eqb_neq in Hki. now rewrite Hki. }
    cbv zeta. rewrite on_edge_target, on_edge_other by assumption.
    rewrite !(id_at_keep _ _ Hid), ET, EO. fold tid oid.
    rewrite gain_blocker_blocked_by_list, gain_block_blocks_list.
    rewrite gain_blocker_status, gain_block_status.
    rewrite gain_blocker_updated_at, gain_block_updated_at.
    change (blocks_of (set_updated_at now T)) with (blocks_of T).
    change (status (set_updated_at now T)) with (status T).
    change (updated_at (set_updated_at now T)) with (Some now).
    repeat split.
    + intros H. now apply (NoDup_add_if_absent oid) in H.
    + intros H. now apply (NoDup_add_if_absent tid) in H.
    + now destruct (mem oid (blocks_of T)).
Qed.

Lemma add_block_edge_effect_witness :
  exists ts',
    cmd_update later (with_add_blocked_by "c3" "a1") chain = Ok (Saved ts') /\
    blocked_by_of (task_at ts' 2) = ["b2"; "a1"] /\
    blocks_of (task_at ts' 0) = ["b2"; "c3"] /\
    status (task_at ts' 2) = Some "blocked" /\
    updated_at (task_at ts' 0) = Some later.
Proof.
  assert (Hr : Forall readable chain)
    by (repeat constructor; simpl; discriminate).
  assert (Hop : "a1" <> "") by discriminate.
  assert (Hne : 2 <> 0) by discriminate.
  destruct (add_block_edge_effect later "c3" "a1" "a1" chain 2 0
              Hr eq_refl Hop eq_refl eq_refl Hne)
    as [[ts' [E [_ [_ [H1 [H2 [_ [_ [H3 [_ [_ H4]]]]]]]]]]] _].
  exists ts'. repeat split; assumption.
Defined.

(** The edge is there already and B is in progress: B stays in
    progress; through [--add-blocks] the blocker's [updated_at] is set
    although nothing was added. *)
Lemma existing_edge_keeps_status :
  cmd_update later (with_add_blocked_by "b2" "a1") edge_in_progress
  = Ok (Saved [ sample "a1" "A" "open" ["b2"] [];
                touched "b2" "B" "in_progress" [] ["a1"] ]) /\
  cmd_update later (with_add_blocks "a1" "b2") edge_in_progress
  = Ok (Saved [ touched "a1" "A" "open" ["b2"] [];
                sample "b2" "B" "in_progress" [] ["a1"] ]).
Proof. split; vm_compute; reflexivity. Qed.

(** ** Completing a task *)

Lemma update_done_shape now tp tasks i :
  Forall readable tasks -> find_task tasks tp = Ok (Found i) ->
  i < length tasks /\
  cmd_update now (with_status tp "done") tasks
  = Ok (Saved (completed now i (mutate i (set_updated_at now) tasks))).
Proof.
  intros Hr Hf.
  destruct (find_task_ok tasks tp (Forall_readable_printable _ Hr))
    as [r [E Hi]].
  rewrite Hf in E. injection E as <-. specialize (Hi i eq_refl).
  split; [exact Hi|].
  set (ts0 := mutate i (set_updated_at now) tasks).
  assert (Hk0 : Forall keyed ts0).
  { apply mutate_Forall; [apply keyed_set_updated_at|].
    now apply Forall_readable_keyed. }
  assert (Hi0 : i < length ts0) by (unfold ts0; now rewrite mutate_length).
  unfold cmd_update, with_status. cbn [arg_id]. rewrite Hf.
  cbn [bind arg_title arg_description arg_delete_log arg_status
       arg_log arg_add_blocks arg_add_blocked_by arg_remove_blocks
       arg_remove_blocked_by]. unfold edge_loop.
  cbn [given delete_log_part arg_delete_log log_part arg_log bind fst].
  fold ts0. rewrite (status_part_shape now _ i ts0 false Hk0 Hi0).
  reflexivity.
Qed.

Lemma lose_blocker_twice s x t :
  NoDup (blocked_by_of t) ->
  lose_blocker s x (lose_blocker s x t) = lose_blocker s x t.
Proof.
  intros Hnd. unfold lose_blocker at 1.
  assert (E : mem x (blocked_by_of (lose_blocker s x t)) = false).
  { apply mem_not_In. rewrite lose_blocker_blocked_by.
    now apply not_In_remove_first. }
  now rewrite E.
Qed.

Lemma relieve_all_at now tid ids bs ts k :
  Forall no_dup_edges ts ->
  (forall b j, dict_get ids b = Some j -> j < length ts) ->
  task_at (relieve_all now tid ids bs ts) k
  = if existsb (fun b => match dict_get ids b with
                         | Some j => Nat.eqb j k
                         | None => false
                         end) bs
    then lose_blocker (Some now) tid (task_at ts k)
    else task_at ts k.
Proof.
  unfold relieve_all. revert ts.
  induction bs as [|b bs IH]; intros ts Hnd Hb; simpl; [reflexivity|].
  destruct (dict_get ids b) as [j|] eqn:E; [|now apply IH].
  rewrite IH.
  - rewrite task_at_mutate by (eapply Hb; eauto).
    rewrite (Nat.eqb_sym k j).
    destruct (Nat.eqb_spec j k) as [->|Hne]; cbn [orb]; cbv iota;
      [|reflexivity].
    rewrite lose_blocker_twice.
    + now destruct (existsb _ bs).
    + assert (Hk : k < length ts) by (eapply Hb; eauto).
      rewrite Forall_forall in Hnd.
      now destruct (Hnd _ (task_at_In _ _ Hk)).
  - apply mutate_Forall; auto with tame.
  - intros b' j' H. rewrite mutate_length. eapply Hb; eauto.
Qed.

Lemma dict_get_position ts b k :
  Forall keyed ts -> unique_ids ts ->
  (dict_get (ids_of ts) b = Some k <-> k < length ts /\ id_at ts k = b).
Proof.
  intros Hk Hu. destruct (ids_of_ok ts Hk) as [_ Hm]. split.
  - intros H. pose proof (dict_get_bound _ _ _ H) as Hlt.
    split; [exact Hlt|]. apply dict_get_some in H.
    destruct (ids_nth_error _ _ _ _ Hm H) as [t [Hn Hi]].
    unfold id_at. rewrite (task_at_nth_error _ _ _ Hn). now rewrite Hi.
  - intros [Hlt <-].
    destruct (dict_get (ids_of ts) (id_at ts k)) as [j|] eqn:E.
    + f_equal. pose proof (dict_get_bound _ _ _ E) as Hj.
      apply dict_get_some in E.
      destruct (ids_nth_error _ _ _ _ Hm E) as [t [Hn Hi]].
      apply (unique_ids_position ts j k (id_at ts k)); auto.
      * now rewrite (task_at_nth_error _ _ _ Hn).
      * now apply id_present.
    + exfalso. apply dict_get_none in E. apply E.
      unfold ids_of, id_at. apply in_map_iff. exists (task_at ts k).
      split; [reflexivity | now apply task_at_In].
Qed.

Lemma named_in ts bs k :
  Forall keyed ts -> unique_ids ts -> k < length ts ->
  existsb (fun b => match dict_get (ids_of ts) b with
                    | Some j => Nat.eqb j k
                    | None => false
                    end) bs = mem (id_at ts k) bs.
Proof.
  intros Hk Hu Hlt. apply eq_true_iff_eq.
  rewrite mem_In, existsb_exists. split.
  - intros [b [Hb H]].
    destruct (dict_get (ids_of ts) b) as [j|] eqn:E; [|discriminate].
    apply Nat.eqb_eq in H. subst j.
    apply (dict_get_position ts b k Hk Hu) in E. destruct E as [_ <-].
    exact Hb.
  - intros Hin. exists (id_at ts k). split; [exact Hin|].
    assert (E : dict_get (ids_of ts) (id_at ts k) = Some k)
      by (apply dict_get_position; auto).
    rewrite E. apply Nat.eqb_refl.
Qed.

Lemma lose_blocker_status s x t :
  status (lose_blocker s x t)
  = if mem x (blocked_by_of t)
    then match remove_first x (blocked_by_of t), status t with
         | [], Some st => if String.eqb st "blocked" then Some "open"
                          else Some st
         | _, st => st
         end
    else status t.
Proof.
  unfold lose_blocker. destruct (mem x (blocked_by_of t)); [|reflexivity].
  rewrite release_status. destruct s; reflexivity.
Qed.

Lemma completed_at now i ts k :
  well_formed ts -> i < length ts -> k < length ts ->
  task_at (completed now i ts) k
  = let t0 := if Nat.eqb k i then set_status "done" (task_at ts k)
              else task_at ts k in
    if mem (id_at ts k) (blocks_of (task_at ts i))
    then lose_blocker (Some now) (id_at ts i) t0 else t0.
Proof.
  intros [Hr [Hu Hnd]] Hi Hk. unfold completed.
  pose proof (Forall_readable_keyed _ Hr) as Hkeyed.
  rewrite relieve_all_at.
  - rewrite task_at_mutate_same by exact Hi.
    change (blocks_of (set_status "done" (task_at ts i)))
      with (blocks_of (task_at ts i)).
    rewrite (named_in ts _ k Hkeyed Hu Hk).
    rewrite task_at_mutate by exact Hi. reflexivity.
  - apply mutate_Forall; [|exact Hnd]. intros t H. exact H.
  - intros b j H. rewrite mutate_length. now apply dict_get_bound in H.
Qed.

(** C5.  On a collection of the data model, setting a task's status to
    done saves a collection in which the task is done and, for every task
    named in its [blocks], the completed id is gone from that task's
    [blocked_by], nothing else of the list changing; such a task turns
    from blocked to open exactly when it held the completed id, its list
    became empty and its status was blocked; every other task, not named
    in the completed task's [blocks], is left as it was. *)
Theorem complete_task_one_hop (now tp : string) (tasks : list task)
  (i : nat) :
  well_formed tasks -> find_task tasks tp = Ok (Found i) ->
  let T := task_at tasks i in
  let tid := id_at tasks i in
  exists ts',
    cmd_update now (with_status tp "done") tasks = Ok (Saved ts') /\
    length ts' = length tasks /\
    status (task_at ts' i) = Some "done" /\
    forall k, k < length tasks ->
      let t := task_at tasks k in
      let t' := task_at ts' k in
      id t' = id t /\ blocks_of t' = blocks_of t /\
      (In (id_at tasks k) (blocks_of T) ->
       blocked_by_of t' = remove_first tid (blocked_by_of t) /\
       ~ In tid (blocked_by_of t') /\
       (k <> i -> In tid (blocked_by_of t) -> blocked_by_of t' = [] ->
        status t = Some "blocked" -> status t' = Some "open") /\
       (k <> i ->
        ~ (In tid (blocked_by_of t) /\ blocked_by_of t' = [] /\
           status t = Some "blocked") ->
        status t' = status t)) /\
      (~ In (id_at tasks k) (blocks_of T) -> k <> i -> t' = t).
Proof.
  intros Hw Hf T tid. pose proof Hw as [Hr [Hu Hnd]].
  destruct (update_done_shape now tp tasks i Hr Hf) as [Hi E].
  set (ts0 := mutate i (set_updated_at now) tasks) in *.
  assert (Hw0 : well_formed ts0)
    by (apply well_formed_quiet; [apply quiet_set_updated_at | exact Hw]).
  assert (Hl0 : length ts0 = length tasks) by apply mutate_length.
  assert (Hid : map id ts0 = map id tasks) by (now apply mutate_map).
  assert (HT0 : task_at ts0 i = set_updated_at now T)
    by (now apply task_at_mutate_same).
  assert (Hat : forall k, k < length tasks ->
            task_at (completed now i ts0) k
            = let t0 := if Nat.eqb k i
                        then set_status "done" (set_updated_at now T)
                        else task_at tasks k in
              if mem (id_at tasks k) (blocks_of T)
              then lose_blocker (Some now) tid t0 else t0).
  { intros k Hk. rewrite completed_at by (rewrite ?Hl0; assumption).
    rewrite !(id_at_keep _ _ Hid), HT0. fold tid.
    change (blocks_of (set_updated_at now T)) with (blocks_of T).
    unfold ts0 at 1 2. rewrite task_at_mutate by exact Hi.
    destruct (Nat.eqb_spec k i) as [->|Hne]; reflexivity. }
  exists (completed now i ts0). split; [exact E|].
  split; [unfold completed; now rewrite relieve_all_length, mutate_length|].
  split.
  { rewrite Hat by exact Hi. rewrite Nat.eqb_refl. cbv zeta.
    destruct (mem (id_at tasks i) (blocks_of T)); [|reflexivity].
    rewrite lose_blocker_status. cbn [status set_status].
    destruct (mem tid _); [|reflexivity].
    now destruct (remove_first tid _). }
  intros k Hk t t'. unfold t'. rewrite (Hat k Hk). cbv zeta.
  assert (Hndk : NoDup (blocked_by_of t)).
  { rewrite Forall_forall in Hnd.
    now destruct (Hnd _ (task_at_In _ _ Hk)). }
  destruct (mem (id_at tasks k) (blocks_of T)) eqn:Em.
  - apply mem_In in Em.
    assert (Ebb : forall t0, blocked_by_of t0 = blocked_by_of t ->
              blocked_by_of (lose_blocker (Some now) tid t0)
              = remove_first tid (blocked_by_of t))
      by (intros t0 H0; now rewrite lose_blocker_blocked_by, H0).
    split; [|split; [|split; [|tauto]]].
    + rewrite lose_blocker_id. now destruct (Nat.eqb_spec k i) as [->|].
    + rewrite lose_blocker_blocks_of.
      now destruct (Nat.eqb_spec k i) as [->|].
    + intros _.
      assert (Eb : blocked_by_of
                     (lose_blocker (Some now) tid
                        (if Nat.eqb k i
                         then set_status "done" (set_updated_at now T)
                         else task_at tasks k))
                   = remove_first tid (blocked_by_of t)).
      { apply Ebb. now destruct (Nat.eqb_spec k i) as [->|]. }
      rewrite Eb. split; [reflexivity|].
      split; [now apply not_In_remove_first|].
      split.
      * intros Hne Hin Hnil Hst. apply Nat.eqb_neq in Hne. rewrite Hne.
        rewrite lose_blocker_status. fold t.
        apply mem_In in Hin. rewrite Hin, Hnil, Hst. reflexivity.
      * intros Hne Hnot. apply Nat.eqb_neq in Hne. rewrite Hne.
        rewrite lose_blocker_status. fold t.
        destruct (mem tid (blocked_by_of t)) eqn:Emem; [|reflexivity].
        apply mem_In in Emem.
        destruct (remove_first tid (blocked_by_of t)) eqn:Erem;
          [|reflexivity].
        destruct (status t) as [st|] eqn:Est; [|reflexivity].
        destruct (String.eqb st "blocked") eqn:Eqb; [|reflexivity].
        apply String.eqb_eq in Eqb. subst st. exfalso. apply Hnot.
        repeat split; auto.
  - apply mem_not_In in Em.
    split; [|split; [|split; [tauto|]]].
    + now destruct (Nat.eqb_spec k i) as [->|].
    + now destruct (Nat.eqb_spec k i) as [->|].
    + intros _ Hne. apply Nat.eqb_neq in Hne. now rewrite Hne.
Qed.

Lemma complete_task_one_hop_witness :
  exists ts',
    cmd_update later (with_status "a1" "done") chain = Ok (Saved ts') /\
    status (task_at ts' 0) = Some "done" /\
    blocked_by_of (task_at ts' 1) = [] /\
    status (task_at ts' 1) = Some "open" /\
    task_at ts' 2 = task_at chain 2.
Proof.
  assert (Hw : well_formed chain)
    by (apply well_formedb_sound; vm_compute; reflexivity).
  destruct (complete_task_one_hop later "a1" chain 0 Hw eq_refl)
    as [ts' [E [_ [H0 H]]]].
  exists ts'. split; [exact E|]. split; [exact H0|].
  assert (L1 : 1 < length chain) by (simpl; lia).
  assert (L2 : 2 < length chain) by (simpl; lia).
  destruct (H 1 L1) as [_ [_ [H1 _]]].
  destruct (H 2 L2) as [_ [_ [_ H2]]].
  assert (Hin : In (id_at chain 1) (blocks_of (task_at chain 0)))
    by (simpl; auto).
  destruct (H1 Hin) as [Hb [_ [Ho _]]].
  split; [exact Hb|]. split.
  - apply Ho; [discriminate | simpl; auto | exact Hb | reflexivity].
  - apply H2; [|discriminate]. simpl. intros [F|[]]. discriminate.
Defined.

(** ** Walks, chains and the order of finishing *)

Lemma linked_app_right d p q : linked d (p ++ q) -> linked d q.
Proof.
  induction p as [|a p IH]; [auto|].
  intros H. apply IH. destruct p as [|b p]; simpl in *.
  - destruct q; [exact I | apply H].
  - apply H.
Qed.

Lemma linked_snoc d p v w :
  linked d (p ++ [v]) -> edge d v w -> linked d ((p ++ [v]) ++ [w]).
Proof.
  intros H He. induction p as [|a p IH]; simpl in *.
  - auto.
  - destruct p as [|b p]; simpl in *.
    + destruct H as [H1 _]. auto.
    + destruct H as [H1 H2]. split; [exact H1 | now apply IH].
Qed.

Lemma linked_walk d p a b : linked d (a :: p ++ [b]) -> walk d a b.
Proof.
  revert a. induction p as [|c p IH]; intros a H; simpl in H.
  - apply walk_edge. apply H.
  - destruct H as [H1 H2]. eapply walk_more; [exact H1 | now apply IH].
Qed.

Lemma closed_walk_cyclic d c : closed_walk d c -> cyclic d.
Proof.
  intros [x [mid [-> H]]]. exists x. now apply (linked_walk d mid).
Qed.

Lemma finished_order_app d pre post :
  finished_order d (pre ++ post) -> finished_order d post.
Proof.
  induction pre as [|a pre IH]; simpl; [auto|]. intros [_ H]. auto.
Qed.

Lemma finished_walk d L :
  finished_order d L ->
  forall u w, walk d u w ->
  forall pre post, L = pre ++ u :: post -> In w post.
Proof.
  intros HL u w Hw. induction Hw as [a b He|a b c He Hw IH];
    intros pre post ->.
  - apply finished_order_app in HL. simpl in HL. now apply HL.
  - pose proof (finished_order_app _ _ _ HL) as H. simpl in H.
    destruct H as [H _]. specialize (H b He).
    apply in_split in H. destruct H as [l1 [l2 ->]].
    specialize (IH (pre ++ a :: l1) l2).
    rewrite <- app_assoc in IH. simpl in IH. specialize (IH eq_refl).
    apply in_or_app. right. now right.
Qed.

Lemma finished_acyclic d L x :
  NoDup L -> finished_order d L -> In x L -> ~ walk d x x.
Proof.
  intros Hnd HL Hin Hw. apply in_split in Hin.
  destruct Hin as [pre [post ->]].
  pose proof (finished_walk d _ HL x x Hw pre post eq_refl) as H.
  apply NoDup_remove_2 in Hnd. apply Hnd. apply in_or_app. now right.
Qed.

(** ** Counting what is left to visit *)

Lemma unvisited_le U seen : unvisited U seen <= length U.
Proof. apply filter_length_le. Qed.

Lemma unvisited_mono U seen seen' :
  incl seen seen' -> unvisited U seen' <= unvisited U seen.
Proof.
  intros H. unfold unvisited. induction U as [|x U IH]; simpl; [lia|].
  destruct (mem x seen') eqn:E'; destruct (mem x seen) eqn:E; simpl; try lia.
  apply mem_In in E. apply H in E. apply mem_In in E. congruence.
Qed.

Lemma unvisited_add U seen v :
  In v U -> ~ In v seen -> unvisited U (v :: seen) < unvisited U seen.
Proof.
  intros Hin Hnot. unfold unvisited. induction U as [|x U IH]; [destruct Hin|].
  assert (Hle : length (filter (fun y => negb (mem y (v :: seen))) U)
                <= length (filter (fun y => negb (mem y seen)) U))
    by (apply (unvisited_mono U seen (v :: seen)); intros y Hy; now right).
  cbn [filter]. destruct (string_dec x v) as [->|Hne].
  - assert (E1 : mem v (v :: seen) = true) by (apply mem_In; now left).
    assert (E2 : mem v seen = false) by (now apply mem_not_In).
    rewrite E1, E2. cbn [negb length]. lia.
  - destruct Hin as [Hin|Hin]; [congruence|]. specialize (IH Hin).
    assert (E : mem x (v :: seen) = mem x seen).
    { apply eq_true_iff_eq. rewrite !mem_In. simpl. split; [|auto].
      intros [H|H]; [congruence | exact H]. }
    rewrite E. destruct (mem x seen); cbn [negb length]; lia.
Qed.

Lemma from_first_split w p :
  In w p -> exists pre mid, p = pre ++ w :: mid /\ from_first w p = w :: mid.
Proof.
  induction p as [|y r IH]; [intros []|]. intros Hin. simpl.
  destruct (String.eqb y w) eqn:E.
  - apply String.eqb_eq in E. subst y. exists [], r. auto.
  - destruct Hin as [->|Hin]; [now rewrite String.eqb_refl in E|].
    destruct (IH Hin) as [pre [mid [-> Hf]]].
    exists (y :: pre), mid. auto.
Qed.

Lemma set_add_fresh x s : ~ In x s -> set_add x s = x :: s.
Proof.
  intros H. unfold set_add. apply mem_not_In in H. now rewrite H.
Qed.

Lemma remove_first_head x s : remove_first x (x :: s) = s.
Proof. simpl. now rewrite String.eqb_refl. Qed.

(** ** The search keeps its invariant *)

Section Search.
Variable d : task_dict.
Variable U : list string.
Hypothesis U_closed : forall a b, edge d a b -> In b U.

Lemma scan_ok fuel v rs p :
  call_ok d U fuel -> ~ In v rs -> ~ In v p -> linked d (p ++ [v]) ->
  forall bs st L,
    dfs_inv d st L -> rec_stack st = v :: rs -> path st = p ++ [v] ->
    (forall w, In w bs -> edge d v w) ->
    (forall w, edge d v w -> In w bs \/ In w L) ->
    unvisited U (visited st) < fuel ->
    match scan (has_cycle fuel d) v bs st with
    | Cycle c => closed_walk d c
    | NoCycle st' =>
        exists L', dfs_inv d st' L' /\ rec_stack st' = rs /\
                   path st' = p /\ incl (visited st) (visited st')
    | OutOfFuel => False
    end.
Proof.
  intros Hcall Hvrs Hvp Hlink.
  induction bs as [|w r IH]; intros st L HI Hrs Hp Hbs Hsucc Hfuel.
  - cbn [scan]. rewrite Hrs, Hp, remove_first_head, removelast_last.
    destruct HI as [I1 I2 I3 I4 I5]. rewrite Hrs in I3, I4, I5.
    rewrite Hp in I5.
    exists (v :: L). split; [|split; [reflexivity|split; [reflexivity|]]].
    + constructor; cbn [visited rec_stack path].
      * constructor; [|exact I1]. intros H. apply I3 in H.
        apply (proj2 H). now left.
      * split; [|exact I2]. intros w Hw.
        destruct (Hsucc w Hw) as [[]|H]. exact H.
      * intros u. split.
        -- intros [<-|H].
           ++ split; [apply I4; now left | exact Hvrs].
           ++ apply I3 in H. split; [tauto|]. intros F. apply (proj2 H).
              now right.
        -- intros [H1 H2]. destruct (string_dec v u) as [->|Hne];
             [now left|]. right. apply I3. split; [exact H1|].
           intros [F|F]; [congruence | tauto].
      * intros u H. apply I4. now right.
      * intros u. split.
        -- intros H. assert (H' : In u (p ++ [v])) by (apply I5; now right).
           apply in_app_or in H'. destruct H' as [H'|[<-|[]]];
             [exact H' | tauto].
        -- intros H. assert (H' : In u (v :: rs))
             by (apply I5, in_or_app; now left).
           destruct H' as [<-|H']; [tauto | exact H'].
    + cbn [visited]. apply incl_refl.
  - cbn [scan]. destruct (mem w (visited st)) eqn:Ev; cbn [negb].
    + apply mem_In in Ev.
      destruct (mem w (rec_stack st)) eqn:Es.
      * apply mem_In in Es. apply (inv_path d st L HI) in Es.
        destruct (from_first_split w _ Es) as [pre [mid [Hsplit Hf]]].
        rewrite Hf. exists w, mid. split; [reflexivity|].
        rewrite Hp in Hsplit.
        assert (Hl : linked d (w :: mid))
          by (apply (linked_app_right d pre); now rewrite <- Hsplit).
        assert (Hq : exists q, w :: mid = q ++ [v]).
        { destruct (@exists_last _ (w :: mid)) as [q [z Hz]];
            [discriminate|].
          rewrite Hz in Hsplit. rewrite app_assoc in Hsplit.
          apply app_inj_tail in Hsplit. destruct Hsplit as [_ ->].
          eauto. }
        destruct Hq as [q Hq].
        change (w :: mid ++ [w]) with ((w :: mid) ++ [w]).
        rewrite Hq in *. apply linked_snoc; [exact Hl|].
        apply Hbs. now left.
      * apply mem_not_In in Es.
        apply (IH st L); auto.
        -- intros x Hx. apply Hbs. now right.
        -- intros x Hx. destruct (Hsucc x Hx) as [[<-|H]|H]; auto.
           right. apply (inv_finished d st L HI). now split.
    + apply mem_not_In in Ev.
      assert (Hw : edge d v w) by (apply Hbs; now left).
      assert (Hlw : linked d (path st ++ [w]))
        by (rewrite Hp; now apply linked_snoc).
      pose proof (Hcall w st L HI (U_closed _ _ Hw) Ev Hlw Hfuel) as Hc.
      destruct (has_cycle fuel d w st) as [c|st'|]; [exact Hc| |exact Hc].
      destruct Hc as [L' [HI' [Hrs' [Hp' [Hincl Hwv]]]]].
      assert (Hgo : match scan (has_cycle fuel d) v r st' with
                    | Cycle c => closed_walk d c
                    | NoCycle st'' =>
                        exists L'', dfs_inv d st'' L'' /\
                          rec_stack st'' = rs /\ path st'' = p /\
                          incl (visited st') (visited st'')
                    | OutOfFuel => False
                    end).
      { apply (IH st' L'); auto; try congruence.
        - intros x Hx. apply Hbs. now right.
        - intros x Hx.
          assert (Hblack : forall y, In y (visited st) ->
                    ~ In y (rec_stack st) -> In y L').
          { intros y Hy1 Hy2. apply (inv_finished d st' L' HI').
            rewrite Hrs'. auto. }
          destruct (Hsucc x Hx) as [[<-|H]|H]; auto.
          + right. apply (inv_finished d st' L' HI'). split; [exact Hwv|].
            rewrite Hrs'. intros F. apply Ev.
            now apply (inv_stack d st L HI).
          + right. apply (inv_finished d st L HI) in H. now apply Hblack.
        - pose proof (unvisited_mono U _ _ Hincl). lia. }
      destruct (scan (has_cycle fuel d) v r st') as [c|st''|]; auto.
      destruct Hgo as [L'' [H1 [H2 [H3 H4]]]].
      exists L''. split; [exact H1|]. split; [exact H2|].
      split; [exact H3|]. eapply incl_tran; eauto.
Qed.

Lemma has_cycle_ok fuel : call_ok d U fuel.
Proof.
  induction fuel as [|fuel IH]; intros v st L HI HvU Hv Hlink Hfuel;
    [lia|].
  cbn [has_cycle].
  assert (Hvrs : ~ In v (rec_stack st))
    by (intros F; apply Hv; now apply (inv_stack d st L HI)).
  assert (Hvp : ~ In v (path st))
    by (intros F; apply Hvrs; now apply (inv_path d st L HI)).
  rewrite (set_add_fresh _ _ Hv), (set_add_fresh _ _ Hvrs).
  set (st1 := mkDfs (v :: visited st) (v :: rec_stack st) (path st ++ [v])).
  assert (HI1 : dfs_inv d st1 L).
  { destruct HI as [I1 I2 I3 I4 I5].
    constructor; cbn [visited rec_stack path st1]; auto.
    - intros u. split.
      + intros H. apply I3 in H. destruct H as [H1 H2].
        split; [now right|]. intros [<-|F]; tauto.
      + intros [[<-|H1] H2]; [exfalso; apply H2; now left|].
        apply I3. split; [exact H1|]. intros F. apply H2. now right.
    - intros u [<-|H]; [now left | right; auto].
    - intros u. split.
      + intros [<-|H]; apply in_or_app; [right; now left|].
        left. now apply I5.
      + intros H. apply in_app_or in H. destruct H as [H|[<-|[]]];
          [right; now apply I5 | now left]. }
  assert (Hf1 : unvisited U (visited st1) < fuel).
  { pose proof (unvisited_add U (visited st) v HvU Hv).
    cbn [visited st1]. lia. }
  pose proof (scan_ok fuel v (rec_stack st) (path st) IH Hvrs Hvp Hlink
                (blockers d v) st1 L HI1 eq_refl eq_refl
                (fun w H => H) (fun w H => or_introl H) Hf1) as Hs.
  destruct (scan (has_cycle fuel d) v (blockers d v) st1) as [c|st'|];
    [exact Hs| |exact Hs].
  destruct Hs as [L' [H1 [H2 [H3 H4]]]].
  exists L'. split; [exact H1|]. split; [exact H2|]. split; [exact H3|].
  split.
  - intros u Hu. apply H4. cbn [visited st1]. now right.
  - apply H4. cbn [visited st1]. now left.
Qed.

Lemma search_roots_ok fuel keys :
  length U < fuel -> (forall k, In k keys -> In k U) ->
  forall seen L,
    dfs_inv d (mkDfs seen [] []) L ->
    match search_roots fuel d keys seen with
    | Cycle c => closed_walk d c
    | NoCycle st =>
        exists L', dfs_inv d st L' /\ rec_stack st = [] /\
                   incl seen (visited st) /\
                   forall k, In k keys -> In k (visited st)
    | OutOfFuel => False
    end.
Proof.
  intros Hfuel. induction keys as [|k keys IH]; intros HU seen L HI.
  - cbn [search_roots]. exists L. split; [exact HI|].
    split; [reflexivity|]. split; [apply incl_refl|]. intros k [].
  - cbn [search_roots]. destruct (mem k seen) eqn:E; cbn [negb].
    + apply mem_In in E.
      assert (IH' := IH (fun x H => HU x (or_intror H)) seen L HI).
      destruct (search_roots fuel d keys seen) as [c|st|]; auto.
      destruct IH' as [L' [H1 [H2 [H3 H4]]]]. exists L'.
      split; [exact H1|]. split; [exact H2|]. split; [exact H3|].
      intros x [<-|Hx]; auto.
    + apply mem_not_In in E.
      assert (Hk : In k U) by (apply HU; now left).
      assert (Hf : unvisited U seen < fuel)
        by (pose proof (unvisited_le U seen); lia).
      pose proof (has_cycle_ok fuel k (mkDfs seen [] []) L HI Hk E I Hf)
        as Hc.
      destruct (has_cycle fuel d k (mkDfs seen [] [])) as [c|st|];
        [exact Hc| |exact Hc].
      cbn [rec_stack path visited] in Hc.
      destruct Hc as [L' [HI' [Hrs [Hp [Hincl Hkv]]]]].
      assert (HI'' : dfs_inv d (mkDfs (visited st) [] []) L').
      { destruct HI' as [I1 I2 I3 I4 I5]. rewrite Hrs in I3, I4, I5.
        rewrite Hp in I5. constructor; auto. }
      assert (IH' := IH (fun x H => HU x (or_intror H)) (visited st) L' HI'').
      destruct (search_roots fuel d keys (visited st)) as [c|st'|]; auto.
      destruct IH' as [L'' [H1 [H2 [H3 H4]]]]. exists L''.
      split; [exact H1|]. split; [exact H2|]. split.
      * eapply incl_tran; eauto.
      * intros x [<-|Hx]; auto.
Qed.
End Search.

(** ** The dict of the search *)

Lemma dict_lookup_set k v d x :
  dict_lookup x (dict_set k v d)
  = if String.eqb k x then Some v else dict_lookup x d.
Proof.
  induction d as [|[k' v'] r IH]; simpl.
  - reflexivity.
  - destruct (String.eqb k' k) eqn:E; simpl.
    + apply String.eqb_eq in E. subst k'.
      now destruct (String.eqb k x).
    + destruct (String.eqb k' x) eqn:E'.
      * apply String.eqb_eq in E'. subst k'.
        rewrite String.eqb_sym in E. now rewrite E.
      * exact IH.
Qed.

Lemma find_append {A} (f : A -> bool) l1 l2 :
  find f (l1 ++ l2)
  = match find f l1 with Some x => Some x | None => find f l2 end.
Proof.
  induction l1 as [|a l1 IH]; simpl; [reflexivity|].
  now destruct (f a).
Qed.

Lemma build_lookup tasks acc x :
  dict_lookup x
    (fold_left (fun d t => match id t with
                           | Some k => dict_set k t d
                           | None => d
                           end) tasks acc)
  = match find (has_id x) (rev tasks) with
    | Some t => Some t
    | None => dict_lookup x acc
    end.
Proof.
  revert acc. induction tasks as [|t r IH]; intros acc; [reflexivity|].
  cbn [fold_left rev]. rewrite IH, find_append.
  destruct (find (has_id x) (rev r)); [reflexivity|].
  cbn [find]. unfold has_id. destruct (id t) as [k|]; [|reflexivity].
  rewrite dict_lookup_set. now destruct (String.eqb k x).
Qed.

Lemma dict_lookup_keys x d :
  dict_lookup x d <> None <-> In x (map fst d).
Proof.
  induction d as [|[k v] r IH]; simpl; [tauto|].
  destruct (String.eqb k x) eqn:E.
  - apply String.eqb_eq in E. split; [auto | discriminate].
  - apply String.eqb_neq in E. rewrite IH. tauto.
Qed.

Lemma dict_lookup_In x d t : dict_lookup x d = Some t -> In (x, t) d.
Proof.
  induction d as [|[k v] r IH]; simpl; [discriminate|].
  destruct (String.eqb k x) eqn:E.
  - apply String.eqb_eq in E. intros [= ->]. subst. now left.
  - auto.
Qed.

Lemma graph_nodes_closed d a b : edge d a b -> In b (graph_nodes d).
Proof.
  unfold edge, blockers, graph_nodes. intros H.
  destruct (dict_lookup a d) as [t|] eqn:E; [|destruct H].
  apply dict_lookup_In in E. apply in_or_app. right.
  apply in_flat_map. exists (a, t). auto.
Qed.

Lemma edge_key d a b : edge d a b -> In a (map fst d).
Proof.
  unfold edge, blockers. intros H. apply dict_lookup_keys.
  destruct (dict_lookup a d); [discriminate | destruct H].
Qed.

Lemma walk_start_key d a b : walk d a b -> In a (map fst d).
Proof. intros [x y H|x y z H _]; eapply edge_key; eauto. Qed.

Lemma find_has_id x l t : find (has_id x) l = Some t -> In t l /\ id t = Some x.
Proof.
  intros H. apply find_some in H. destruct H as [H1 H2]. split; [exact H1|].
  unfold has_id in H2. destruct (id t) as [k|]; [|discriminate].
  apply String.eqb_eq in H2. now subst.
Qed.

Lemma build_key tasks t x :
  In t tasks -> id t = Some x -> In x (map fst (build_task_dict tasks)).
Proof.
  intros Hin Hid. apply dict_lookup_keys. unfold build_task_dict.
  rewrite build_lookup.
  destruct (find (has_id x) (rev tasks)) eqn:E; [discriminate|].
  apply in_rev in Hin. pose proof (find_none _ _ E t Hin) as H.
  unfold has_id in H. rewrite Hid, String.eqb_refl in H. discriminate.
Qed.

Lemma build_edge tasks a b :
  unique_ids tasks ->
  (edge (build_task_dict tasks) a b <-> blocked_by_edge tasks a b).
Proof.
  intros Hu. unfold edge, blockers, build_task_dict, blocked_by_edge.
  rewrite build_lookup. cbn [dict_lookup]. split.
  - destruct (find (has_id a) (rev tasks)) as [t|] eqn:E; [|intros []].
    apply find_has_id in E. destruct E as [H1 H2]. apply in_rev in H1.
    eauto.
  - intros [t [H1 [H2 H3]]].
    destruct (find (has_id a) (rev tasks)) as [u|] eqn:E.
    + apply find_has_id in E. destruct E as [E1 E2]. apply in_rev in E1.
      now rewrite (unique_ids_same tasks u t a Hu E1 H1 E2 H2).
    + apply in_rev in H1. pose proof (find_none _ _ E t H1) as H.
      unfold has_id in H. rewrite H2, String.eqb_refl in H. discriminate.
Qed.

Lemma search_start d : dfs_inv d (mkDfs [] [] []) [].
Proof.
  constructor; simpl; try tauto. constructor.
Qed.


(** The cycle of the ring is found although the search starts in another
    component and meets a missing id first. *)
Example ring_cycle :
  find_circular_dependencies ring = Cycle ["a1"; "b2"; "c3"; "a1"].
Proof. vm_compute. reflexivity. Qed.

Example chain_no_cycle :
  exists st, find_circular_dependencies chain = NoCycle st.
Proof. vm_compute. eauto. Qed.


(** ** The status a section parses to *)

Lemma parse_status content :
  status (parse_task_section content)
  = Some match checked_label content with
         | Some status_text => status_of_label (strip status_text)
         | None => "open"
         end.
Proof.
  unfold parse_task_section. cbv zeta.
  destruct (match xml_sessions _ _ with [] => _ | _ => _ end);
    destruct (xml_description content);
    try destruct (legacy_description content); reflexivity.
Qed.

Lemma status_of_label_known text :
  In (status_of_label text) ["open"; "in_progress"; "blocked"; "done"].
Proof.
  unfold status_of_label.
  repeat match goal with
         | |- context [if ?b then _ else _] => destruct b
         end; simpl; auto.
Qed.

Lemma checked_label_first s pre r :
  cut "- [x] " s = Some (pre, r) -> take_line r <> "" ->
  checked_label s = Some (take_line r).
Proof.
  revert pre. induction s as [|c s IH]; intros pre Hc Hl.
  - simpl in Hc. discriminate.
  - cbn [cut] in Hc. cbn [checked_label].
    destruct (strip_prefix "- [x] " (String c s)) as [rest|].
    + injection Hc as <- <-. destruct (take_line rest); [congruence|].
      reflexivity.
    + destruct (cut "- [x] " s) as [[a b]|]; [|discriminate].
      injection Hc as <- <-. now apply (IH a).
Qed.

Lemma checked_label_absent s :
  cut "- [x] " s = None -> checked_label s = None.
Proof.
  induction s as [|c s IH]; intros Hc; [reflexivity|].
  cbn [cut] in Hc. cbn [checked_label].
  destruct (strip_prefix "- [x] " (String c s)); [discriminate|].
  destruct (cut "- [x] " s) as [[a b]|]; [discriminate|]. now apply IH.
Qed.

Lemma take_line_whole label rest :
  contains nl label = false -> rest = "" \/ startswith rest nl = true ->
  take_line (label ++ rest)%string = label.
Proof.
  intros Hl Hr. induction label as [|c l IH]; simpl.
  - destruct Hr as [->|Hr]; [reflexivity|].
    destruct rest as [|c r]; [reflexivity|].
    unfold startswith in Hr. cbn [nl strip_prefix] in Hr.
    rewrite Ascii.eqb_sym in Hr. cbn [take_line].
    now destruct (Ascii.eqb c "010").
  - assert (H : Ascii.eqb c "010" = false /\ contains nl l = false).
    { revert Hl. unfold contains. cbn [cut nl strip_prefix].
      rewrite Ascii.eqb_sym. destruct (Ascii.eqb c "010"); [discriminate|].
      destruct (cut nl l) as [[a b]|]; intros H;
        [discriminate | auto]. }
    destruct H as [E Hl']. rewrite E. f_equal. now apply IH.
Qed.

Lemma status_of_label_other text :
  text <> "Open" -> text <> "In Progress" -> text <> "Blocked" ->
  text <> "Done" -> status_of_label text = "open".
Proof.
  intros H1 H2 H3 H4. unfold status_of_label.
  apply String.eqb_neq in H1, H2, H3, H4. now rewrite H1, H2, H3, H4.
Qed.



Local Open Scope string_scope.

(** ** Strings: appending *)

Lemma sapp_assoc (a b c : string) : (a ++ b) ++ c = a ++ (b ++ c).
Proof. induction a as [|x a IH]; simpl; [reflexivity | now rewrite IH]. Qed.

Lemma sapp_nil_r (a : string) : a ++ "" = a.
Proof. induction a as [|x a IH]; simpl; [reflexivity | now rewrite IH]. Qed.

Lemma slength_app (a b : string) :
  String.length (a ++ b) = String.length a + String.length b.
Proof. induction a as [|x a IH]; simpl; [reflexivity | now rewrite IH]. Qed.

Lemma strip_prefix_here (p t : string) : strip_prefix p (p ++ t) = Some t.
Proof.
  induction p as [|x p IH]; simpl; [reflexivity|].
  now rewrite Ascii.eqb_refl.
Qed.

Lemma strip_prefix_some p s r : strip_prefix p s = Some r -> s = p ++ r.
Proof.
  revert s. induction p as [|x p IH]; intros s; simpl.
  - now intros [= ->].
  - destruct s as [|y s]; [discriminate|].
    destruct (Ascii.eqb x y) eqn:E; [|discriminate].
    apply Ascii.eqb_eq in E. subst y. intros H. now rewrite (IH _ H).
Qed.

Lemma startswith_here (p t : string) : startswith (p ++ t) p = true.
Proof. unfold startswith. now rewrite strip_prefix_here. Qed.

(** ** Scans that pass over a text *)

Lemma quiet_over_app f X Y R :
  quiet_over f X (Y ++ R) -> quiet_over f Y R -> quiet_over f (X ++ Y) R.
Proof.
  induction X as [|c X IH]; simpl; [auto|].
  rewrite sapp_assoc. intros [H1 H2] H3. auto.
Qed.

Lemma quiet_over_or f g X R :
  quiet_over f X R -> quiet_over g X R ->
  quiet_over (fun s => f s || g s) X R.
Proof.
  induction X as [|c X IH]; simpl; [auto|].
  intros [H1 H2] [H3 H4]. rewrite H1, H3. auto.
Qed.

Lemma cut_over p X R :
  quiet_over (fun s => startswith s p) X R ->
  cut p (X ++ R) = prepend X (cut p R).
Proof.
  induction X as [|c X IH]; simpl.
  - intros _. now destruct (cut p R) as [[a b]|].
  - unfold startswith at 1. intros [H1 H2].
    destruct (strip_prefix p (String c (X ++ R))); [discriminate|].
    rewrite (IH H2). now destruct (cut p R) as [[a b]|].
Qed.

Lemma cut_here p t : cut p (p ++ t) = Some ("", t).
Proof.
  destruct (p ++ t) eqn:E; cbn [cut]; rewrite <- E, strip_prefix_here;
    reflexivity.
Qed.

Lemma cut_found p X t :
  quiet_over (fun s => startswith s p) X (p ++ t) ->
  cut p (X ++ p ++ t) = Some (X, t).
Proof.
  intros H. rewrite (cut_over _ _ _ H), cut_here. simpl.
  now rewrite sapp_nil_r.
Qed.

Lemma take_until_over stop X R :
  quiet_over stop X R ->
  take_until stop (X ++ R)
  = (X ++ fst (take_until stop R), snd (take_until stop R)).
Proof.
  induction X as [|c X IH]; simpl.
  - intros _. now destruct (take_until stop R).
  - intros [H1 H2]. rewrite H1, (IH H2). reflexivity.
Qed.

Lemma take_until_stop stop R :
  stop R = true -> take_until stop R = ("", R).
Proof. intros H. destruct R; simpl; now rewrite H. Qed.

Lemma take_until_found stop X R :
  quiet_over stop X R -> stop R = true -> take_until stop (X ++ R) = (X, R).
Proof.
  intros H1 H2. rewrite (take_until_over _ _ _ H1), (take_until_stop _ _ H2).
  simpl. now rewrite sapp_nil_r.
Qed.

Lemma checked_label_over X R :
  quiet_over (fun s => startswith s "- [x] ") X R ->
  checked_label (X ++ R) = checked_label R.
Proof.
  induction X as [|c X IH]; [reflexivity|].
  intros [H1 H2]. change (String c X ++ R) with (String c (X ++ R)).
  cbn [checked_label]. unfold startswith in H1.
  destruct (strip_prefix "- [x] " (String c (X ++ R))); [discriminate|].
  now apply IH.
Qed.

Lemma find_stamp_over X R :
  quiet_over (fun s => startswith s "### ") X R ->
  find_stamp (X ++ R) = find_stamp R.
Proof.
  induction X as [|c X IH]; [reflexivity|].
  intros [H1 H2]. change (String c X ++ R) with (String c (X ++ R)).
  cbn [find_stamp]. unfold startswith in H1.
  destruct (strip_prefix "### " (String c (X ++ R))); [discriminate|].
  now apply IH.
Qed.

(** ** When a pattern cannot start inside a text *)

Lemma strip_prefix_get p s r k c :
  strip_prefix p s = Some r -> String.get k p = Some c ->
  String.get k s = Some c.
Proof.
  revert s k. induction p as [|x p IH]; intros s k H Hg.
  - destruct k; discriminate.
  - destruct s as [|y s]; [discriminate|]. simpl in H.
    destruct (Ascii.eqb x y) eqn:E; [|discriminate].
    apply Ascii.eqb_eq in E. subst y.
    destruct k as [|k]; simpl in *; [exact Hg | eauto].
Qed.

Lemma head_free_pred c k R :
  head_free c (S k) R = true -> head_free c k R = true.
Proof.
  revert R. induction k as [|k IH]; intros R H; [reflexivity|].
  destruct R as [|a R]; [reflexivity|].
  cbn [head_free] in *. apply andb_true_iff in H. destruct H as [Ha H].
  rewrite Ha. simpl. now apply IH.
Qed.

Lemma head_free_get c k R :
  head_free c (S k) R = true -> String.get k R <> Some c.
Proof.
  revert R. induction k as [|k IH]; intros [|a R] H; try discriminate;
    cbn [head_free] in H; apply andb_true_iff in H; destruct H as [Ha H].
  - apply negb_true_iff, Ascii.eqb_neq in Ha. simpl. congruence.
  - simpl. now apply IH.
Qed.

Lemma get_char_free c x X R k :
  char_free c (String x X) = true -> head_free c k R = true ->
  String.get k (String x X ++ R) <> Some c.
Proof.
  revert x k. induction X as [|y X IH]; intros x k Hx Hr;
    cbn [char_free] in Hx; apply andb_true_iff in Hx; destruct Hx as [H1 H2];
    apply negb_true_iff, Ascii.eqb_neq in H1.
  - destruct k as [|k]; simpl; [congruence|]. now apply head_free_get.
  - destruct k as [|k]; [simpl; congruence|].
    change (String.get k (String y X ++ R) <> Some c).
    apply IH; [exact H2 | now apply head_free_pred].
Qed.

Lemma quiet_by_char p k c X R :
  String.get k p = Some c -> char_free c X = true ->
  head_free c k R = true ->
  quiet_over (fun s => startswith s p) X R.
Proof.
  intros Hg. induction X as [|x X IH]; intros Hx Hr; simpl; [exact I|].
  split.
  - unfold startswith.
    destruct (strip_prefix p (String x (X ++ R))) eqn:E; [|reflexivity].
    exfalso. apply (get_char_free c x X R k Hx Hr).
    exact (strip_prefix_get _ _ _ _ _ E Hg).
  - apply IH; [|exact Hr]. simpl in Hx. apply andb_true_iff in Hx. tauto.
Qed.

Lemma quiet_at_end X R : R <> "" -> quiet_over at_end X R.
Proof.
  intros HR. induction X as [|x X IH]; simpl; [exact I|].
  split; [|exact IH]. unfold at_end. apply orb_false_iff. split.
  - reflexivity.
  - apply String.eqb_neq. unfold nl. intros [= _ E].
    destruct X; [simpl in E; congruence | discriminate].
Qed.

(** ** Stripping *)

Lemma char_free_app c a b :
  char_free c (a ++ b) = char_free c a && char_free c b.
Proof.
  induction a as [|x a IH]; simpl; [reflexivity|].
  now rewrite IH, andb_assoc.
Qed.

Lemma rstrip_length s : String.length (rstrip s) <= String.length s.
Proof.
  induction s as [|c s IH]; simpl; [lia|].
  destruct (rstrip s); [destruct (isspace c)|]; simpl in *; lia.
Qed.

Lemma lstrip_length s :
  lstrip s = s \/ String.length (lstrip s) < String.length s.
Proof.
  induction s as [|c s IH]; simpl; [now left|].
  destruct (isspace c); [right | now left].
  destruct IH as [-> | IH]; lia.
Qed.

Lemma stripped_parts v : stripped v -> lstrip v = v /\ rstrip v = v.
Proof.
  unfold stripped, strip. intros H.
  destruct (lstrip_length v) as [E | E].
  - rewrite E in H. now split.
  - pose proof (rstrip_length (lstrip v)) as L. rewrite H in L. lia.
Qed.

Lemma rstrip_app a b : rstrip b <> "" -> rstrip (a ++ b) = a ++ rstrip b.
Proof.
  intros H. induction a as [|c a IH]; [reflexivity|].
  change (String c a ++ b) with (String c (a ++ b)). cbn [rstrip].
  rewrite IH. destruct (a ++ rstrip b) eqn:E.
  - destruct a; [simpl in E; congruence | discriminate].
  - simpl. now rewrite E.
Qed.

Lemma rstrip_app_blank a b : rstrip b = "" -> rstrip (a ++ b) = rstrip a.
Proof.
  intros H. induction a as [|c a IH]; [exact H|].
  change (String c a ++ b) with (String c (a ++ b)). cbn [rstrip].
  now rewrite IH.
Qed.

Lemma lstrip_app a b : lstrip a = a -> a <> "" -> lstrip (a ++ b) = a ++ b.
Proof.
  destruct a as [|c a]; [congruence|]. intros H _. simpl in *.
  destruct (isspace c); [|reflexivity].
  exfalso. destruct (lstrip_length a) as [E | E]; rewrite H in E.
  - clear -E. induction a as [|x a IH]; [discriminate|].
    injection E as E1 E2. subst x. auto.
  - simpl in E. lia.
Qed.

Lemma strip_after_space v : stripped v -> strip (String " " v) = v.
Proof. intros H. exact H. Qed.

Lemma stripped_app a b :
  stripped a -> a <> "" -> stripped b -> b <> "" -> stripped (a ++ b).
Proof.
  intros Ha Na Hb Nb. destruct (stripped_parts _ Ha) as [La _].
  destruct (stripped_parts _ Hb) as [_ Rb].
  unfold stripped, strip. rewrite (lstrip_app _ _ La Na).
  rewrite rstrip_app; rewrite Rb; [reflexivity | exact Nb].
Qed.

Lemma strip_label (l v : string) :
  lstrip l = l -> l <> "" -> rstrip l = l -> stripped v ->
  strip (l ++ " " ++ v) = l ++ (if str_falsy v then "" else " " ++ v).
Proof.
  intros Ll Nl Rl Hv. unfold strip. rewrite (lstrip_app _ _ Ll Nl).
  destruct v as [|c v].
  - cbn [str_falsy]. rewrite rstrip_app_blank; [|reflexivity].
    now rewrite Rl, sapp_nil_r.
  - cbn [str_falsy]. destruct (stripped_parts _ Hv) as [_ Rv].
    rewrite rstrip_app; [|rewrite rstrip_app; rewrite Rv; discriminate].
    rewrite rstrip_app; rewrite Rv; [reflexivity | discriminate].
Qed.

Lemma char_free_lstrip c s : char_free c s = true -> char_free c (lstrip s) = true.
Proof.
  induction s as [|x s IH]; simpl; [auto|]. intros H.
  destruct (isspace x); [|exact H].
  apply IH. apply andb_true_iff in H. tauto.
Qed.

Lemma char_free_rstrip c s : char_free c s = true -> char_free c (rstrip s) = true.
Proof.
  induction s as [|x s IH]; simpl; [auto|]. intros H.
  apply andb_true_iff in H. destruct H as [H1 H2]. specialize (IH H2).
  destruct (rstrip s); [destruct (isspace x)|]; simpl in *;
    rewrite ?H1, ?IH; reflexivity.
Qed.

Lemma char_free_strip c s : char_free c s = true -> char_free c (strip s) = true.
Proof. intros H. now apply char_free_rstrip, char_free_lstrip. Qed.

(** ** Lines *)

Lemma split_chr_app c a b :
  split_chr c (a ++ String c b) = (split_chr c a ++ split_chr c b)%list.
Proof.
  induction a as [|x a IH].
  - simpl. rewrite Ascii.eqb_refl. reflexivity.
  - change (String x a ++ String c b) with (String x (a ++ String c b)).
    cbn [split_chr]. rewrite IH.
    destruct (Ascii.eqb x c); [reflexivity|].
    destruct (split_chr c a) eqn:E; [|reflexivity].
    destruct a; simpl in E; [discriminate|].
    destruct (Ascii.eqb a c); [discriminate|].
    destruct (split_chr c a0); discriminate.
Qed.

Lemma split_chr_whole c a : char_free c a = true -> split_chr c a = [a].
Proof.
  induction a as [|x a IH]; simpl; [reflexivity|]. intros H.
  apply andb_true_iff in H. destruct H as [H1 H2].
  apply negb_true_iff in H1. rewrite H1, (IH H2). reflexivity.
Qed.

Lemma split_chr_free c d a :
  char_free c a = true ->
  Forall (fun l => char_free c l = true) (split_chr d a).
Proof.
  induction a as [|x a IH]; simpl; intros H.
  - repeat constructor.
  - apply andb_true_iff in H. destruct H as [H1 H2]. specialize (IH H2).
    destruct (Ascii.eqb x d); [constructor; [reflexivity | exact IH]|].
    destruct (split_chr d a) as [|w ws]; [repeat constructor; simpl; now rewrite H1|].
    inversion IH; subst. constructor; [simpl; now rewrite H1 | assumption].
Qed.

Lemma startswith_star s :
  char_free "*" s = true -> startswith s "**" = false.
Proof.
  destruct s as [|x s]; [reflexivity|]. simpl. intros H.
  apply andb_true_iff in H. destruct H as [H _].
  apply negb_true_iff in H. unfold startswith. cbn [strip_prefix].
  rewrite Ascii.eqb_sym, H. reflexivity.
Qed.

Lemma metadata_line_skip t l : char_free "*" l = true -> metadata_line t l = t.
Proof.
  intros H. unfold metadata_line.
  now rewrite (startswith_star _ (char_free_strip _ _ H)).
Qed.

Lemma metadata_skip X t :
  char_free "*" X = true ->
  fold_left metadata_line (split_chr "010" X) t = t.
Proof.
  intros H. pose proof (split_chr_free "*" "010" X H) as F.
  induction F as [|l ls Hl _ IH]; [reflexivity|].
  simpl. now rewrite (metadata_line_skip _ _ Hl).
Qed.

Lemma metadata_step a r t :
  char_free "010" a = true ->
  fold_left metadata_line (split_chr "010" (a ++ String "010" r)) t
  = fold_left metadata_line (split_chr "010" r) (metadata_line t a).
Proof.
  intros H. rewrite split_chr_app, fold_left_app, (split_chr_whole _ _ H).
  reflexivity.
Qed.

(** ** Character classes *)

Lemma plain_parts s :
  plain s = true ->
  char_free "010" s = true /\ char_free "#" s = true
  /\ char_free "*" s = true /\ char_free "<" s = true
  /\ char_free "[" s = true /\ char_free "," s = true.
Proof.
  unfold plain. intros H.
  repeat (apply andb_true_iff in H; destruct H as [H ?]). tauto.
Qed.

Lemma texty_parts s :
  texty s = true ->
  char_free "#" s = true /\ char_free "*" s = true /\ char_free "<" s = true.
Proof.
  unfold texty. intros H.
  repeat (apply andb_true_iff in H; destruct H as [H ?]). tauto.
Qed.

Lemma concat_free c (ids : list string) :
  char_free c ", " = true ->
  Forall (fun s => char_free c s = true) ids ->
  char_free c (String.concat ", " ids) = true.
Proof.
  intros Hc F. induction F as [|x r Hx F IH]; [reflexivity|].
  destruct r as [|y r]; [exact Hx|].
  change (String.concat ", " (x :: y :: r))
    with (x ++ ", " ++ String.concat ", " (y :: r)).
  now rewrite !char_free_app, Hx, Hc, IH.
Qed.

Lemma reference_free (P : string -> Prop) ids :
  (forall s, plain s = true -> P s) ->
  Forall reference ids -> Forall P ids.
Proof.
  intros HP F. induction F as [|x r [[Hx _] _] _ IH]; constructor; auto.
Qed.

Lemma valid_status_cases st :
  valid_status st = true ->
  st = "open" \/ st = "in_progress" \/ st = "done" \/ st = "blocked".
Proof.
  unfold valid_status, mem. cbn [existsb]. intros H.
  repeat (apply orb_true_iff in H; destruct H as [H | H]);
    try discriminate; apply String.eqb_eq in H; auto.
Qed.

(** ** Finding a pattern after a text *)

Lemma cut_at p X R t :
  quiet_over (fun s => startswith s p) X R ->
  strip_prefix p R = Some t ->
  cut p (X ++ R) = Some (X, t).
Proof.
  intros H E. rewrite (cut_over _ _ _ H).
  destruct R; cbn [cut]; rewrite E; simpl; now rewrite sapp_nil_r.
Qed.

Lemma cut_rest_over p X R :
  quiet_over (fun s => startswith s p) X R ->
  option_map snd (cut p (X ++ R)) = option_map snd (cut p R).
Proof.
  intros H. rewrite (cut_over _ _ _ H). now destruct (cut p R) as [[a b]|].
Qed.

Lemma date_head_app ts d more R :
  date_head ts = Some (d, more) ->
  date_head (ts ++ R) = Some (d, more ++ R) /\ ts = d ++ more.
Proof.
  intros H.
  do 11 (destruct ts as [|? ts]; [discriminate|]).
  cbn [append date_head] in *.
  match type of H with (if ?c then _ else _) = _ => destruct c end;
    [|discriminate].
  injection H as <- <-. split; reflexivity.
Qed.

Lemma find_stamp_eq s :
  find_stamp s
  = match
      match strip_prefix "### " s with
      | Some r => date_head r
      | None => None
      end
    with
    | Some found => Some found
    | None =>
        match s with
        | EmptyString => None
        | String _ s' => find_stamp s'
        end
    end.
Proof. destruct s; reflexivity. Qed.

Lemma find_stamp_here ts d more R :
  date_head ts = Some (d, more) ->
  find_stamp ("### " ++ ts ++ R) = Some (d, more ++ R).
Proof.
  intros H. destruct (date_head_app _ _ _ R H) as [E _].
  rewrite find_stamp_eq, strip_prefix_here, E. reflexivity.
Qed.

Lemma xml_sessions_over fuel X R :
  quiet_over (fun s => startswith s "### ") X R ->
  xml_sessions fuel (X ++ R) = xml_sessions fuel R.
Proof.
  intros H. destruct fuel; [reflexivity|]. cbn [xml_sessions].
  now rewrite (find_stamp_over _ _ H).
Qed.

Lemma legacy_sessions_over fuel X R :
  quiet_over (fun s => startswith s "### ") X R ->
  legacy_sessions fuel (X ++ R) = legacy_sessions fuel R.
Proof.
  intros H. destruct fuel; [reflexivity|]. cbn [legacy_sessions].
  now rewrite (find_stamp_over _ _ H).
Qed.

Lemma xml_sessions_none fuel R :
  find_stamp R = None -> xml_sessions fuel R = [].
Proof. intros H. destruct fuel; [reflexivity|]. cbn [xml_sessions]. now rewrite H. Qed.

Lemma legacy_sessions_none fuel R :
  find_stamp R = None -> legacy_sessions fuel R = [].
Proof. intros H. destruct fuel; [reflexivity|]. cbn [legacy_sessions]. now rewrite H. Qed.

(** A text of known characters is passed by running the scan. *)
Ltac quiet_lit := repeat (split; [reflexivity|]); exact I.

(** A text free of [c] is passed when [c] is the character of the
    pattern at index [k]. *)
Ltac quiet_var k c :=
  apply (quiet_by_char _ k c); [reflexivity | assumption | reflexivity].

Lemma xml_entries ss T fuel :
  Forall storable_session ss -> find_stamp T = None ->
  length ss <= fuel ->
  xml_sessions fuel (entries ss T) = ss.
Proof.
  intros F HT. revert fuel. induction F as [|s r Hs F IH]; intros fuel L.
  - now apply xml_sessions_none.
  - destruct fuel as [|fuel]; [simpl in L; lia|].
    destruct s as [ts lg]. destruct Hs as (Hp & Hd & Ht & Hl).
    cbn [timestamp log] in *. unfold dated in Hd.
    destruct (date_head ts) as [[d more]|] eqn:E; [|discriminate].
    destruct (date_head_app _ _ _ "" E) as [_ Ets].
    apply plain_parts in Hp. destruct Hp as (Hn & _).
    rewrite Ets, char_free_app in Hn. apply andb_true_iff in Hn.
    destruct Hn as [_ Hn].
    apply texty_parts in Ht. destruct Ht as (_ & _ & Ht).
    cbn [entries]. unfold entry. cbn [timestamp log xml_sessions].
    rewrite (find_stamp_over nl) by quiet_lit.
    rewrite !sapp_assoc.
    rewrite (find_stamp_here _ _ _ _ E).
    rewrite (cut_at _ more _ (lg ++ nl ++ "</log>" ++ nl ++ entries r T));
      [|quiet_var 0 "010"%char | reflexivity].
    rewrite (cut_at _ lg _ (nl ++ entries r T));
      [|quiet_var 1 "<"%char | reflexivity].
    rewrite <- Ets, Hl. f_equal.
    rewrite xml_sessions_over by quiet_lit.
    apply IH. simpl in L. lia.
Qed.

(** ** Metadata lines *)

Lemma strip_field (l v : string) :
  lstrip l = l -> l <> "" -> rstrip l = l -> stripped v -> v <> "" ->
  strip (l ++ " " ++ v) = l ++ " " ++ v.
Proof.
  intros Ll Nl Rl Hv Nv. rewrite (strip_label l v Ll Nl Rl Hv).
  destruct v; [congruence | reflexivity].
Qed.

Lemma metadata_step_field l v r t :
  char_free "010" l = true -> char_free "010" v = true ->
  fold_left metadata_line (split_chr "010" (l ++ v ++ nl ++ r)) t
  = fold_left metadata_line (split_chr "010" r) (metadata_line t (l ++ v)).
Proof.
  intros Hl Hv. rewrite <- (metadata_step (l ++ v) r t).
  - now rewrite sapp_assoc.
  - now rewrite char_free_app, Hl, Hv.
Qed.

(** The five metadata lines [generate_markdown_task] writes: the label
    [l], a space and the value [v]. *)
Ltac metadata_value l v Hv :=
  let Nv := fresh "Nv" in
  destruct (String.eqb_spec v "") as [-> | Nv]; [reflexivity|];
  change (metadata_line ?t _) with (metadata_line t (l ++ " " ++ v));
  unfold metadata_line;
  rewrite (strip_field l v eq_refl ltac:(discriminate) eq_refl Hv Nv);
  reflexivity.

Lemma metadata_line_id t v :
  stripped v ->
  metadata_line t ("**ID**: " ++ v)
  = set_id (strip v) t.
Proof. intros Hv. metadata_value "**ID**:" v Hv. Qed.

Lemma metadata_line_created t v :
  stripped v ->
  metadata_line t ("**Created**: " ++ v)
  = set_created_at (strip v) t.
Proof. intros Hv. metadata_value "**Created**:" v Hv. Qed.

Lemma metadata_line_updated t v :
  stripped v ->
  metadata_line t ("**Updated**: " ++ v)
  = set_updated_at (strip v) t.
Proof. intros Hv. metadata_value "**Updated**:" v Hv. Qed.

Lemma metadata_line_blocks t v :
  stripped v ->
  metadata_line t ("**Blocks**: " ++ v)
  = set_blocks (if str_falsy (strip v) then [] else id_list (strip v)) t.
Proof. intros Hv. metadata_value "**Blocks**:" v Hv. Qed.

Lemma metadata_line_blocked_by t v :
  stripped v ->
  metadata_line t ("**Blocked By**: " ++ v)
  = set_blocked_by (if str_falsy (strip v) then [] else id_list (strip v)) t.
Proof. intros Hv. metadata_value "**Blocked By**:" v Hv. Qed.

(** ** Lists of ids *)

Lemma stripped_concat_cons x r :
  Forall reference (x :: r) ->
  stripped (String.concat ", " (x :: r)) /\ String.concat ", " (x :: r) <> "".
Proof.
  revert x. induction r as [|y r IH]; intros x F.
  - inversion F as [|? ? [[_ Hx] Nx] _]; subst. now split.
  - inversion F as [|? ? [[_ Hx] Nx] F']; subst.
    destruct (IH y F') as [HC NC].
    change (String.concat ", " (x :: y :: r))
      with (x ++ ", " ++ String.concat ", " (y :: r)).
    set (C := String.concat ", " (y :: r)) in *.
    destruct (stripped_parts _ Hx) as [Lx Rx].
    destruct (stripped_parts _ HC) as [_ RC].
    assert (E : rstrip (", " ++ C) = ", " ++ C).
    { rewrite rstrip_app; rewrite RC; [reflexivity | exact NC]. }
    split.
    + unfold stripped, strip. rewrite (lstrip_app _ _ Lx Nx).
      rewrite rstrip_app; rewrite E; [reflexivity | discriminate].
    + destruct x; [congruence | discriminate].
Qed.

Lemma stripped_concat ids :
  Forall reference ids -> stripped (String.concat ", " ids).
Proof.
  destruct ids as [|x r]; [reflexivity|]. intros F.
  now destruct (stripped_concat_cons x r F).
Qed.

Lemma split_concat x r :
  Forall reference (x :: r) ->
  split_chr "," (String.concat ", " (x :: r))
  = x :: map (fun y => String " " y) r.
Proof.
  revert x. induction r as [|y r IH]; intros x F;
    inversion F as [|? ? [[Hx _] _] F']; subst;
    apply plain_parts in Hx; destruct Hx as (_ & _ & _ & _ & _ & Hx).
  - now apply split_chr_whole.
  - change (String.concat ", " (x :: y :: r))
      with (x ++ String "," (String " " (String.concat ", " (y :: r)))).
    rewrite split_chr_app, (split_chr_whole _ _ Hx).
    cbn [split_chr]. rewrite (IH y F'). reflexivity.
Qed.

Lemma id_list_concat ids :
  Forall reference ids -> id_list (String.concat ", " ids) = ids.
Proof.
  destruct ids as [|x r]; [reflexivity|]. intros F.
  unfold id_list. rewrite (split_concat x r F).
  inversion F as [|? ? [[_ Hx] Nx] F']; subst.
  cbn [map filter]. rewrite Hx.
  destruct x as [|a x]; [congruence|]. cbn [str_falsy negb]. f_equal.
  clear -F'. induction F' as [|y r [[_ Hy] Ny] _ IH]; [reflexivity|].
  cbn [map filter].
  change (strip (String " " y)) with (strip y). rewrite Hy.
  destruct y as [|b y]; [congruence|]. cbn [str_falsy negb]. now rewrite IH.
Qed.

Lemma id_list_value ids :
  Forall reference ids ->
  (if str_falsy (strip (String.concat ", " ids)) then []
   else id_list (strip (String.concat ", " ids))) = ids.
Proof.
  intros F. pose proof (stripped_concat ids F) as S. unfold stripped in S.
  rewrite S. destruct ids as [|x r]; [reflexivity|].
  destruct (stripped_concat_cons x r F) as [_ N].
  pose proof (id_list_concat (x :: r) F) as I.
  destruct (String.concat ", " (x :: r)); [congruence | exact I].
Qed.

(** ** The metadata loop over a section *)

Lemma metadata_step_blank r t :
  fold_left metadata_line (split_chr "010" (nl ++ r)) t
  = fold_left metadata_line (split_chr "010" r) t.
Proof. exact (metadata_step "" r t eq_refl). Qed.

Lemma metadata_section tid created updated bl bb Z :
  field tid -> field created -> field updated ->
  Forall reference bl -> Forall reference bb ->
  char_free "*" Z = true ->
  fold_left metadata_line
    (split_chr "010"
       (nl ++ "**ID**: " ++ tid ++ nl
        ++ "**Created**: " ++ created ++ nl
        ++ "**Updated**: " ++ updated ++ nl
        ++ "**Blocks**: " ++ String.concat ", " bl ++ nl
        ++ "**Blocked By**: " ++ String.concat ", " bb ++ nl ++ Z))
    empty_task
  = mkTask (Some tid) None None None (Some created) (Some updated)
           (Some bl) (Some bb) None.
Proof.
  intros [Ptid Stid] [Pcr Scr] [Pup Sup] Fbl Fbb HZ.
  apply plain_parts in Ptid, Pcr, Pup.
  destruct Ptid as (Ntid & _), Pcr as (Ncr & _), Pup as (Nup & _).
  assert (Nbl : char_free "010" (String.concat ", " bl) = true).
  { apply concat_free; [reflexivity|].
    apply (reference_free _ _ (fun s H => proj1 (plain_parts s H)) Fbl). }
  assert (Nbb : char_free "010" (String.concat ", " bb) = true).
  { apply concat_free; [reflexivity|].
    apply (reference_free _ _ (fun s H => proj1 (plain_parts s H)) Fbb). }
  rewrite metadata_step_blank.
  rewrite (metadata_step_field "**ID**: " _ _ _ eq_refl Ntid).
  rewrite (metadata_step_field "**Created**: " _ _ _ eq_refl Ncr).
  rewrite (metadata_step_field "**Updated**: " _ _ _ eq_refl Nup).
  rewrite (metadata_step_field "**Blocks**: " _ _ _ eq_refl Nbl).
  rewrite (metadata_step_field "**Blocked By**: " _ _ _ eq_refl Nbb).
  rewrite (metadata_skip _ _ HZ).
  rewrite (metadata_line_blocked_by _ _ (stripped_concat _ Fbb)).
  rewrite (metadata_line_blocks _ _ (stripped_concat _ Fbl)).
  rewrite (metadata_line_updated _ _ Sup), (metadata_line_created _ _ Scr),
    (metadata_line_id _ _ Stid).
  rewrite (id_list_value _ Fbl), (id_list_value _ Fbb), Stid, Scr, Sup.
  reflexivity.
Qed.

(** ** The session section *)

Lemma entries_app ss T U : entries ss T ++ U = entries ss (T ++ U).
Proof.
  induction ss as [|s r IH]; [reflexivity|].
  cbn [entries]. unfold entry. rewrite !sapp_assoc. now rewrite IH.
Qed.

Lemma closing_app ss T U : closing ss T ++ U = closing ss (T ++ U).
Proof.
  destruct ss as [|s r]; [reflexivity|].
  unfold closing. rewrite !sapp_assoc. now rewrite entries_app.
Qed.

Lemma section_app tid created updated bl bb st desc ss T U :
  section tid created updated bl bb st desc ss T ++ U
  = section tid created updated bl bb st desc ss (T ++ U).
Proof.
  unfold section, status_line. rewrite !sapp_assoc.
  now rewrite closing_app.
Qed.

Lemma entries_star ss T :
  Forall storable_session ss -> char_free "*" T = true ->
  char_free "*" (entries ss T) = true.
Proof.
  intros F HT. induction F as [|s r (Hp & _ & Ht & _) _ IH]; [exact HT|].
  apply plain_parts in Hp. destruct Hp as (_ & _ & Hp & _).
  apply texty_parts in Ht. destruct Ht as (_ & Ht & _).
  cbn [entries]. unfold entry. rewrite !char_free_app, Hp, Ht, IH.
  reflexivity.
Qed.

Lemma closing_star ss T :
  Forall storable_session ss -> char_free "*" T = true ->
  char_free "*" (closing ss T) = true.
Proof.
  intros F HT. destruct ss as [|s r]; [exact HT|].
  unfold closing. rewrite !char_free_app, (entries_star _ _ F HT).
  reflexivity.
Qed.

Lemma entries_length ss T : length ss <= String.length (entries ss T).
Proof.
  induction ss as [|s r IH]; [simpl; lia|].
  cbn [entries]. rewrite !slength_app. simpl. lia.
Qed.

Lemma closing_length ss T : length ss <= String.length (closing ss T).
Proof.
  destruct ss as [|s r]; [simpl; lia|].
  unfold closing. rewrite !slength_app.
  pose proof (entries_length (s :: r) T). lia.
Qed.

Lemma section_length tid created updated bl bb st desc ss T :
  length ss
  <= String.length (section tid created updated bl bb st desc ss T).
Proof.
  unfold section. rewrite !slength_app.
  pose proof (closing_length ss T). lia.
Qed.

(** ** Parsing the section of a storable task *)

Section StoredSection.

Variables tid created updated desc : string.
Variables bl bb : list string.
Variable ss : list session.
Variable T : string.

Hypothesis Htid : field tid.
Hypothesis Hcreated : field created.
Hypothesis Hupdated : field updated.
Hypothesis Hbl : Forall reference bl.
Hypothesis Hbb : Forall reference bb.
Hypothesis Hdesc : body desc.
Hypothesis Hss : Forall storable_session ss.
Hypothesis HT : char_free "*" T = true /\ find_stamp T = None.

(** The facts about the single texts that the scans use. *)
Ltac section_facts :=
  pose proof (plain_parts _ (proj1 Htid)) as (? & ? & ? & ? & ? & _);
  pose proof (plain_parts _ (proj1 Hcreated)) as (? & ? & ? & ? & ? & _);
  pose proof (plain_parts _ (proj1 Hupdated)) as (? & ? & ? & ? & ? & _);
  pose proof (texty_parts _ (proj1 Hdesc)) as (? & ? & ?);
  pose proof (concat_free "010" bl eq_refl
    (reference_free _ _ (fun s H => proj1 (plain_parts s H)) Hbl));
  pose proof (concat_free "010" bb eq_refl
    (reference_free _ _ (fun s H => proj1 (plain_parts s H)) Hbb));
  pose proof (concat_free "#" bl eq_refl
    (reference_free _ _ (fun s H => proj1 (proj2 (plain_parts s H))) Hbl));
  pose proof (concat_free "#" bb eq_refl
    (reference_free _ _ (fun s H => proj1 (proj2 (plain_parts s H))) Hbb));
  pose proof (concat_free "*" bl eq_refl
    (reference_free _ _
       (fun s H => proj1 (proj2 (proj2 (plain_parts s H)))) Hbl));
  pose proof (concat_free "*" bb eq_refl
    (reference_free _ _
       (fun s H => proj1 (proj2 (proj2 (plain_parts s H)))) Hbb));
  pose proof (concat_free "[" bl eq_refl
    (reference_free _ _
       (fun s H => proj1 (proj2 (proj2 (proj2 (proj2 (plain_parts s H))))))
       Hbl));
  pose proof (concat_free "[" bb eq_refl
    (reference_free _ _
       (fun s H => proj1 (proj2 (proj2 (proj2 (proj2 (plain_parts s H))))))
       Hbb)).

Lemma section_metadata st :
  valid_status st = true ->
  fold_left metadata_line
    (split_chr "010" (section tid created updated bl bb st desc ss T))
    empty_task
  = mkTask (Some tid) None None None (Some created) (Some updated)
           (Some bl) (Some bb) None.
Proof.
  intros Hst. unfold section.
  apply metadata_section; try assumption.
  section_facts.
  assert (char_free "*" T = true) by exact (proj1 HT).
  unfold status_line.
  rewrite !char_free_app, (closing_star _ _ Hss) by assumption.
  repeat match goal with |- context [String.eqb st ?k] =>
    destruct (String.eqb st k) end;
  repeat (apply andb_true_iff; split); try reflexivity; assumption.
Qed.

Lemma section_status st :
  valid_status st = true ->
  match checked_label (section tid created updated bl bb st desc ss T) with
  | Some status_text => status_of_label (strip status_text)
  | None => "open"
  end = st.
Proof.
  intros Hst. section_facts. unfold section.
  destruct (valid_status_cases _ Hst) as [-> | [-> | [-> | ->]]];
    repeat (rewrite checked_label_over
              by first [quiet_lit | quiet_var 2 "["%char]);
    reflexivity.
Qed.

Lemma section_description st :
  valid_status st = true ->
  xml_description (section tid created updated bl bb st desc ss T)
  = Some desc.
Proof.
  intros Hst. section_facts. unfold xml_description.
  assert (E : exists pre,
    cut ("## Description" ++ nl ++ nl ++ "<description>" ++ nl)
        (section tid created updated bl bb st desc ss T)
    = Some (pre, desc ++ nl ++ "</description>" ++ closing ss T)).
  { unfold section.
    destruct (valid_status_cases _ Hst) as [-> | [-> | [-> | ->]]];
      repeat (rewrite cut_over by first [quiet_lit | quiet_var 0 "#"%char]);
      eexists; reflexivity. }
  destruct E as [pre ->].
  rewrite (cut_at _ desc _ (closing ss T));
    [|quiet_var 1 "<"%char | reflexivity].
  now rewrite (proj2 Hdesc).
Qed.

Lemma section_sessions st fuel :
  valid_status st = true -> length ss <= fuel ->
  xml_sessions fuel (section tid created updated bl bb st desc ss T) = ss.
Proof.
  intros Hst L. section_facts. unfold section.
  assert (ET : find_stamp T = None) by exact (proj2 HT).
  destruct (valid_status_cases _ Hst) as [-> | [-> | [-> | ->]]];
    repeat (rewrite xml_sessions_over
              by first [quiet_lit | quiet_var 0 "#"%char]);
    (destruct ss as [|s r];
     [ now apply xml_sessions_none
     | unfold closing;
       repeat (rewrite xml_sessions_over by quiet_lit);
       now apply xml_entries ]).
Qed.

Lemma section_legacy st fuel :
  valid_status st = true -> ss = [] ->
  legacy_sessions fuel (section tid created updated bl bb st desc ss T) = [].
Proof.
  intros Hst E. section_facts. unfold section. rewrite E.
  assert (ET : find_stamp T = None) by exact (proj2 HT).
  destruct (valid_status_cases _ Hst) as [-> | [-> | [-> | ->]]];
    repeat (rewrite legacy_sessions_over
              by first [quiet_lit | quiet_var 0 "#"%char]);
    now apply legacy_sessions_none.
Qed.

Lemma parse_section st :
  valid_status st = true ->
  parse_task_section (section tid created updated bl bb st desc ss T)
  = mkTask (Some tid) None (Some desc) (Some st) (Some created)
           (Some updated) (Some bl) (Some bb)
           (match ss with [] => None | l => Some l end).
Proof.
  intros Hst. unfold parse_task_section.
  rewrite (section_metadata st Hst), (section_status st Hst),
    (section_description st Hst),
    (section_sessions st _ Hst (section_length _ _ _ _ _ _ _ _ _)).
  generalize (section_legacy st
    (String.length (section tid created updated bl bb st desc ss T)) Hst).
  destruct ss as [|s r]; intros Leg; [rewrite (Leg eq_refl)|]; reflexivity.
Qed.

End StoredSection.

(** ** No task boundary inside a section *)

Lemma quiet_boundary X R :
  quiet_over (fun s => startswith s (nl ++ "---" ++ nl ++ nl ++ "# Task:"))
             X R ->
  quiet_over (fun s => startswith s (nl ++ "# Task:")) X R ->
  R <> "" ->
  quiet_over at_task_boundary X R.
Proof.
  intros H1 H2 HR. pose proof (quiet_at_end X R HR) as H3.
  induction X as [|c X IH]; [exact I|].
  destruct H1 as [A1 B1], H2 as [A2 B2], H3 as [A3 B3].
  split; [|now apply IH].
  unfold at_task_boundary. now rewrite A1, A2, A3.
Qed.

(** A text of one line. *)
Lemma quiet_boundary_line X R :
  char_free "010" X = true -> R <> "" -> quiet_over at_task_boundary X R.
Proof.
  intros HX HR.
  apply quiet_boundary;
    [apply (quiet_by_char _ 0 "010"%char); [reflexivity | exact HX | reflexivity]
    |apply (quiet_by_char _ 0 "010"%char); [reflexivity | exact HX | reflexivity]
    |exact HR].
Qed.

(** A text without [#], when none follows within six characters. *)
Lemma quiet_boundary_body X R :
  char_free "#" X = true -> head_free "#" 6 R = true -> R <> "" ->
  quiet_over at_task_boundary X R.
Proof.
  intros HX H5 HR.
  apply quiet_boundary;
    [apply (quiet_by_char _ 6 "#"%char); [reflexivity | exact HX | exact H5]
    |apply (quiet_by_char _ 1 "#"%char); [reflexivity | exact HX |]
    |exact HR].
  now do 5 apply head_free_pred.
Qed.

Ltac zone_line :=
  apply quiet_boundary_line; [assumption | discriminate].

Ltac zone_body :=
  apply quiet_boundary_body; [assumption | reflexivity | discriminate].

Ltac zones :=
  repeat (apply quiet_over_app; [first [quiet_lit | zone_line] |]).

Lemma entries_quiet ss R :
  Forall storable_session ss ->
  quiet_over at_task_boundary (entries ss "") (nl ++ R).
Proof.
  intros F. induction F as [|s r (Hp & _ & Ht & _) F IH]; [exact I|].
  destruct s as [ts lg]. cbn [timestamp log] in *.
  apply plain_parts in Hp. destruct Hp as (Hp & _).
  apply texty_parts in Ht. destruct Ht as (Ht & _).
  assert (Hb : char_free "#" (nl ++ lg) = true) by exact Ht.
  cbn [entries]. unfold entry. cbn [timestamp log].
  rewrite !sapp_assoc. zones.
  rewrite <- (sapp_assoc nl lg).
  apply quiet_over_app; [zone_body|].
  zones.
  apply quiet_over_app; [|exact IH].
  destruct r; quiet_lit.
Qed.

Lemma closing_quiet ss R :
  Forall storable_session ss ->
  quiet_over at_task_boundary (closing ss "") (nl ++ R).
Proof.
  intros F. destruct ss as [|s r]; [exact I|].
  unfold closing. pose proof (entries_quiet (s :: r) R F) as Q.
  remember (entries (s :: r) "") as E. zones.
  apply quiet_over_app; [subst E; quiet_lit | exact Q].
Qed.

Lemma section_quiet tid created updated bl bb st desc ss R :
  field tid -> field created -> field updated ->
  Forall reference bl -> Forall reference bb ->
  valid_status st = true -> body desc ->
  Forall storable_session ss ->
  quiet_over at_task_boundary
    (section tid created updated bl bb st desc ss "") (nl ++ R).
Proof.
  intros Htid Hcreated Hupdated Hbl Hbb Hst Hdesc Hss.
  pose proof (plain_parts _ (proj1 Htid)) as (? & _).
  pose proof (plain_parts _ (proj1 Hcreated)) as (? & _).
  pose proof (plain_parts _ (proj1 Hupdated)) as (? & _).
  pose proof (texty_parts _ (proj1 Hdesc)) as (Hd & _).
  pose proof (concat_free "010" bl eq_refl
    (reference_free _ _ (fun s H => proj1 (plain_parts s H)) Hbl)).
  pose proof (concat_free "010" bb eq_refl
    (reference_free _ _ (fun s H => proj1 (plain_parts s H)) Hbb)).
  assert (Hb : char_free "#" (nl ++ desc) = true) by exact Hd.
  unfold section.
  destruct (valid_status_cases _ Hst) as [-> | [-> | [-> | ->]]];
    zones;
    rewrite <- (sapp_assoc nl desc);
    (apply quiet_over_app; [zone_body|]);
    zones;
    now apply closing_quiet.
Qed.

(** The section of a task ends at the line feed before the end of the
    document, or before the separator. *)
Lemma section_at_end tid created updated bl bb st desc ss :
  field tid -> field created -> field updated ->
  Forall reference bl -> Forall reference bb ->
  valid_status st = true -> body desc ->
  Forall storable_session ss ->
  take_until at_task_boundary
    (section tid created updated bl bb st desc ss nl)
  = (section tid created updated bl bb st desc ss "", nl).
Proof.
  intros. rewrite <- (section_app _ _ _ _ _ _ _ _ "" nl).
  apply take_until_found; [|reflexivity].
  now apply (section_quiet tid created updated bl bb st desc ss "").
Qed.

Lemma section_at_separator tid created updated bl bb st desc ss R :
  field tid -> field created -> field updated ->
  Forall reference bl -> Forall reference bb ->
  valid_status st = true -> body desc ->
  Forall storable_session ss ->
  take_until at_task_boundary
    (section tid created updated bl bb st desc ss nl
     ++ separator ++ "# Task: " ++ R)
  = (section tid created updated bl bb st desc ss nl,
     separator ++ "# Task: " ++ R).
Proof.
  intros. apply take_until_found; [|reflexivity].
  rewrite <- (section_app _ _ _ _ _ _ _ _ "" nl).
  apply quiet_over_app; [now apply section_quiet | quiet_lit].
Qed.

(** ** The document of a storable task *)

Lemma concat_empty_sep x xs :
  String.concat "" (x :: xs) = x ++ String.concat "" xs.
Proof. destruct xs; [now rewrite sapp_nil_r | reflexivity]. Qed.

Lemma render_entries ss :
  nl ++ String.concat "" (map render_session ss) = entries ss nl.
Proof.
  induction ss as [|s r IH]; [reflexivity|].
  cbn [map entries]. rewrite concat_empty_sep, <- IH.
  unfold render_session, entry. now rewrite !sapp_assoc.
Qed.

Lemma render_closing ss : nl ++ render_sessions ss = closing ss nl.
Proof.
  destruct ss as [|s r]; [reflexivity|].
  unfold render_sessions, closing. rewrite <- render_entries.
  reflexivity.
Qed.

Lemma storable_inv t :
  storable t ->
  exists tid ttl st created updated,
    id t = Some tid /\ title t = Some ttl /\ status t = Some st
    /\ created_at t = Some created /\ updated_at t = Some updated
    /\ field tid /\ headline ttl /\ valid_status st = true
    /\ field created /\ field updated
    /\ Forall reference (blocks_of t)
    /\ Forall reference (blocked_by_of t)
    /\ body (description_of t)
    /\ Forall storable_session (sessions_of t).
Proof.
  unfold storable.
  destruct (id t) as [tid|], (title t) as [ttl|], (status t) as [st|],
    (created_at t) as [created|], (updated_at t) as [updated|];
    try contradiction.
  intros H. exists tid, ttl, st, created, updated. tauto.
Qed.

Lemma generate_section t tid ttl st created updated :
  id t = Some tid -> title t = Some ttl -> status t = Some st ->
  created_at t = Some created -> updated_at t = Some updated ->
  generate_markdown_task t
  = Ok ("# Task: " ++ ttl ++ nl
        ++ section tid created updated (blocks_of t) (blocked_by_of t) st
             (description_of t) (sessions_of t) nl).
Proof.
  intros E1 E2 E3 E4 E5. unfold generate_markdown_task.
  rewrite E1, E2, E3, E4, E5. cbn [bind getitem].
  unfold section. rewrite <- render_closing. reflexivity.
Qed.

Lemma task_sections_over fuel X R :
  quiet_over (fun s => startswith s "# Task: ") X R ->
  task_sections fuel (X ++ R) = task_sections fuel R.
Proof.
  intros H. destruct fuel; [reflexivity|]. cbn [task_sections].
  rewrite (cut_over _ _ _ H). now destruct (cut "# Task: " R) as [[a b]|].
Qed.

(** The first match of the task pattern on a document that starts with a
    task. *)
Lemma task_sections_first fuel ttl S R :
  headline ttl ->
  take_until at_task_boundary S = (R, snd (take_until at_task_boundary S)) ->
  task_sections (Datatypes.S fuel) ("# Task: " ++ ttl ++ nl ++ S)
  = (ttl, R) :: task_sections fuel (snd (take_until at_task_boundary S)).
Proof.
  intros [Hn _] E. cbn [task_sections].
  rewrite cut_here.
  rewrite (cut_at nl ttl (nl ++ S) S);
    [|quiet_var 0 "010"%char | reflexivity].
  now rewrite E.
Qed.

Lemma reloaded_section t tid ttl st created updated T :
  id t = Some tid -> title t = Some ttl -> status t = Some st ->
  created_at t = Some created -> updated_at t = Some updated ->
  field tid -> headline ttl -> valid_status st = true ->
  field created -> field updated ->
  Forall reference (blocks_of t) -> Forall reference (blocked_by_of t) ->
  body (description_of t) -> Forall storable_session (sessions_of t) ->
  char_free "*" T = true /\ find_stamp T = None ->
  set_title (strip ttl)
    (parse_task_section
       (section tid created updated (blocks_of t) (blocked_by_of t) st
          (description_of t) (sessions_of t) T))
  = reloaded t.
Proof.
  intros E1 E2 E3 E4 E5 Htid [_ Hs] Hst Hcr Hup Hbl Hbb Hd Hss HT.
  rewrite parse_section by assumption.
  unfold reloaded. rewrite E1, E2, E3, E4, E5, Hs.
  destruct (sessions_of t); reflexivity.
Qed.

(** ** The document of a storable collection *)

Lemma sections_saved tasks :
  Forall storable tasks ->
  exists text,
    md_save_tasks tasks = Ok text
    /\ length tasks <= String.length text
    /\ (tasks <> [] -> exists R, text = "# Task: " ++ R)
    /\ forall fuel, length tasks <= fuel ->
         map (fun m => set_title (strip (fst m))
                         (parse_task_section (snd m)))
             (task_sections fuel text)
         = map reloaded tasks.
Proof.
  intros F. induction F as [|t r Ht F IH].
  - exists "". repeat split; [simpl; lia | congruence |].
    intros [|fuel] _; reflexivity.
  - destruct (storable_inv t Ht)
      as (tid & ttl & st & created & updated & E1 & E2 & E3 & E4 & E5
          & Htid & Httl & Hst & Hcr & Hup & Hbl & Hbb & Hd & Hss).
    pose proof (generate_section t _ _ _ _ _ E1 E2 E3 E4 E5) as G.
    set (sec := section tid created updated (blocks_of t) (blocked_by_of t)
                  st (description_of t) (sessions_of t)) in *.
    destruct IH as (rest & Er & Lr & Hr & IH).
    destruct r as [|t' r'].
    + exists ("# Task: " ++ ttl ++ nl ++ sec nl).
      split; [cbn [md_save_tasks]; rewrite G; reflexivity|].
      split; [simpl; lia|]. split; [intros _; eexists; reflexivity|].
      intros [|fuel] L; [simpl in L; lia|].
      rewrite (task_sections_first fuel ttl (sec nl) (sec "") Httl);
        [|unfold sec; rewrite section_at_end by assumption; reflexivity].
      unfold sec. rewrite section_at_end by assumption.
      cbn [snd map fst]. f_equal.
      * apply reloaded_section; try (split; reflexivity); auto.
      * destruct fuel; reflexivity.
    + destruct (Hr ltac:(discriminate)) as [R ER]. subst rest.
      exists ("# Task: " ++ ttl ++ nl ++ sec nl ++ separator
              ++ "# Task: " ++ R).
      split.
      { change (md_save_tasks (t :: t' :: r'))
          with (bind (generate_markdown_task t) (fun md =>
                  bind (md_save_tasks (t' :: r')) (fun rest =>
                    Ok (md ++ separator ++ rest)))).
        rewrite G, Er. cbn [bind]. now rewrite !sapp_assoc. }
      split.
      { rewrite !slength_app. simpl String.length.
        simpl length in *. rewrite slength_app in Lr.
        simpl String.length in Lr. lia. }
      split; [intros _; eexists; reflexivity|].
      intros [|fuel] L; [simpl in L; lia|].
      rewrite (task_sections_first fuel ttl _ (sec nl) Httl);
        [|unfold sec; rewrite section_at_separator by assumption;
          reflexivity].
      unfold sec. rewrite section_at_separator by assumption.
      cbn [snd map fst]. f_equal.
      * apply reloaded_section; try (split; reflexivity); auto.
      * rewrite task_sections_over by quiet_lit.
        apply IH. simpl in *. lia.
Qed.

Lemma load_saved tasks :
  Forall storable tasks ->
  exists text,
    md_save_tasks tasks = Ok text /\ md_load_tasks text = map reloaded tasks.
Proof.
  intros F. destruct (sections_saved tasks F) as (text & E & L & _ & H).
  exists text. split; [exact E|]. now apply H.
Qed.

Lemma task_data_reloaded t : task_data (reloaded t) = task_data t.
Proof.
  unfold task_data, reloaded, blocks_of, blocked_by_of, description_of,
    sessions_of. cbn.
  destruct (sessions t) as [[|s r]|]; reflexivity.
Qed.

(** ** Round trip *)

(** A sample collection is storable by running the checks. *)
Ltac storable_sample :=
  repeat first
    [ apply Forall_nil
    | apply Forall_cons
    | split
    | reflexivity
    | discriminate ].




(** ** Rule lines *)




(** ** Resolving a prefix to one position *)

Lemma matches_from_none k prefix ts :
  Forall printable ts ->
  (forall j, j < length ts -> startswith (id_at ts j) prefix = false) ->
  matches_from k prefix ts = Ok [].
Proof.
  intros F. revert k. induction F as [|t r [Hi _] _ IH]; intros k H;
    [reflexivity|].
  cbn [matches_from]. destruct (id t) as [x|] eqn:E; [|congruence].
  cbn [getitem bind]. rewrite IH.
  - cbn [bind]. specialize (H 0 ltac:(simpl; lia)).
    unfold id_at, task_at in H. cbn [nth] in H. rewrite E in H.
    now rewrite H.
  - intros j Hj. apply (H (S j)). simpl. lia.
Qed.

Lemma matches_from_single k prefix ts i :
  Forall printable ts -> i < length ts ->
  (forall j, j < length ts ->
     (startswith (id_at ts j) prefix = true <-> j = i)) ->
  matches_from k prefix ts = Ok [k + i].
Proof.
  intros F. revert k i. induction F as [|t r [Hi _] F IH]; intros k i L H;
    [simpl in L; lia|].
  cbn [matches_from]. destruct (id t) as [x|] eqn:E; [|congruence].
  cbn [getitem bind].
  assert (H0 : startswith x prefix = true <-> 0 = i).
  { specialize (H 0 ltac:(simpl; lia)).
    unfold id_at, task_at in H. cbn [nth] in H. now rewrite E in H. }
  destruct i as [|i].
  - rewrite (matches_from_none _ _ _ F).
    + cbn [bind]. rewrite (proj2 H0 eq_refl). now rewrite Nat.add_0_r.
    + intros j Hj. specialize (H (S j) ltac:(simpl; lia)).
      change (id_at (t :: r) (S j)) with (id_at r j) in H.
      destruct (startswith (id_at r j) prefix); [|reflexivity].
      destruct H as [H _]. specialize (H eq_refl). discriminate.
  - rewrite (IH (S k) i).
    + cbn [bind]. destruct (startswith x prefix).
      * destruct H0 as [H0 _]. specialize (H0 eq_refl). discriminate.
      * f_equal. f_equal. lia.
    + simpl in L. lia.
    + intros j Hj. specialize (H (S j) ltac:(simpl; lia)).
      change (id_at (t :: r) (S j)) with (id_at r j) in H.
      rewrite H. split; [now intros [= ->] | now intros ->].
Qed.

Lemma find_task_found tasks prefix i :
  Forall printable tasks -> prefix <> "" -> i < length tasks ->
  (forall j, j < length tasks ->
     (startswith (id_at tasks j) prefix = true <-> j = i)) ->
  find_task tasks prefix = Ok (Found i).
Proof.
  intros F Hp L H. unfold find_task.
  destruct prefix; [congruence|]. cbn [str_falsy].
  now rewrite (matches_from_single 0 _ _ i F L H).
Qed.

(** A position whose id starts with the prefix is among the matches. *)
Lemma matches_from_In k prefix ts i ms :
  matches_from k prefix ts = Ok ms -> i < length ts ->
  startswith (id_at ts i) prefix = true -> In (k + i) ms.
Proof.
  revert k i ms. induction ts as [|t r IH]; intros k i ms E L H;
    [simpl in L; lia|].
  cbn [matches_from] in E. destruct (id t) as [x|] eqn:Ex; [|discriminate].
  cbn [getitem bind] in E.
  destruct (matches_from (S k) prefix r) as [ms'|] eqn:E'; [|discriminate].
  cbn [bind] in E. injection E as <-.
  destruct i as [|i].
  - unfold id_at, task_at in H. cbn [nth] in H. rewrite Ex in H.
    rewrite H, Nat.add_0_r. now left.
  - assert (In (S k + i) ms').
    { apply (IH _ _ _ E'); [simpl in L; lia | exact H]. }
    replace (k + S i) with (S k + i) by lia.
    destruct (startswith x prefix); [now right | assumption].
Qed.

(** ** Short ids *)

Lemma take_chars_prefix n s : startswith s (take_chars n s) = true.
Proof.
  unfold startswith. revert s. induction n as [|n IH]; intros [|c s];
    try reflexivity.
  cbn [take_chars strip_prefix]. rewrite Ascii.eqb_refl. apply IH.
Qed.

Lemma take_chars_length n s : String.length (take_chars n s) <= n.
Proof.
  revert s. induction n as [|n IH]; intros [|c s]; simpl; try lia.
  specialize (IH s). lia.
Qed.

Lemma startswith_same_length s p :
  startswith s p = true -> String.length s = String.length p -> s = p.
Proof.
  unfold startswith. intros H L.
  destruct (strip_prefix p s) as [r|] eqn:E; [|discriminate].
  apply strip_prefix_some in E. subst s.
  rewrite slength_app in L. destruct r; [now rewrite sapp_nil_r|].
  simpl in L. lia.
Qed.

Lemma startswith_refl s : startswith s s = true.
Proof.
  unfold startswith. induction s as [|c s IH]; [reflexivity|].
  cbn [strip_prefix]. now rewrite Ascii.eqb_refl.
Qed.

(** The id a listing shows, [get_short_id], names its task: it has at
    most eight characters and the id starts with it, so [find_task]
    given the short id of a task never reports that no task was found;
    and it returns that task when no other id starts with the same
    characters. *)
Theorem short_id_resolves (tasks : list task) (i : nat) (tid : string) :
  Forall printable tasks -> i < length tasks ->
  id (task_at tasks i) = Some tid -> tid <> "" ->
  String.length (get_short_id tid) <= 8 /\
  startswith tid (get_short_id tid) = true /\
  find_task tasks (get_short_id tid) <> Ok NotFound /\
  find_task tasks (get_short_id tid) <> Ok NoPrefix /\
  ((forall j, j < length tasks -> j <> i ->
      startswith (id_at tasks j) (get_short_id tid) = false) ->
   find_task tasks (get_short_id tid) = Ok (Found i)).
Proof.
  intros F L E N.
  assert (Hs : startswith tid (get_short_id tid) = true)
    by apply take_chars_prefix.
  assert (Hn : get_short_id tid <> "") by (destruct tid; [congruence | discriminate]).
  assert (Hi : id_at tasks i = tid) by (unfold id_at; now rewrite E).
  split; [apply take_chars_length|]. split; [exact Hs|].
  split; [|split].
  - unfold find_task. destruct (get_short_id tid) eqn:G; [congruence|].
    cbn [str_falsy]. rewrite <- G in *.
    destruct (matches_positions (get_short_id tid) tasks F) as [ms [Em _]].
    rewrite Em. cbn [bind].
    pose proof (matches_from_In 0 _ _ i ms Em L) as Hin.
    rewrite Hi in Hin. specialize (Hin Hs).
    destruct ms as [|m1 [|m2 r]]; [destruct Hin | discriminate|].
    match goal with |- context [map_result ?f ?l] =>
      destruct (map_result f l) end; discriminate.
  - unfold find_task. destruct (get_short_id tid) eqn:G; [congruence|].
    cbn [str_falsy].
    destruct (matches_from 0 _ tasks) as [[|m1 [|m2 r]]|]; cbn [bind];
      try discriminate.
    match goal with |- context [map_result ?f ?l] =>
      destruct (map_result f l) end; discriminate.
  - intros H. apply find_task_found; try assumption.
    intros j Hj. split.
    + intros Hm. destruct (Nat.eq_dec j i) as [->|Hne]; [reflexivity|].
      rewrite (H j Hj Hne) in Hm. discriminate.
    + intros ->. now rewrite Hi.
Qed.

Lemma short_id_resolves_witness :
  find_task chain (get_short_id "b2") = Ok (Found 1).
Proof.
  apply (short_id_resolves chain 1 "b2");
    [repeat constructor; simpl; discriminate | simpl; lia | reflexivity
    | discriminate |].
  intros [|[|[|j]]] Hj Hne; try reflexivity; [congruence | simpl in Hj; lia].
Defined.

(** A full id names its task when ids are unique and all of one length,
    as the ids [uuid4().hex] gives are: [find_task] returns the task at
    that position. *)
Theorem full_id_resolves (tasks : list task) (i : nat) (tid : string) :
  Forall printable tasks -> unique_ids tasks -> i < length tasks ->
  id (task_at tasks i) = Some tid -> tid <> "" ->
  (forall j, j < length tasks ->
     String.length (id_at tasks j) = String.length tid) ->
  find_task tasks tid = Ok (Found i).
Proof.
  intros F U L E N Hlen. apply find_task_found; try assumption.
  assert (Hi : id_at tasks i = tid) by (unfold id_at; now rewrite E).
  intros j Hj. split.
  - intros Hm.
    pose proof (startswith_same_length _ _ Hm (Hlen j Hj)) as Ej.
    apply (unique_ids_position tasks j i tid U Hj L); [|exact E].
    rewrite Forall_forall in F.
    destruct (F _ (task_at_In _ _ Hj)) as [Hid _].
    unfold id_at in Ej. destruct (id (task_at tasks j)); congruence.
  - intros ->. rewrite Hi. apply startswith_refl.
Qed.

Lemma full_id_resolves_witness : find_task chain "c3" = Ok (Found 2).
Proof.
  apply (full_id_resolves chain 2 "c3");
    [repeat constructor; simpl; discriminate
    | unfold unique_ids; simpl;
      repeat (constructor; [simpl; intuition discriminate|]); constructor
    | simpl; lia | reflexivity | discriminate |].
  intros [|[|[|j]]] Hj; try reflexivity. simpl in Hj. lia.
Defined.

(** ** An empty entry in a list of ids *)

Lemma first_match_blank t r :
  id t <> None -> first_match (t :: r) "" = Ok (Some 0).
Proof.
  unfold first_match. cbn [first_match_from].
  destruct (id t) as [x|]; [|congruence]. intros _. cbn [getitem bind].
  now destruct x.
Qed.

(** An entry of [--add-blocks] that is empty once stripped is not
    skipped: every id starts with the empty prefix, so the entry names
    the first task of the file, whatever [find_task] does with an empty
    prefix.  The command's task then blocks the first task, itself when
    it is the first. *)
Theorem blank_entry_names_first_task (now tp : string) (tasks : list task)
    (i : nat) :
  Forall readable tasks -> find_task tasks tp = Ok (Found i) ->
  find_task tasks "" = Ok NoPrefix /\
  exists ts',
    cmd_update now (with_add_blocks tp " ") tasks = Ok (Saved ts') /\
    In (id_at tasks i) (blocked_by_of (task_at ts' 0)) /\
    In (id_at tasks 0) (blocks_of (task_at ts' i)).
Proof.
  intros Hr Hf. split; [reflexivity|].
  destruct tasks as [|t r].
  { unfold find_task in Hf. destruct tp; discriminate. }
  assert (Hm : first_match (t :: r) "" = Ok (Some 0)).
  { apply first_match_blank. inversion Hr as [|? ? [H _] _]. exact H. }
  destruct (update_add_blocks_shape now tp " " "" (t :: r) i 0 Hr Hf
              ltac:(discriminate) eq_refl Hm) as (Li & L0 & E).
  eexists. split; [exact E|].
  set (ts0 := mutate i (set_updated_at now) (t :: r)).
  assert (Li0 : i < length ts0) by (unfold ts0; now rewrite mutate_length).
  assert (L00 : 0 < length ts0) by (unfold ts0; now rewrite mutate_length).
  assert (Hid : forall k, id_at ts0 k = id_at (t :: r) k).
  { intros k. unfold id_at, ts0. rewrite task_at_mutate by exact Li.
    now destruct (Nat.eqb k i). }
  rewrite !on_edge_at by assumption. rewrite !Hid, !Nat.eqb_refl. split.
  - rewrite gain_blocker_blocked_by. apply In_add_if_absent. now left.
  - destruct (Nat.eqb i 0).
    + unfold blocks_of. rewrite gain_blocker_blocks.
      fold (blocks_of (gain_block None (id_at (t :: r) 0) (task_at ts0 i))).
      rewrite gain_block_blocks. apply In_add_if_absent. now left.
    + rewrite gain_block_blocks. apply In_add_if_absent. now left.
Qed.

Lemma blank_entry_names_first_task_witness :
  exists ts',
    cmd_update later (with_add_blocks "c3" " ") chain = Ok (Saved ts') /\
    In "c3" (blocked_by_of (task_at ts' 0)) /\
    In "a1" (blocks_of (task_at ts' 2)).
Proof.
  apply (blank_entry_names_first_task later "c3" chain 2);
    [repeat constructor; simpl; discriminate | reflexivity].
Defined.

(** ** Updates that touch no edge *)

Lemma edge_loop_absent step arg st :
  given arg = None -> edge_loop step arg st = Ok st.
Proof. unfold edge_loop. now intros ->. Qed.

Lemma status_part_absent now args i st :
  given (arg_status args) = None -> status_part now args i st = Ok (Some st).
Proof. unfold status_part. destruct st. now intros ->. Qed.

(** Without edge options and status the command is its first half. *)
Lemma update_first_half now args tasks i :
  find_task tasks (arg_id args) = Ok (Found i) ->
  given (arg_add_blocks args) = None ->
  given (arg_add_blocked_by args) = None ->
  given (arg_remove_blocks args) = None ->
  given (arg_remove_blocked_by args) = None ->
  given (arg_status args) = None ->
  cmd_update now args tasks
  = Ok match
         delete_log_part args i
           (let st := (mutate i (set_updated_at now) tasks, false) in
            let st := match given (arg_title args) with
                      | Some v => (mutate i (set_title v) (fst st), true)
                      | None => st
                      end in
            match arg_description args with
            | Some v => (mutate i (set_description v) (fst st), true)
            | None => st
            end)
       with
       | None => NotSaved
       | Some st =>
           if snd (log_part now args i st)
           then Saved (fst (log_part now args i st))
           else NotSaved
       end.
Proof.
  intros Hf H1 H2 H3 H4 H5. unfold cmd_update. rewrite Hf. cbn [bind].
  cbv zeta.
  match goal with |- context [delete_log_part args i ?s] =>
    destruct (delete_log_part args i s) as [st|] end; [|reflexivity].
  rewrite !edge_loop_absent by assumption. cbn [bind].
  rewrite !edge_loop_absent by assumption. cbn [bind].
  rewrite !edge_loop_absent by assumption. cbn [bind].
  rewrite !edge_loop_absent by assumption. cbn [bind].
  rewrite status_part_absent by assumption. cbn [bind].
  destruct (log_part now args i st) as [ts u]. reflexivity.
Qed.

(** An update with [--title], [--description] and [--log] only.  When
    none of them is given, an empty title or log counting as not given,
    nothing is saved.  Otherwise the collection is saved with one task
    changed, the command's: its [updated_at] is the time of the command,
    its title and description are those given, its session list has one
    more entry at the end, made of that time and the log text; its id,
    status, creation date and edges are as before. *)
Theorem metadata_update_effect (now : string) (args : update_args)
    (tasks : list task) (i : nat) :
  Forall printable tasks ->
  find_task tasks (arg_id args) = Ok (Found i) ->
  only_metadata args ->
  (metadata_given args = false -> cmd_update now args tasks = Ok NotSaved) /\
  (metadata_given args = true ->
   exists ts',
     cmd_update now args tasks = Ok (Saved ts') /\
     length ts' = length tasks /\
     (forall k, k <> i -> task_at ts' k = task_at tasks k) /\
     let t := task_at tasks i in
     let t' := task_at ts' i in
     id t' = id t /\ status t' = status t /\ created_at t' = created_at t /\
     blocks t' = blocks t /\ blocked_by t' = blocked_by t /\
     updated_at t' = Some now /\
     title t' = match given (arg_title args) with
                | Some v => Some v
                | None => title t
                end /\
     description t' = match arg_description args with
                      | Some v => Some v
                      | None => description t
                      end /\
     sessions t' = match given (arg_log args) with
                   | Some text =>
                       Some (sessions_of t ++ [mkSession now text])%list
                   | None => sessions t
                   end).
Proof.
  intros Hp Hf (Hd & H1 & H2 & H3 & H4 & H5).
  destruct (find_task_ok tasks (arg_id args) Hp) as [r [E Hi]].
  rewrite Hf in E. injection E as <-. specialize (Hi i eq_refl).
  rewrite (update_first_half now args tasks i Hf H1 H2 H3 H4 H5).
  unfold delete_log_part, log_part, metadata_given. rewrite Hd. cbv zeta.
  destruct (given (arg_title args)) as [v1|],
           (arg_description args) as [v2|],
           (given (arg_log args)) as [v3|];
    cbn [fst snd present orb];
    (split; [try discriminate; try reflexivity|]);
    try (intros; discriminate);
    intros _; rewrite ?mutate_mutate;
    (eexists; split; [reflexivity|]);
    (split; [apply mutate_length|]);
    (split; [intros k Hk; rewrite task_at_mutate by exact Hi;
             apply Nat.eqb_neq in Hk; now rewrite Hk|]);
    rewrite task_at_mutate_same by exact Hi;
    repeat split.
Qed.

Lemma metadata_update_effect_witness :
  exists ts',
    cmd_update later
      (mkArgs "b2" (Some "") (Some "") None (Some "seen")
              None None None None None) chain = Ok (Saved ts') /\
    sessions (task_at ts' 1) = Some [mkSession later "seen"] /\
    title (task_at ts' 1) = Some "B" /\
    description (task_at ts' 1) = Some "".
Proof.
  destruct (proj2 (metadata_update_effect later
              (mkArgs "b2" (Some "") (Some "") None (Some "seen")
                      None None None None None) chain 1
              ltac:(repeat constructor; simpl; discriminate)
              eq_refl ltac:(repeat split)) eq_refl)
    as (ts' & E & _ & _ & _ & _ & _ & _ & _ & _ & Ht & Hd & Hs).
  exists ts'. split; [exact E|]. split; [exact Hs|].
  split; [exact Ht | exact Hd].
Defined.

(** ** Deleting a session log *)

Lemma pop_at_split {A} k (l : list A) :
  pop_at k l = (firstn k l ++ skipn (S k) l)%list.
Proof.
  revert k. induction l as [|x r IH]; intros [|k]; try reflexivity.
  cbn [pop_at firstn skipn app]. f_equal. apply IH.
Qed.

(** What the task of the command holds when [--delete-log] is looked
    at: the sessions it was loaded with. *)
Lemma sessions_before_delete now args tasks i :
  i < length tasks ->
  sessions
    (task_at
       (fst (let st := (mutate i (set_updated_at now) tasks, false) in
             let st := match given (arg_title args) with
                       | Some v => (mutate i (set_title v) (fst st), true)
                       | None => st
                       end in
             match arg_description args with
             | Some v => (mutate i (set_description v) (fst st), true)
             | None => st
             end)) i)
  = sessions (task_at tasks i).
Proof.
  intros Hi. cbv zeta.
  destruct (given (arg_title args)), (arg_description args); cbn [fst];
    rewrite ?mutate_mutate, task_at_mutate_same by exact Hi; reflexivity.
Qed.

(** [--delete-log] with an index that names no session, negative, past
    the end, or on a task without session list: the command saves
    nothing, whatever else it was asked to do. *)
Theorem bad_log_index_saves_nothing (now : string) (args : update_args)
    (tasks : list task) (i : nat) (k : Z) :
  Forall printable tasks ->
  find_task tasks (arg_id args) = Ok (Found i) ->
  arg_delete_log args = Some k ->
  (k < 0 \/ Z.of_nat (length (sessions_of (task_at tasks i))) <= k
   \/ sessions (task_at tasks i) = None)%Z ->
  cmd_update now args tasks = Ok NotSaved.
Proof.
  intros Hp Hf Hk Hbad.
  destruct (find_task_ok tasks (arg_id args) Hp) as [r [E Hi]].
  rewrite Hf in E. injection E as <-. specialize (Hi i eq_refl).
  pose proof (sessions_before_delete now args tasks i Hi) as Hs.
  unfold cmd_update. rewrite Hf. cbn [bind]. cbv zeta in *.
  match goal with |- context [delete_log_part args i ?s] =>
    set (st := s) in * end.
  unfold delete_log_part. rewrite Hk. destruct st as [ts u].
  cbn [fst] in Hs. rewrite Hs. unfold sessions_of in Hbad.
  destruct (sessions (task_at tasks i)) as [l|]; [|reflexivity].
  destruct ((k <? 0)%Z || (Z.of_nat (length l) <=? k)%Z) eqn:B;
    [reflexivity|].
  apply orb_false_iff in B. destruct B as [B1 B2].
  apply Z.ltb_ge in B1. apply Z.leb_gt in B2.
  destruct Hbad as [H | [H | H]]; [lia | lia | discriminate].
Qed.

Lemma bad_log_index_saves_nothing_witness :
  cmd_update later
    (mkArgs "a1" (Some "New title") None (Some 2%Z) (Some "note")
            (Some "c3") None None None (Some "done")) journal
  = Ok NotSaved.
Proof.
  apply (bad_log_index_saves_nothing later _ journal 0 2%Z);
    [repeat constructor; simpl; discriminate | reflexivity | reflexivity
    | right; left; simpl; lia].
Defined.

(** [--delete-log k] alone, [k] naming a session: the collection is
    saved with the task of the command changed, and nothing else; its
    session list is the old one without entry [k], the others in their
    order, and its [updated_at] is the time of the command. *)
Theorem delete_log_effect (now : string) (args : update_args)
    (tasks : list task) (i : nat) (k : nat) (l : list session) :
  Forall printable tasks ->
  find_task tasks (arg_id args) = Ok (Found i) ->
  only_delete_log args ->
  arg_delete_log args = Some (Z.of_nat k) ->
  sessions (task_at tasks i) = Some l -> k < length l ->
  exists ts',
    cmd_update now args tasks = Ok (Saved ts') /\
    length ts' = length tasks /\
    (forall j, j <> i -> task_at ts' j = task_at tasks j) /\
    let t := task_at tasks i in
    let t' := task_at ts' i in
    sessions t' = Some (firstn k l ++ skipn (S k) l)%list /\
    length (sessions_of t') + 1 = length l /\
    updated_at t' = Some now /\
    id t' = id t /\ title t' = title t /\ description t' = description t /\
    status t' = status t /\ created_at t' = created_at t /\
    blocks t' = blocks t /\ blocked_by t' = blocked_by t.
Proof.
  intros Hp Hf (Ht & Hd & Hl & H1 & H2 & H3 & H4 & H5) Hk Hs Hlen.
  destruct (find_task_ok tasks (arg_id args) Hp) as [r [E Hi]].
  rewrite Hf in E. injection E as <-. specialize (Hi i eq_refl).
  rewrite (update_first_half now args tasks i Hf H1 H2 H3 H4 H5).
  unfold delete_log_part, log_part. rewrite Ht, Hd, Hl, Hk. cbv zeta.
  cbn [fst snd]. rewrite task_at_mutate_same by exact Hi.
  cbn [sessions set_updated_at]. rewrite Hs.
  assert (B : ((Z.of_nat k <? 0)%Z
               || (Z.of_nat (length l) <=? Z.of_nat k)%Z) = false).
  { apply orb_false_iff. split; [apply Z.ltb_ge | apply Z.leb_gt]; lia. }
  rewrite B, Nat2Z.id, mutate_mutate. cbn [fst snd].
  eexists. split; [reflexivity|]. split; [apply mutate_length|].
  split.
  { intros j Hj. rewrite task_at_mutate by exact Hi.
    apply Nat.eqb_neq in Hj. now rewrite Hj. }
  rewrite task_at_mutate_same by exact Hi. cbn.
  rewrite pop_at_split. split; [reflexivity|]. split; [|repeat split].
  rewrite length_app, firstn_length_le, length_skipn by lia. lia.
Qed.

Lemma delete_log_effect_witness :
  exists ts',
    cmd_update later
      (mkArgs "a1" None None (Some 0%Z) None None None None None None)
      journal = Ok (Saved ts') /\
    sessions (task_at ts' 0)
    = Some [ mkSession "2024-05-02T09:30:00.000002"
               ("tried - [x] Done" ++ nl ++ nl ++ "works") ].
Proof.
  destruct (delete_log_effect later
              (mkArgs "a1" None None (Some 0%Z) None None None None None None)
              journal 0 0 _
              ltac:(repeat constructor; simpl; discriminate)
              eq_refl ltac:(repeat split) eq_refl eq_refl
              ltac:(simpl; lia))
    as (ts' & E & _ & _ & Hs & _).
  exists ts'. split; [exact E | exact Hs].
Defined.

(** ** What no update changes *)

(** A status other than the four is refused after the edge options ran:
    the command saves nothing, although it was asked for valid changes
    too. *)
Theorem invalid_status_saves_nothing (now : string) (args : update_args)
    (tasks : list task) (s : string) :
  Forall readable tasks ->
  given (arg_status args) = Some s -> valid_status s = false ->
  cmd_update now args tasks = Ok NotSaved.
Proof.
  intros Hr Hs Hv.
  destruct (cmd_update_keeps (fun ts => Forall readable ts)
              (fun _ => False) now args) with (tasks := tasks)
    as [r [E Hfin]]; try assumption.
  - auto.
  - intros g i ts Hg H. apply mutate_Forall; [|exact H].
    intros t. now apply quiet_readable.
  - intros i j ts H _ _. apply on_edge_Forall; auto with tame.
  - intros i j ts H _ _. apply on_edge_Forall; auto with tame.
  - intros i j ts H _ _. apply on_edge_Forall; auto with tame.
  - intros i j ts H _ _. apply on_edge_Forall; auto with tame.
  - intros i ts _ _. rewrite Hs. congruence.
  - rewrite E. destruct r; [contradiction | reflexivity].
Qed.

Lemma invalid_status_saves_nothing_witness :
  cmd_update later
    (mkArgs "a1" (Some "New title") None None (Some "note")
            (Some "c3") None None None (Some "closed")) chain
  = Ok NotSaved.
Proof.
  apply (invalid_status_saves_nothing later _ chain "closed");
    [repeat constructor; simpl; discriminate | reflexivity | reflexivity].
Defined.

(** No update adds, drops or reorders tasks, or changes an id: the ids
    of the saved collection are those of the loaded one, position by
    position. *)
Theorem update_keeps_ids (now : string) (args : update_args)
    (tasks : list task) :
  Forall readable tasks ->
  exists r,
    cmd_update now args tasks = Ok r /\
    match r with
    | Saved ts' => map id ts' = map id tasks /\ length ts' = length tasks
    | NotSaved => True
    end.
Proof.
  intros Hr.
  destruct (cmd_update_keeps
              (fun ts => Forall readable ts /\ map id ts = map id tasks)
              (fun ts => map id ts = map id tasks) now args)
    with (tasks := tasks) as [r [E Hfin]].
  - intros ts [H _]. exact H.
  - intros g i ts Hg [H1 H2]. split.
    + apply mutate_Forall; [|exact H1]. intros t. now apply quiet_readable.
    + rewrite mutate_map; [exact H2|]. intros t. apply (Hg t).
  - intros i j ts [H1 H2] _ _. split.
    + apply on_edge_Forall; auto with tame.
    + rewrite on_edge_map; [exact H2 | |]; intros x t;
        [apply gain_block_id | apply gain_blocker_id].
  - intros i j ts [H1 H2] _ _. split.
    + apply on_edge_Forall; auto with tame.
    + rewrite on_edge_map; [exact H2 | |]; intros x t;
        [apply gain_blocker_id | apply gain_block_id].
  - intros i j ts [H1 H2] _ _. split.
    + apply on_edge_Forall; auto with tame.
    + rewrite on_edge_map; [exact H2 | |]; intros x t;
        [apply lose_block_id | apply lose_blocker_id].
  - intros i j ts [H1 H2] _ _. split.
    + apply on_edge_Forall; auto with tame.
    + rewrite on_edge_map; [exact H2 | |]; intros x t;
        [apply lose_blocker_id | apply lose_block_id].
  - intros i ts [H1 H2] Hi.
    destruct (given (arg_status args)) as [s|]; [|exact H2].
    intros _. destruct (String.eqb s "done").
    + unfold completed. rewrite relieve_all_map.
      * rewrite mutate_map; [exact H2 | reflexivity].
      * intros t. apply lose_blocker_id.
    + rewrite mutate_map; [exact H2 | reflexivity].
  - now split.
  - exists r. split; [exact E|]. destruct r as [ts'|]; [|exact I].
    split; [exact Hfin|].
    rewrite <- (length_map id ts'), Hfin. apply length_map.
Qed.

Lemma update_keeps_ids_witness :
  exists r,
    cmd_update later (with_status "a1" "done") chain = Ok r /\
    match r with
    | Saved ts' => map id ts' = map id chain /\ length ts' = length chain
    | NotSaved => True
    end.
Proof.
  apply (update_keeps_ids later (with_status "a1" "done") chain).
  repeat constructor; simpl; discriminate.
Defined.

(** ** What a unique match tells *)

Lemma matches_from_spec k prefix ts ms :
  matches_from k prefix ts = Ok ms ->
  forall j, j < length ts ->
    (startswith (id_at ts j) prefix = true <-> In (k + j) ms).
Proof.
  revert k ms. induction ts as [|t r IH]; intros k ms E j L;
    [simpl in L; lia|].
  cbn [matches_from] in E. destruct (id t) as [x|] eqn:Ex; [|discriminate].
  cbn [getitem bind] in E.
  destruct (matches_from (S k) prefix r) as [ms'|] eqn:E'; [|discriminate].
  cbn [bind] in E. injection E as <-.
  assert (Hge : forall m, In m ms' -> S k <= m).
  { clear -E'. revert k ms' E'. induction r as [|t r IH]; intros k ms' E m.
    - injection E as <-. intros [].
    - cbn [matches_from] in E. destruct (id t); [|discriminate].
      cbn [getitem bind] in E.
      destruct (matches_from (S (S k)) prefix r) as [ms2|] eqn:E2;
        [|discriminate].
      cbn [bind] in E. injection E as <-.
      specialize (IH _ _ E2 m).
      destruct (startswith s prefix); simpl; intros H;
        [destruct H as [<-|H]; [lia|]|]; specialize (IH H); lia. }
  destruct j as [|j].
  - unfold id_at, task_at. cbn [nth]. rewrite Ex, Nat.add_0_r.
    destruct (startswith x prefix); split; intros H; try discriminate.
    + now left.
    + reflexivity.
    + specialize (Hge _ H). lia.
  - change (id_at (t :: r) (S j)) with (id_at r j).
    rewrite (IH _ _ E' j ltac:(simpl in L; lia)).
    replace (k + S j) with (S k + j) by lia.
    destruct (startswith x prefix); [|reflexivity].
    split; [now right|]. intros [H|H]; [lia | exact H].
Qed.

Lemma find_task_found_inv tasks prefix i :
  find_task tasks prefix = Ok (Found i) ->
  prefix <> "" /\
  forall j, j < length tasks ->
    (startswith (id_at tasks j) prefix = true <-> j = i).
Proof.
  unfold find_task. destruct prefix as [|c p]; [discriminate|].
  cbn [str_falsy]. intros E. split; [discriminate|].
  destruct (matches_from 0 (String c p) tasks) as [ms|] eqn:Em;
    [|discriminate].
  cbn [bind] in E.
  destruct ms as [|m1 [|m2 r]]; try discriminate.
  - injection E as <-. intros j Hj.
    rewrite (matches_from_spec 0 _ _ _ Em j Hj). simpl.
    split; [intros [H|[]]; now subst | intros ->; now left].
  - match type of E with context [map_result ?f ?l] =>
      destruct (map_result f l) end; discriminate.
Qed.

(** The task a prefix names is the only one with its id. *)
Lemma found_id_once tasks prefix i :
  Forall keyed tasks -> find_task tasks prefix = Ok (Found i) ->
  i < length tasks ->
  forall j, j < length tasks ->
    (has_id (id_at tasks i) (task_at tasks j) = true <-> j = i).
Proof.
  intros Hk Hf Hi j Hj.
  destruct (find_task_found_inv _ _ _ Hf) as [_ H].
  unfold has_id. rewrite (id_present _ _ Hk Hj). split.
  - intros E. apply String.eqb_eq in E. apply (H j Hj). rewrite E.
    now apply (H i Hi).
  - intros ->. apply String.eqb_refl.
Qed.

Lemma filter_all_but_one (P : task -> bool) ts i :
  i < length ts ->
  (forall j, j < length ts -> (P (task_at ts j) = true <-> j = i)) ->
  length (filter (fun t => negb (P t)) ts) + 1 = length ts.
Proof.
  revert i. induction ts as [|t r IH]; intros i L H; [simpl in L; lia|].
  cbn [filter length].
  pose proof (H 0 ltac:(simpl; lia)) as H0.
  unfold task_at in H0. cbn [nth] in H0.
  destruct i as [|i].
  - rewrite (proj2 H0 eq_refl). cbn [negb].
    assert (E : filter (fun t => negb (P t)) r = r).
    { apply forallb_filter_id. apply forallb_forall. intros u Hu.
      destruct (In_task_at _ _ Hu) as [j [Lj <-]].
      specialize (H (S j) ltac:(simpl; lia)).
      change (task_at (t :: r) (S j)) with (task_at r j) in H.
      destruct (P (task_at r j)); [|reflexivity].
      destruct H as [H _]. specialize (H eq_refl). discriminate. }
    rewrite E. lia.
  - destruct (P t) eqn:Pt.
    + destruct H0 as [H0 _]. specialize (H0 eq_refl). discriminate.
    + cbn [negb length]. rewrite <- (IH i); [lia | simpl in L; lia|].
      intros j Lj. specialize (H (S j) ltac:(simpl; lia)).
      change (task_at (t :: r) (S j)) with (task_at r j) in H.
      rewrite H. split; [now intros [= ->] | now intros ->].
Qed.

(** ** What a delete leaves *)

Lemma ids_without d ts :
  map id (filter (fun t => negb (has_id d t)) ts)
  = filter (fun x => negb (match x with
                           | Some y => String.eqb y d
                           | None => false
                           end)) (map id ts).
Proof.
  induction ts as [|t r IH]; [reflexivity|].
  cbn [filter map]. unfold has_id at 1.
  destruct (id t) as [y|] eqn:E; [destruct (String.eqb y d)|];
    cbn [negb map]; rewrite IH, ?E; reflexivity.
Qed.

(** A delete saves exactly when the prefix names one task.  The saved
    collection has one task fewer; its ids are the ids of the loaded
    collection without the deleted one, in the same order; the deleted
    id is the id of no task that is left. *)
Theorem delete_removes_one_task (now prefix : string) (tasks : list task) :
  Forall readable tasks ->
  exists r,
    cmd_delete now prefix tasks = Ok r /\
    match r with
    | Saved ts' =>
        exists i,
          find_task tasks prefix = Ok (Found i) /\ i < length tasks /\
          length ts' + 1 = length tasks /\
          map id ts'
          = filter (fun x => negb (match x with
                                   | Some y => String.eqb y (id_at tasks i)
                                   | None => false
                                   end)) (map id tasks) /\
          ~ In (Some (id_at tasks i)) (map id ts')
    | NotSaved => forall i, find_task tasks prefix <> Ok (Found i)
    end.
Proof.
  intros Hr.
  destruct (cmd_delete_shape now prefix tasks Hr) as [r [Ef [Hi E]]].
  rewrite E. destruct r as [i| | |];
    (eexists; split; [reflexivity|]); try (intros i; congruence).
  specialize (Hi i eq_refl). exists i. split; [exact Ef|].
  split; [exact Hi|].
  pose proof (Forall_readable_keyed _ Hr) as Hk.
  set (d := id_at tasks i).
  assert (Hmap : map id (deleted now d tasks)
                 = map id (filter (fun t => negb (has_id d t)) tasks)).
  { unfold deleted. rewrite map_map. apply map_ext. intros t.
    now rewrite lose_blocker_id, lose_block_id. }
  split; [|split].
  - unfold deleted. rewrite length_map.
    apply (filter_all_but_one (has_id d) tasks i Hi).
    now apply (found_id_once tasks prefix).
  - rewrite Hmap. apply ids_without.
  - rewrite Hmap. intros H. apply in_map_iff in H.
    destruct H as [t [Et Ht]]. apply filter_In in Ht.
    destruct Ht as [_ Ht]. unfold has_id in Ht. rewrite Et in Ht.
    now rewrite String.eqb_refl in Ht.
Qed.

Lemma delete_removes_one_task_witness :
  exists r,
    cmd_delete later "b" chain = Ok r /\
    match r with
    | Saved ts' =>
        exists i,
          find_task chain "b" = Ok (Found i) /\ i < length chain /\
          length ts' + 1 = length chain /\
          map id ts'
          = filter (fun x => negb (match x with
                                   | Some y => String.eqb y (id_at chain i)
                                   | None => false
                                   end)) (map id chain) /\
          ~ In (Some (id_at chain i)) (map id ts')
    | NotSaved => forall i, find_task chain "b" <> Ok (Found i)
    end.
Proof.
  apply (delete_removes_one_task later "b" chain).
  repeat constructor; simpl; discriminate.
Defined.

(** After a delete no task that is left refers to the deleted id, in
    [blocks] or in [blocked_by], when no edge list of the loaded
    collection names an id twice. *)
Theorem delete_leaves_no_reference (now prefix : string)
    (tasks ts' : list task) (i : nat) :
  Forall readable tasks -> Forall no_dup_edges tasks ->
  find_task tasks prefix = Ok (Found i) ->
  cmd_delete now prefix tasks = Ok (Saved ts') ->
  forall t', In t' ts' ->
    ~ In (id_at tasks i) (blocks_of t') /\
    ~ In (id_at tasks i) (blocked_by_of t').
Proof.
  intros Hr Hn Hf E t' Ht'.
  destruct (cmd_delete_shape now prefix tasks Hr) as [r [Ef [_ E']]].
  rewrite Hf in Ef. injection Ef as <-. rewrite E' in E.
  injection E as <-. apply In_deleted in Ht'.
  destruct Ht' as [t [Ht [_ ->]]].
  rewrite Forall_forall in Hn. destruct (Hn _ Ht) as [N1 N2].
  split.
  - unfold blocks_of. rewrite lose_blocker_blocks.
    fold (blocks_of (lose_block (Some now) (id_at tasks i) t)).
    rewrite lose_block_blocks. now apply not_In_remove_first.
  - rewrite lose_blocker_blocked_by. unfold blocked_by_of.
    rewrite lose_block_blocked_by. now apply not_In_remove_first.
Qed.

Lemma delete_leaves_no_reference_witness :
  ~ In "b2" (blocks_of (touched "a1" "A" "open" [] [])) /\
  ~ In "b2" (blocked_by_of (touched "a1" "A" "open" [] [])).
Proof.
  apply (delete_leaves_no_reference later "b2" chain
           [ touched "a1" "A" "open" [] [];
             touched "c3" "C" "open" [] [] ] 1);
    [repeat constructor; simpl; discriminate
    | repeat constructor; simpl; intuition discriminate
    | reflexivity | reflexivity | now left].
Defined.

(** ** The id format *)

Lemma hex_run_spec n s r :
  hex_run n s = Some r <->
  exists h, s = h ++ r /\ String.length h = n /\ all_hex h = true.
Proof.
  revert s. induction n as [|n IH]; intros s; cbn [hex_run].
  - split.
    + intros [= ->]. exists "". repeat split.
    + intros ([|c h] & -> & L & _); [reflexivity | discriminate].
  - destruct s as [|c s].
    + split; [discriminate|].
      intros ([|c h] & E & L & _); [discriminate | discriminate].
    + destruct (is_hex c) eqn:Hc.
      * rewrite IH. split.
        -- intros (h & -> & L & A). exists (String c h).
           repeat split; [simpl; now rewrite L | simpl; now rewrite Hc].
        -- intros ([|c' h] & E & L & A); [discriminate|].
           injection E as <- ->. simpl in A.
           apply andb_true_iff in A. exists h.
           repeat split; [simpl in L; lia | tauto].
      * split; [discriminate|].
        intros ([|c' h] & E & L & A); [discriminate|].
        injection E as <- ->. simpl in A. rewrite Hc in A. discriminate.
Qed.

(** The ids the validation accepts are the texts of thirty-two
    characters [0-9a-f], and those texts followed by one line feed: the
    [$] of the pattern also matches before a line feed that ends the
    text. *)
Theorem valid_id_format_spec (s : string) :
  valid_id_format s = true <->
  exists h, String.length h = 32 /\ all_hex h = true /\
            (s = h \/ s = h ++ nl).
Proof.
  unfold valid_id_format. split.
  - destruct (hex_run 32 s) as [r|] eqn:E; [|discriminate].
    apply hex_run_spec in E. destruct E as (h & -> & L & A).
    unfold at_end. intros H. apply orb_true_iff in H.
    exists h. split; [exact L|]. split; [exact A|].
    destruct H as [H|H]; apply String.eqb_eq in H; subst r;
      [left; apply sapp_nil_r | now right].
  - intros (h & L & A & [-> | ->]).
    + assert (E : hex_run 32 h = Some "").
      { apply hex_run_spec. exists h. now rewrite sapp_nil_r. }
      now rewrite E.
    + assert (E : hex_run 32 (h ++ nl) = Some nl).
      { apply hex_run_spec. now exists h. }
      now rewrite E.
Qed.

(** ** The report on one task *)

Lemma validate_refs_spec report t d ids errors :
  validate_refs report t d ids errors
  = match title t with
    | Some ttl =>
        Ok (errors ++ map (report ttl)
                        (filter (fun x => negb (dict_has d x)) ids))%list
    | None => if forallb (dict_has d) ids then Ok errors else KeyError
    end.
Proof.
  unfold validate_refs. revert errors.
  induction ids as [|x r IH]; intros errors; cbn [for_each filter map forallb].
  - destruct (title t); [now rewrite app_nil_r | reflexivity].
  - destruct (dict_has d x) eqn:E; cbn [bind negb andb].
    + apply IH.
    + destruct (title t) as [ttl|] eqn:Et; cbn [getitem bind];
        [|reflexivity].
      rewrite IH. cbn [map]. now rewrite <- app_assoc.
Qed.

(** The errors of the first half of [validate_task], which cannot
    raise. *)
Lemma validate_task_raises t d :
  validate_task t d = KeyError <-> title t = None /\ dangling d t = true.
Proof.
  unfold validate_task, dangling. rewrite validate_refs_spec.
  destruct (title t) as [ttl|] eqn:Et.
  - cbn [bind]. rewrite validate_refs_spec, Et.
    split; [discriminate | intros [H _]; discriminate].
  - destruct (forallb (dict_has d) (blocks_of t)); cbn [bind andb negb].
    + rewrite validate_refs_spec, Et.
      destruct (forallb (dict_has d) (blocked_by_of t)); cbn [negb];
        split; try discriminate; try tauto. intros [_ H]. discriminate.
    + tauto.
Qed.

Lemma validate_refs_clean report t d ids errors errors' :
  validate_refs report t d ids errors = Ok errors' ->
  (errors' = [] <-> errors = [] /\ forallb (dict_has d) ids = true).
Proof.
  rewrite validate_refs_spec.
  assert (F : filter (fun x => negb (dict_has d x)) ids = []
              <-> forallb (dict_has d) ids = true).
  { induction ids as [|x r IH]; cbn [filter forallb]; [tauto|].
    destruct (dict_has d x); cbn [negb andb]; [exact IH|].
    split; discriminate. }
  destruct (title t) as [ttl|].
  - intros [= <-]. rewrite <- F. split.
    + intros H. apply app_eq_nil in H. destruct H as [H1 H2].
      split; [exact H1|]. now apply map_eq_nil in H2.
    + intros [-> ->]. reflexivity.
  - destruct (forallb (dict_has d) ids); [|discriminate].
    intros [= <-]. tauto.
Qed.

Lemma validate_task_clean t d :
  validate_task t d = Ok [] <-> identified t /\ dangling d t = false.
Proof.
  unfold validate_task, dangling.
  set (e1 := fold_left _ _ _).
  set (e2 := match id t with Some i => _ | None => e1 end).
  assert (He : e2 = [] <-> identified t).
  { unfold e2, e1, identified, missing. cbn [fold_left fst snd app].
    destruct (id t) as [[|a i]|], (created_at t) as [[|b c]|],
      (updated_at t) as [[|e u]|]; cbn [str_falsy negb andb app];
      try match goal with |- context [valid_id_format ?x] =>
            destruct (valid_id_format x) eqn:V end;
      cbn [negb app];
      first
        [ solve [ split; [discriminate|];
                  intros (i' & c' & u' & H1 & H2 & H3 & H4 & H5 & H6);
                  first [ congruence
                        | injection H1 as <-; vm_compute in H2;
                          discriminate H2 ] ]
        | split; [intros _|reflexivity];
          eexists _, _, _;
          repeat split; try eassumption; discriminate ]. }
  split.
  - intros H.
    destruct (validate_refs DanglingBlocks t d (blocks_of t) e2)
      as [e3|] eqn:E3; [|discriminate].
    cbn [bind] in H.
    destruct (proj1 (validate_refs_clean _ _ _ _ _ _ H) eq_refl) as [-> F2].
    destruct (proj1 (validate_refs_clean _ _ _ _ _ _ E3) eq_refl) as [G F1].
    split; [now apply He|]. now rewrite F1, F2.
  - intros [Hi Hd]. apply He in Hi. rewrite Hi.
    apply negb_false_iff, andb_true_iff in Hd. destruct Hd as [F1 F2].
    rewrite !validate_refs_spec, F1.
    assert (Z : forall ids, forallb (dict_has d) ids = true ->
                filter (fun x => negb (dict_has d x)) ids = []).
    { induction ids as [|x r IH]; cbn [filter forallb]; [reflexivity|].
      destruct (dict_has d x); cbn [negb andb]; [exact IH | discriminate]. }
    rewrite (Z _ F1).
    destruct (title t); cbn [bind map app];
      rewrite validate_refs_spec, ?F2, ?(Z _ F2);
      destruct (title t); reflexivity.
Qed.

(** [validate_task] raises [KeyError] exactly for a task without title
    that refers to an id no task has: the message for such a reference
    reads the title with a subscript.  For any other task it returns a
    report, and the report is empty exactly when the three required
    fields are there and not empty, the id has the format, and every
    reference names a key of the dict. *)
Theorem validate_task_report (t : task) (d : task_dict) :
  (validate_task t d = KeyError <-> title t = None /\ dangling d t = true) /\
  (validate_task t d = Ok [] <-> identified t /\ dangling d t = false) /\
  (title t <> None -> exists errors, validate_task t d = Ok errors).
Proof.
  split; [apply validate_task_raises|]. split; [apply validate_task_clean|].
  intros Ht. destruct (validate_task t d) as [errors|] eqn:E; [eauto|].
  apply validate_task_raises in E. tauto.
Qed.

(** ** The dict of the validation *)

Lemma dict_set_keys k v d :
  map fst (dict_set k v d)
  = if mem k (map fst d) then map fst d else (map fst d ++ [k])%list.
Proof.
  induction d as [|[k' v'] r IH]; [reflexivity|].
  cbn [dict_set map fst mem existsb]. rewrite (String.eqb_sym k k').
  destruct (String.eqb k' k) eqn:E; cbn [orb map fst].
  - apply String.eqb_eq in E. now subst.
  - rewrite IH. fold (mem k (map fst r)).
    now destruct (mem k (map fst r)).
Qed.

Lemma build_snoc l t :
  build_task_dict (l ++ [t])
  = match id t with
    | Some k => dict_set k t (build_task_dict l)
    | None => build_task_dict l
    end.
Proof. unfold build_task_dict. now rewrite fold_left_app. Qed.

Lemma build_keys_In l x :
  In x (map fst (build_task_dict l)) <-> In (Some x) (map id l).
Proof.
  induction l as [|t l IH] using rev_ind; [simpl; tauto|].
  rewrite build_snoc, map_app, in_app_iff. cbn [map In].
  destruct (id t) as [k|].
  - rewrite dict_set_keys.
    destruct (mem k (map fst (build_task_dict l))) eqn:M.
    + apply mem_In in M. rewrite IH in *.
      split; [tauto|]. intros [H|[[= ->]|[]]]; tauto.
    + rewrite in_app_iff, IH. simpl. split.
      * intros [H|[->|[]]]; tauto.
      * intros [H|[[= ->]|[]]]; tauto.
  - rewrite IH. split; [tauto|]. intros [H|[H|[]]]; [tauto | discriminate].
Qed.

Lemma build_length l :
  length (build_task_dict l) <= length l /\
  (length (build_task_dict l) = length l <->
   NoDup (map id l) /\ Forall (fun t => id t <> None) l).
Proof.
  induction l as [|t l [IH1 IH2]] using rev_ind.
  - simpl. split; [lia|]. split; [intros _; split; constructor | reflexivity].
  - rewrite build_snoc, length_app, map_app. cbn [length map].
    rewrite Forall_app.
    assert (Hnd : forall o, NoDup (map id l ++ [o])
                            <-> NoDup (map id l) /\ ~ In o (map id l)).
    { intros o. split.
      - intros H. apply NoDup_remove in H. rewrite app_nil_r in H.
        exact H.
      - intros [H1 H2]. apply NoDup_app; [exact H1 | repeat constructor; auto|].
        intros x Hx [<-|[]]. contradiction. }
    destruct (id t) as [k|] eqn:Ek.
    + assert (L : length (dict_set k t (build_task_dict l))
                  = length (map fst (dict_set k t (build_task_dict l))))
        by (now rewrite length_map).
      rewrite L, dict_set_keys.
      destruct (mem k (map fst (build_task_dict l))) eqn:M;
        rewrite ?length_app, !length_map; cbn [length].
      * split; [lia|]. split; [lia|].
        intros [Hn _]. apply Hnd in Hn. destruct Hn as [_ Hn].
        exfalso. apply Hn. apply build_keys_In. now apply mem_In.
      * split; [lia|].
        assert (Hk : ~ In (Some k) (map id l)).
        { rewrite <- build_keys_In. now apply mem_not_In. }
        rewrite Hnd. split.
        -- intros E. assert (E' : length (build_task_dict l) = length l)
             by lia.
           apply IH2 in E'. destruct E' as [N F].
           repeat split; try assumption.
           constructor; [congruence | constructor].
        -- intros [[N _] [F _]]. rewrite (proj2 IH2 (conj N F)). lia.
    + split; [lia|]. split; [lia|].
      intros [_ [_ F]]. inversion F as [|? ? H _]. congruence.
Qed.

Lemma dict_has_build tasks x :
  dict_has (build_task_dict tasks) x = true <->
  exists u, In u tasks /\ id u = Some x.
Proof.
  unfold dict_has.
  assert (H : dict_lookup x (build_task_dict tasks) <> None <->
              exists u, In u tasks /\ id u = Some x).
  { rewrite dict_lookup_keys, build_keys_In, in_map_iff.
    split; intros [u [H1 H2]]; exists u; tauto. }
  destruct (dict_lookup x (build_task_dict tasks)); rewrite <- H.
  - split; [discriminate | reflexivity].
  - split; [discriminate | congruence].
Qed.

Lemma dangling_resolved tasks t :
  dangling (build_task_dict tasks) t = false <-> resolved tasks t.
Proof.
  unfold dangling, resolved. rewrite negb_false_iff, andb_true_iff.
  rewrite !forallb_forall. split.
  - intros [H1 H2] x [Hx|Hx]; apply dict_has_build; auto.
  - intros H. split; intros x Hx; apply dict_has_build; auto.
Qed.

(** The verdict of the cycle search. *)
Lemma cycle_verdict tasks :
  match find_circular_dependencies tasks with
  | Cycle c => c <> [] /\ cyclic (build_task_dict tasks)
  | NoCycle _ => ~ cyclic (build_task_dict tasks)
  | OutOfFuel => False
  end.
Proof.
  set (d := build_task_dict tasks). unfold find_circular_dependencies.
  fold d.
  pose proof (search_roots_ok d (graph_nodes d) (graph_nodes_closed d)
                (S (length (graph_nodes d))) (map fst d)
                (Nat.lt_succ_diag_r _)
                (fun k H => in_or_app _ _ _ (or_introl H))
                [] [] (search_start d)) as H.
  destruct (search_roots (S (length (graph_nodes d))) d (map fst d) [])
    as [c|st|]; [| |exact H].
  - split; [|eapply closed_walk_cyclic; eauto].
    destruct H as [x [mid [-> _]]]. discriminate.
  - destruct H as [L [HI [Hrs [_ Hkeys]]]]. intros [x Hw].
    assert (Hx : In x L).
    { apply (inv_finished d st L HI). split.
      - apply Hkeys. eapply walk_start_key; eauto.
      - rewrite Hrs. intros []. }
    apply (finished_acyclic d L x (inv_nodup d st L HI)
             (inv_order d st L HI) Hx Hw).
Qed.

(** ** The report on a collection *)

Lemma validate_all_clean d tasks acc errs :
  for_each (fun errors t =>
              task_errors <- validate_task t d ;;
              Ok (errors ++ task_errors)%list) tasks acc = Ok errs ->
  (errs = [] <->
   acc = [] /\ Forall (fun t => validate_task t d = Ok []) tasks).
Proof.
  revert acc. induction tasks as [|t r IH]; intros acc; cbn [for_each].
  - intros [= <-]. split; [intros H; split; [exact H | constructor] | tauto].
  - destruct (validate_task t d) as [es|] eqn:Et; [|discriminate].
    cbn [bind]. intros H. rewrite (IH _ H). split.
    + intros [E F]. apply app_eq_nil in E. destruct E as [-> ->].
      split; [reflexivity|]. now constructor.
    + intros [-> F]. inversion F as [|? ? Ht F']; subst.
      rewrite Et in Ht. injection Ht as ->.
      split; [reflexivity | exact F'].
Qed.

Lemma validate_all_ok d tasks acc :
  Forall (fun t => validate_task t d = Ok []) tasks ->
  for_each (fun errors t =>
              task_errors <- validate_task t d ;;
              Ok (errors ++ task_errors)%list) tasks acc = Ok acc.
Proof.
  intros F. revert acc. induction F as [|t r Ht _ IH]; intros acc;
    cbn [for_each]; [reflexivity|].
  rewrite Ht. cbn [bind]. rewrite app_nil_r. apply IH.
Qed.


(** ** Loading, validating, running *)

Lemma loaded_title_status content :
  Forall (fun t => title t <> None /\ status t <> None)
         (md_load_tasks content).
Proof.
  unfold md_load_tasks. apply Forall_forall. intros t Ht.
  apply in_map_iff in Ht. destruct Ht as [m [<- _]].
  split; [discriminate|].
  change (status (set_title (strip (fst m)) (parse_task_section (snd m))))
    with (status (parse_task_section (snd m))).
  rewrite parse_status. discriminate.
Qed.

Lemma update_returns now args tasks :
  Forall readable tasks -> exists r, cmd_update now args tasks = Ok r.
Proof.
  intros Hr.
  destruct (cmd_update_keeps (fun ts => Forall readable ts)
              (fun _ => True) now args) with (tasks := tasks)
    as [r [E _]]; try assumption; auto.
  - intros g i ts Hg H. apply mutate_Forall; [|exact H].
    intros t. now apply quiet_readable.
  - intros i j ts H _ _. apply on_edge_Forall; auto with tame.
  - intros i j ts H _ _. apply on_edge_Forall; auto with tame.
  - intros i j ts H _ _. apply on_edge_Forall; auto with tame.
  - intros i j ts H _ _. apply on_edge_Forall; auto with tame.
  - intros i ts _ _. now destruct (given (arg_status args)).
  - eauto.
Qed.



(** ** What the writers leave in the file *)

Lemma generate_raises t :
  generate_markdown_task t = KeyError <->
  title t = None \/ id t = None \/ created_at t = None
  \/ updated_at t = None \/ status t = None.
Proof.
  unfold generate_markdown_task.
  destruct (title t), (id t), (created_at t), (updated_at t), (status t);
    cbn [getitem bind]; split; try discriminate; try tauto;
    intros [H|[H|[H|[H|H]]]]; discriminate.
Qed.

Lemma save_cons t r md text :
  generate_markdown_task t = Ok md -> md_save_tasks r = Ok text ->
  md_save_tasks (t :: r)
  = Ok (match r with [] => md | _ => md ++ separator ++ text end).
Proof.
  intros G E. cbn [md_save_tasks]. rewrite G. cbn [bind].
  destruct r; [reflexivity|]. rewrite E. reflexivity.
Qed.

Lemma save_cons_inv t r text :
  md_save_tasks (t :: r) = Ok text ->
  exists md rest,
    generate_markdown_task t = Ok md /\ md_save_tasks r = Ok rest /\
    text = match r with [] => md | _ => md ++ separator ++ rest end.
Proof.
  cbn [md_save_tasks].
  destruct (generate_markdown_task t) as [md|]; [|discriminate].
  cbn [bind]. destruct r as [|u r].
  - intros [= <-]. exists md, "". repeat split.
  - destruct (md_save_tasks (u :: r)) as [rest|]; [|discriminate].
    cbn [bind]. intros [= <-]. exists md, rest. repeat split.
Qed.

Lemma save_loop_rest tasks text acc :
  md_save_tasks tasks = Ok text ->
  md_save_loop false tasks acc
  = mkWritten (match tasks with
               | [] => acc
               | _ => acc ++ separator ++ text
               end) false.
Proof.
  revert text acc. induction tasks as [|t r IH]; intros text acc E;
    [reflexivity|].
  destruct (save_cons_inv _ _ _ E) as (md & rest & G & Er & ->).
  cbn [md_save_loop]. rewrite G, (IH _ _ Er).
  destruct r; now rewrite !sapp_assoc.
Qed.

Lemma save_loop_rest_raises good bad rest text acc :
  md_save_tasks good = Ok text ->
  generate_markdown_task bad = KeyError ->
  md_save_loop false (good ++ bad :: rest) acc
  = mkWritten (match good with
               | [] => acc ++ separator
               | _ => acc ++ separator ++ text ++ separator
               end) true.
Proof.
  revert text acc. induction good as [|t r IH]; intros text acc E G.
  - cbn [app md_save_loop]. now rewrite G.
  - destruct (save_cons_inv _ _ _ E) as (md & rest' & Gt & Er & ->).
    cbn [app md_save_loop]. rewrite Gt, (IH _ _ Er G).
    destruct r; now rewrite !sapp_assoc.
Qed.

(** [md_save_tasks] empties the file before it renders anything.  When
    every task has the five keys the writer reads, the file ends up
    holding the whole document.  When a task lacks one, [KeyError] is
    raised and the file is left with the tasks before that one and the
    separator written ahead of it: that task and all after it are gone
    from the file. *)
Theorem save_file_effect (tasks : list task) :
  (forall text,
     md_save_tasks tasks = Ok text ->
     md_save_file tasks = mkWritten text false) /\
  (forall good bad rest text,
     tasks = (good ++ bad :: rest)%list ->
     md_save_tasks good = Ok text ->
     title bad = None \/ id bad = None \/ created_at bad = None
     \/ updated_at bad = None \/ status bad = None ->
     md_save_tasks tasks = KeyError /\
     md_save_file tasks
     = mkWritten (match good with
                  | [] => ""
                  | _ => text ++ separator
                  end) true).
Proof.
  unfold md_save_file. split.
  - intros text E. destruct tasks as [|t r]; [now injection E as <-|].
    destruct (save_cons_inv _ _ _ E) as (md & rest & G & Er & ->).
    cbn [md_save_loop]. rewrite G, (save_loop_rest _ _ _ Er).
    now destruct r.
  - intros good bad rest text -> E Hbad. apply generate_raises in Hbad.
    split.
    + clear -E Hbad. revert text E.
      induction good as [|t r IH]; intros text E.
      * cbn [app md_save_tasks]. now rewrite Hbad.
      * destruct (save_cons_inv _ _ _ E) as (md & rest' & G & Er & _).
        change ((t :: r) ++ bad :: rest)%list
          with (t :: (r ++ bad :: rest))%list.
        specialize (IH _ Er).
        destruct (r ++ bad :: rest)%list as [|u l] eqn:X;
          [destruct r; discriminate|].
        cbn [md_save_tasks] in *. rewrite G. cbn [bind].
        now rewrite IH.
    + destruct good as [|t r].
      * cbn [app md_save_loop]. now rewrite Hbad.
      * destruct (save_cons_inv _ _ _ E) as (md & rest' & G & Er & ->).
        cbn [app md_save_loop]. rewrite G.
        rewrite (save_loop_rest_raises _ _ _ _ _ Er Hbad).
        destruct r; now rewrite ?sapp_assoc.
Qed.

(** ** Appending a task *)

Lemma save_snoc tasks t text md :
  md_save_tasks tasks = Ok text -> tasks <> [] ->
  generate_markdown_task t = Ok md ->
  md_save_tasks (tasks ++ [t]) = Ok (text ++ separator ++ md).
Proof.
  revert text. induction tasks as [|a r IH]; intros text E N G; [congruence|].
  destruct (save_cons_inv _ _ _ E) as (mda & rest & Ga & Er & ->).
  change ((a :: r) ++ [t])%list with (a :: (r ++ [t]))%list.
  destruct r as [|b r].
  - cbn [app md_save_tasks]. rewrite Ga, G. reflexivity.
  - rewrite (save_cons a _ mda _ Ga (IH _ Er ltac:(discriminate) G)).
    cbn [app]. now rewrite !sapp_assoc.
Qed.

Lemma storable_generates t :
  storable t -> exists md, generate_markdown_task t = Ok md.
Proof.
  intros H. destruct (storable_inv t H)
    as (tid & ttl & st & created & updated & E1 & E2 & E3 & E4 & E5 & _).
  rewrite (generate_section t _ _ _ _ _ E1 E2 E3 E4 E5). eauto.
Qed.



(** ** The format of a file *)

Lemma lstrip_head s c X : lstrip s = String c X -> isspace c = false.
Proof.
  induction s as [|a s IH]; [discriminate|]. simpl.
  destruct (isspace a) eqn:E; [exact IH|]. now intros [= <- _].
Qed.

Lemma rstrip_head c X :
  isspace c = false -> exists Y, rstrip (String c X) = String c Y.
Proof.
  intros H. cbn [rstrip]. rewrite H. destruct (rstrip X); eauto.
Qed.

Lemma strip_starts s c :
  startswith (strip s) (String c "") = startswith (lstrip s) (String c "").
Proof.
  unfold strip. destruct (lstrip s) as [|a X] eqn:E; [reflexivity|].
  destruct (rstrip_head a X (lstrip_head _ _ _ E)) as [Y ->].
  unfold startswith. cbn [strip_prefix]. now destruct (Ascii.eqb c a).
Qed.

Lemma first_line_brace text :
  startswith (lstrip (readline text)) "{" = true <->
  exists ws rest, text = ws ++ String "{" rest /\ inline_blank ws = true.
Proof.
  induction text as [|c t IH].
  - split; [discriminate|]. intros ([|a ws] & rest & E & _); discriminate.
  - cbn [readline].
    destruct (Ascii.eqb c "010" || Ascii.eqb c "013") eqn:El.
    + split; [discriminate|].
      intros ([|a ws] & rest & E & B).
      * injection E as -> _. discriminate.
      * injection E as <- _. cbn [inline_blank] in B.
        apply orb_true_iff in El.
        destruct El as [El|El]; rewrite El in B; cbn in B;
          rewrite ?andb_false_r in B; discriminate.
    + apply orb_false_iff in El. destruct El as [E1 E2].
      cbn [lstrip]. destruct (isspace c) eqn:Es.
      * rewrite IH. split.
        -- intros (ws & rest & -> & B). exists (String c ws), rest.
           split; [reflexivity|]. cbn [inline_blank].
           now rewrite Es, E1, E2, B.
        -- intros ([|a ws] & rest & E & B).
           ++ injection E as -> _. discriminate.
           ++ injection E as <- ->. cbn [inline_blank] in B.
              apply andb_true_iff in B. exists ws, rest. tauto.
      * unfold startswith. cbn [strip_prefix].
        destruct (Ascii.eqb "{"%char c) eqn:Ec.
        -- apply Ascii.eqb_eq in Ec. subst c.
           split; [intros _|reflexivity]. exists "", t. now split.
        -- split; [discriminate|].
           intros ([|a ws] & rest & E & B).
           ++ injection E as Hc _. subst c.
              now rewrite Ascii.eqb_refl in Ec.
           ++ injection E as <- _. cbn [inline_blank] in B.
              rewrite Es in B. discriminate.
Qed.

Lemma saved_head tasks text :
  md_save_tasks tasks = Ok text ->
  text = "" \/ exists R, text = "# Task: " ++ R.
Proof.
  destruct tasks as [|t r]; [intros [= <-]; now left|].
  intros E. right.
  destruct (save_cons_inv _ _ _ E) as (md & rest & G & _ & ->).
  unfold generate_markdown_task in G.
  destruct (title t), (id t), (created_at t), (updated_at t), (status t);
    try discriminate. cbn [getitem bind] in G. injection G as <-.
  destruct r; eexists; reflexivity.
Qed.

(** A file counts as JSONL exactly when its first line has a brace as
    first character after white space; any other file that exists
    counts as markdown, the empty file too.  What [md_save_tasks]
    writes is never taken for JSONL, so a markdown database stays
    one. *)
Theorem detect_format_spec :
  detect_database_format None = None /\
  (forall text,
     detect_database_format (Some text) = Some Jsonl <->
     exists ws rest, text = ws ++ String "{" rest /\ inline_blank ws = true) /\
  (forall text,
     detect_database_format (Some text) = Some Jsonl \/
     detect_database_format (Some text) = Some Markdown) /\
  (forall tasks text,
     md_save_tasks tasks = Ok text ->
     detect_database_format (Some text) = Some Markdown).
Proof.
  assert (J : forall text,
    detect_database_format (Some text) = Some Jsonl <->
    exists ws rest, text = ws ++ String "{" rest /\ inline_blank ws = true).
  { intros text. rewrite <- first_line_brace. unfold detect_database_format.
    rewrite (strip_starts _ "{"%char).
    destruct (startswith (lstrip (readline text)) "{");
      split; try discriminate; reflexivity. }
  split; [reflexivity|]. split; [exact J|]. split.
  - intros text. unfold detect_database_format.
    destruct (startswith _ "{"); auto.
  - intros tasks text E.
    destruct (detect_database_format (Some text)) as [[|]|] eqn:D;
      [|reflexivity|discriminate].
    apply J in D. destruct D as (ws & rest & -> & B). exfalso.
    destruct (saved_head _ _ E) as [H | [R H]].
    + destruct ws; discriminate.
    + destruct ws as [|a ws]; [discriminate|].
      injection H as -> _. discriminate.
Qed.

(** ** The document of the migration *)

Lemma section_at_blank_separator tid created updated bl bb st desc ss R :
  field tid -> field created -> field updated ->
  Forall reference bl -> Forall reference bb ->
  valid_status st = true -> body desc ->
  Forall storable_session ss ->
  take_until at_task_boundary
    (section tid created updated bl bb st desc ss nl
     ++ (nl ++ nl ++ "---" ++ nl ++ nl) ++ "# Task: " ++ R)
  = (section tid created updated bl bb st desc ss (nl ++ nl),
     separator ++ "# Task: " ++ R).
Proof.
  intros.
  replace (section tid created updated bl bb st desc ss nl
           ++ (nl ++ nl ++ "---" ++ nl ++ nl) ++ "# Task: " ++ R)
    with (section tid created updated bl bb st desc ss (nl ++ nl)
          ++ separator ++ "# Task: " ++ R).
  - apply take_until_found; [|reflexivity].
    rewrite <- (section_app _ _ _ _ _ _ _ _ "" (nl ++ nl)).
    apply quiet_over_app; [|quiet_lit].
    now apply (section_quiet tid created updated bl bb st desc ss
                 (nl ++ separator ++ "# Task: " ++ R)).
  - rewrite <- (section_app _ _ _ _ _ _ _ _ nl nl), sapp_assoc.
    reflexivity.
Qed.

Lemma content_cons t r md text :
  generate_markdown_task t = Ok md -> md_content r = Ok text ->
  md_content (t :: r)
  = Ok (match r with
        | [] => md
        | _ => md ++ (nl ++ nl ++ "---" ++ nl ++ nl) ++ text
        end).
Proof.
  unfold md_content. intros G E. cbn [map_result]. rewrite G. cbn [bind].
  destruct r as [|u r]; [reflexivity|].
  destruct (map_result generate_markdown_task (u :: r)) as [mds|] eqn:M;
    [|discriminate].
  cbn [bind] in *. injection E as <-.
  destruct mds as [|m mds]; [|reflexivity].
  cbn [map_result] in M. destruct (generate_markdown_task u); [|discriminate].
  cbn [bind] in M. destruct (map_result generate_markdown_task r);
    discriminate.
Qed.

Lemma sections_migrated tasks :
  Forall storable tasks ->
  exists text,
    md_content tasks = Ok text
    /\ length tasks <= String.length text
    /\ (tasks <> [] -> exists R, text = "# Task: " ++ R)
    /\ forall fuel, length tasks <= fuel ->
         map (fun m => set_title (strip (fst m))
                         (parse_task_section (snd m)))
             (task_sections fuel text)
         = map reloaded tasks.
Proof.
  intros F. induction F as [|t r Ht F IH].
  - exists "". repeat split; [simpl; lia | congruence |].
    intros [|fuel] _; reflexivity.
  - destruct (storable_inv t Ht)
      as (tid & ttl & st & created & updated & E1 & E2 & E3 & E4 & E5
          & Htid & Httl & Hst & Hcr & Hup & Hbl & Hbb & Hd & Hss).
    pose proof (generate_section t _ _ _ _ _ E1 E2 E3 E4 E5) as G.
    set (sec := section tid created updated (blocks_of t) (blocked_by_of t)
                  st (description_of t) (sessions_of t)) in *.
    destruct IH as (rest & Er & Lr & Hr & IH).
    rewrite (content_cons _ _ _ _ G Er).
    destruct r as [|t' r'].
    + eexists. split; [reflexivity|].
      split; [simpl; lia|]. split; [intros _; eexists; reflexivity|].
      intros [|fuel] L; [simpl in L; lia|].
      rewrite (task_sections_first fuel ttl (sec nl) (sec "") Httl);
        [|unfold sec; rewrite section_at_end by assumption; reflexivity].
      unfold sec. rewrite section_at_end by assumption.
      cbn [snd map fst]. f_equal.
      * apply reloaded_section; try (split; reflexivity); auto.
      * destruct fuel; reflexivity.
    + destruct (Hr ltac:(discriminate)) as [R ER]. subst rest.
      eexists. split; [reflexivity|].
      split.
      { rewrite !slength_app. simpl String.length.
        simpl length in *. rewrite slength_app in Lr.
        simpl String.length in Lr. lia. }
      split; [intros _; rewrite !sapp_assoc; eexists; reflexivity|].
      intros [|fuel] L; [simpl in L; lia|].
      rewrite !(sapp_assoc "# Task: "), !(sapp_assoc ttl),
        !(sapp_assoc nl (sec nl)).
      rewrite (task_sections_first fuel ttl _ (sec (nl ++ nl)) Httl);
        [|unfold sec; rewrite section_at_blank_separator by assumption;
          reflexivity].
      unfold sec. rewrite section_at_blank_separator by assumption.
      cbn [snd map fst]. f_equal.
      * apply reloaded_section; try (split; reflexivity); auto.
      * rewrite task_sections_over by quiet_lit.
        apply IH. simpl in *. lia.
Qed.



(** ** The new command *)

Lemma block_new_fields now new_id t :
  id (block_new now new_id t) = id t /\
  title (block_new now new_id t) = title t /\
  status (block_new now new_id t) = status t /\
  blocked_by (block_new now new_id t) = blocked_by t /\
  blocks_of (block_new now new_id t) = (blocks_of t ++ [new_id])%list.
Proof.
  destruct t as [? ? ? ? ? ? [b|] ? ?]; repeat split; reflexivity.
Qed.

Lemma new_step_keeps now new_id tasks ts bb p :
  Forall readable tasks -> unique_ids tasks ->
  new_inv new_id tasks ts bb ->
  exists ts' bb',
    new_step now new_id (ts, bb) p = Ok (ts', bb') /\
    new_inv new_id tasks ts' bb'.
Proof.
  intros Hr Hu (Hrs & Hid & Hpos & Hbb).
  pose proof (Forall_readable_keyed _ Hrs) as Hk.
  pose proof (Forall_readable_keyed _ Hr) as Hk0.
  assert (Hlen : length ts = length tasks).
  { rewrite <- (length_map id ts), Hid. apply length_map. }
  assert (Hida : forall k, id_at ts k = id_at tasks k).
  { intros k. unfold id_at, task_at.
    rewrite <- (map_nth id ts), <- (map_nth id tasks), Hid. reflexivity. }
  unfold new_step.
  destruct (first_match_ok ts p Hk) as [r [E Hj]]. rewrite E. cbn [bind].
  destruct r as [j|]; [|exists ts, bb; split; [reflexivity|];
                         repeat split; assumption || apply Hpos; assumption].
  specialize (Hj j eq_refl). rewrite (id_present _ _ Hk Hj).
  cbn [getitem bind]. rewrite !mutate_mutate.
  fold (block_new now new_id).
  change (fun t => set_updated_at now (append_blocks new_id (default_blocks t)))
    with (block_new now new_id).
  eexists _, _. split; [reflexivity|].
  split; [|split; [|split]].
  - apply mutate_Forall; [|exact Hrs]. intros t (H1 & H2 & H3).
    destruct (block_new_fields now new_id t) as (F1 & F2 & F3 & _).
    repeat split; congruence.
  - rewrite mutate_map; [exact Hid|]. intros t.
    apply (block_new_fields now new_id t).
  - intros k Lk. rewrite task_at_mutate by exact Hj.
    destruct (Hpos k Lk) as [B1 B2].
    destruct (Nat.eqb k j) eqn:Ekj.
    + apply Nat.eqb_eq in Ekj. subst k.
      destruct (block_new_fields now new_id (task_at ts j))
        as (_ & _ & _ & F4 & F5).
      split; [congruence|]. intros x. rewrite F5, in_app_iff, B2, Hida.
      rewrite in_app_iff. simpl. intuition.
    + split; [exact B1|]. intros x. rewrite B2, in_app_iff. simpl.
      apply Nat.eqb_neq in Ekj. rewrite Hida. split; [tauto|].
      intros [H|[H1 [H2|[H2|[]]]]]; auto.
      exfalso. apply Ekj. symmetry.
      apply (id_at_inj tasks j k Hk0 Hu); [lia | exact Lk | exact H2].
  - intros b Hb. apply in_app_iff in Hb. destruct Hb as [Hb|[<-|[]]];
      [now apply Hbb|]. exists j. split; [lia | symmetry; apply Hida].
Qed.

Lemma new_loop_keeps now new_id tasks prefixes ts bb :
  Forall readable tasks -> unique_ids tasks ->
  new_inv new_id tasks ts bb ->
  exists ts' bb',
    for_each (new_step now new_id) prefixes (ts, bb) = Ok (ts', bb') /\
    new_inv new_id tasks ts' bb'.
Proof.
  intros Hr Hu. revert ts bb.
  induction prefixes as [|p r IH]; intros ts bb HI; cbn [for_each].
  - eauto.
  - destruct (new_step_keeps now new_id tasks ts bb p Hr Hu HI)
      as (ts1 & bb1 & E & HI1).
    rewrite E. cbn [bind]. now apply IH.
Qed.

Lemma new_loop_idle now new_id tasks prefixes :
  (forall p, In p prefixes -> first_match tasks p = Ok None) ->
  for_each (new_step now new_id) prefixes (tasks, []) = Ok (tasks, []).
Proof.
  induction prefixes as [|p r IH]; intros H; cbn [for_each]; [reflexivity|].
  unfold new_step at 1. rewrite (H p (or_introl eq_refl)). cbn [bind].
  apply IH. intros q Hq. apply H. now right.
Qed.

(** [new] with [--blocked-by]: the collection is saved with the new
    task at its end and the tasks that were there in their order, ids
    unchanged.  The new task is blocked, blocks nothing, and is blocked
    by ids of tasks of the collection.  Edge symmetry holds again, the
    new id being new to the collection.  When no entry of the option
    names a task, the new task is blocked all the same, by nothing. *)
Theorem new_blocked_task (now new_id : string) (args : new_args)
    (tasks : list task) (arg : string) :
  Forall readable tasks -> unique_ids tasks -> fresh new_id tasks ->
  symmetric tasks -> given (new_blocked_by args) = Some arg ->
  exists ts t',
    cmd_new now new_id args tasks = Ok (Rewritten (ts ++ [t'])%list) /\
    map id ts = map id tasks /\
    id t' = Some new_id /\ title t' = Some (new_title args) /\
    status t' = Some "blocked" /\ blocks_of t' = [] /\
    (forall b, In b (blocked_by_of t') ->
       exists j, j < length tasks /\ id_at tasks j = b) /\
    symmetric (ts ++ [t'])%list /\
    ((forall p, In p (id_prefixes arg) -> first_match tasks p = Ok None) ->
     ts = tasks /\ blocked_by_of t' = []).
Proof.
  intros Hr Hu Hf Hs Hg.
  pose proof (Forall_readable_keyed _ Hr) as Hk0.
  assert (HI0 : new_inv new_id tasks tasks []).
  { split; [exact Hr|]. split; [reflexivity|]. split.
    - intros j _. split; [reflexivity|]. intros x. split.
      + intros Hx. left. exact Hx.
      + intros [Hx|[_ []]]. exact Hx.
    - intros b []. }
  destruct (new_loop_keeps now new_id tasks (id_prefixes arg) tasks []
              Hr Hu HI0) as (ts & bb & E & (Hrs & Hid & Hpos & Hbb)).
  unfold cmd_new. rewrite Hg, E. cbn [bind].
  eexists ts, _. split; [reflexivity|].
  split; [exact Hid|]. split; [reflexivity|]. split; [reflexivity|].
  split; [reflexivity|]. split; [reflexivity|]. split; [exact Hbb|].
  assert (Hlen : length ts = length tasks).
  { rewrite <- (length_map id ts), Hid. apply length_map. }
  assert (Hida : forall k, id_at ts k = id_at tasks k).
  { intros k. unfold id_at, task_at.
    rewrite <- (map_nth id ts), <- (map_nth id tasks), Hid. reflexivity. }
  pose proof (Forall_readable_keyed _ Hrs) as Hk.
  assert (Hnew : forall j, j < length tasks -> id_at tasks j <> new_id).
  { intros j Lj H. unfold fresh in Hf. rewrite Forall_forall in Hf.
    destruct (Hf _ (task_at_In _ _ Lj)) as [H1 _]. apply H1.
    now rewrite (id_present _ _ Hk0 Lj), H. }
  split.
  - intros A B a b HA HB Ea Eb.
    apply in_app_iff in HA, HB. unfold fresh in Hf.
    rewrite Forall_forall in Hf.
    destruct HA as [HA|[<-|[]]], HB as [HB|[<-|[]]].
    + destruct (In_task_at _ _ HA) as [k [Lk <-]].
      destruct (In_task_at _ _ HB) as [m [Lm <-]].
      rewrite Hlen in Lk, Lm.
      destruct (Hpos k Lk) as [_ Bk]. destruct (Hpos m Lm) as [Bm _].
      assert (Ia : id_at tasks k = a)
        by (rewrite <- Hida; unfold id_at; now rewrite Ea).
      assert (Ib : id_at tasks m = b)
        by (rewrite <- Hida; unfold id_at; now rewrite Eb).
      rewrite Bk. unfold blocked_by_of. rewrite Bm.
      fold (blocked_by_of (task_at tasks m)).
      rewrite <- (Hs (task_at tasks k) (task_at tasks m) a b);
        auto using task_at_In.
      * split; [|tauto]. intros [H|[H _]]; [exact H|].
        exfalso. apply (Hnew m Lm). congruence.
      * now rewrite (id_present _ _ Hk0 Lk), Ia.
      * now rewrite (id_present _ _ Hk0 Lm), Ib.
    + destruct (In_task_at _ _ HA) as [k [Lk <-]]. rewrite Hlen in Lk.
      destruct (Hpos k Lk) as [_ Bk].
      assert (Ia : id_at tasks k = a)
        by (rewrite <- Hida; unfold id_at; now rewrite Ea).
      cbn in Eb. injection Eb as <-. rewrite Bk. cbn. rewrite Ia.
      split; [|tauto]. intros [H|[_ H]]; [|exact H].
      exfalso. destruct (Hf _ (task_at_In _ _ Lk)) as (_ & H2 & _). auto.
    + destruct (In_task_at _ _ HB) as [m [Lm <-]]. rewrite Hlen in Lm.
      destruct (Hpos m Lm) as [Bm _].
      cbn in Ea. injection Ea as <-. cbn. unfold blocked_by_of.
      rewrite Bm. fold (blocked_by_of (task_at tasks m)).
      split; [intros []|]. intros H.
      destruct (Hf _ (task_at_In _ _ Lm)) as (_ & _ & H3). auto.
    + cbn in Ea, Eb. injection Ea as <-. injection Eb as <-. cbn.
      split; [intros []|]. intros H.
      destruct (Hbb _ H) as [j [Lj Ej]]. now apply (Hnew j Lj).
  - intros Hnone.
    rewrite (new_loop_idle now new_id tasks _ Hnone) in E.
    injection E as <- <-. now split.
Qed.

Lemma new_blocked_task_witness :
  exists ts t',
    cmd_new later "d4" (mkNewArgs "D" None (Some "c, zz")) chain
    = Ok (Rewritten (ts ++ [t'])%list) /\
    map id ts = map id chain /\
    id t' = Some "d4" /\ title t' = Some "D" /\
    status t' = Some "blocked" /\ blocks_of t' = [] /\
    (forall b, In b (blocked_by_of t') ->
       exists j, j < length chain /\ id_at chain j = b) /\
    symmetric (ts ++ [t'])%list /\
    ((forall p, In p (id_prefixes "c, zz") ->
        first_match chain p = Ok None) ->
     ts = chain /\ blocked_by_of t' = []).
Proof.
  apply (new_blocked_task later "d4" (mkNewArgs "D" None (Some "c, zz"))
           chain "c, zz").
  - repeat constructor; simpl; discriminate.
  - unfold unique_ids; simpl.
    repeat (constructor; [simpl; intuition discriminate|]); constructor.
  - repeat constructor; simpl; intuition discriminate.
  - apply symmetricb_sound. reflexivity.
  - reflexivity.
Defined.

Lemma ascii_compare_refl c : Ascii.compare c c = Eq.
Proof. unfold Ascii.compare. apply N.compare_refl. Qed.

Lemma ascii_compare_eq a b : Ascii.compare a b = Eq -> a = b.
Proof. apply Ascii.compare_eq_iff. Qed.

Lemma ascii_compare_lt_trans a b c :
  Ascii.compare a b = Lt -> Ascii.compare b c = Lt -> Ascii.compare a c = Lt.
Proof.
  unfold Ascii.compare. rewrite !N.compare_lt_iff. apply N.lt_trans.
Qed.

Lemma string_compare_refl s : String.compare s s = Eq.
Proof.
  induction s as [|c s IH]; cbn; [reflexivity|].
  now rewrite ascii_compare_refl.
Qed.

Lemma string_compare_lt_trans a : forall b c,
  String.compare a b = Lt -> String.compare b c = Lt ->
  String.compare a c = Lt.
Proof.
  induction a as [|x a IH]; intros [|y b] [|z c]; cbn; try congruence.
  destruct (Ascii.compare x y) eqn:Exy; try discriminate;
  destruct (Ascii.compare y z) eqn:Eyz; try discriminate; intros H1 H2.
  - apply ascii_compare_eq in Exy, Eyz. subst.
    rewrite ascii_compare_refl. eauto.
  - apply ascii_compare_eq in Exy. subst. now rewrite Eyz.
  - apply ascii_compare_eq in Eyz. subst. now rewrite Exy.
  - now rewrite (ascii_compare_lt_trans _ _ _ Exy Eyz).
Qed.

Lemma ltb_irrefl s : String.ltb s s = false.
Proof. unfold String.ltb. now rewrite string_compare_refl. Qed.

Lemma ltb_asym a b : String.ltb a b = true -> String.ltb b a = false.
Proof.
  unfold String.ltb. rewrite (String.compare_antisym b a).
  destruct (String.compare a b); cbn; congruence.
Qed.

(** [a <= b] and [b <= c] give [a <= c], the order being total. *)
Lemma not_ltb_trans a b c :
  String.ltb b a = false -> String.ltb c b = false ->
  String.ltb c a = false.
Proof.
  unfold String.ltb. intros H1 H2.
  destruct (String.compare c a) eqn:Eca; try reflexivity. exfalso.
  rewrite (String.compare_antisym b a) in H1.
  destruct (String.compare a b) eqn:Eab; cbn in H1; try discriminate.
  - apply String.compare_eq_iff in Eab. subst. now rewrite Eca in H2.
  - pose proof (string_compare_lt_trans _ _ _ Eca Eab) as H.
    now rewrite H in H2.
Qed.

(** Insertion keeps the elements. *)
Lemma insert_by_key_perm k t l :
  Permutation ((k, t) :: l) (insert_by_key k t l).
Proof.
  induction l as [|[k' t'] r IH]; cbn [insert_by_key]; [reflexivity|].
  destruct (String.ltb k' k); [|reflexivity].
  etransitivity; [apply perm_swap|]. now constructor.
Qed.

Lemma sort_by_key_perm l : Permutation l (sort_by_key l).
Proof.
  induction l as [|[k t] r IH]; cbn; [constructor|].
  etransitivity; [|apply insert_by_key_perm]. now constructor.
Qed.

(** Insertion into a sorted list gives a sorted list. *)
Lemma insert_by_key_sorted k t l :
  StronglySorted (fun p q => String.ltb (fst q) (fst p) = false) l ->
  StronglySorted (fun p q => String.ltb (fst q) (fst p) = false)
    (insert_by_key k t l).
Proof.
  induction l as [|[k' t'] r IH]; intros Hs; cbn [insert_by_key].
  - repeat constructor.
  - inversion Hs as [|? ? Hr Hall]; subst.
    destruct (String.ltb k' k) eqn:E.
    + constructor; [now apply IH|].
      apply (Permutation_Forall (insert_by_key_perm k t r)).
      constructor; [|exact Hall]. cbn. now apply ltb_asym.
    + constructor; [exact Hs|]. constructor; [exact E|].
      rewrite Forall_forall in *. intros q Hq. cbn.
      apply (not_ltb_trans k k' (fst q)); [exact E|]. now apply Hall.
Qed.

Lemma sort_by_key_sorted l :
  StronglySorted (fun p q => String.ltb (fst q) (fst p) = false)
    (sort_by_key l).
Proof.
  induction l as [|[k t] r IH]; cbn; [constructor|].
  now apply insert_by_key_sorted.
Qed.

(** Insertion puts an element before the elements of its key. *)
Lemma insert_by_key_filter k0 k t l :
  filter (fun p => String.eqb (fst p) k0) (insert_by_key k t l)
  = filter (fun p => String.eqb (fst p) k0) ((k, t) :: l).
Proof.
  induction l as [|[k' t'] r IH]; cbn [insert_by_key]; [reflexivity|].
  destruct (String.ltb k' k) eqn:E; [|reflexivity].
  cbn [filter fst] in *. rewrite IH.
  destruct (String.eqb k k0) eqn:Ek; [|reflexivity].
  apply String.eqb_eq in Ek. subst k0.
  destruct (String.eqb k' k) eqn:Ek'; [|reflexivity].
  apply String.eqb_eq in Ek'. subst k'. now rewrite ltb_irrefl in E.
Qed.

Lemma sort_by_key_filter k0 l :
  filter (fun p => String.eqb (fst p) k0) (sort_by_key l)
  = filter (fun p => String.eqb (fst p) k0) l.
Proof.
  induction l as [|[k t] r IH]; cbn [sort_by_key fold_right]; [reflexivity|].
  fold (sort_by_key r). cbn [fst snd]. rewrite insert_by_key_filter.
  cbn [filter fst]. now rewrite IH.
Qed.

(** The keys [cmd_list] reads. *)
Lemma created_keys tasks :
  Forall (fun t => created_at t <> None) tasks ->
  map_result (fun t => getitem (created_at t)) tasks
  = Ok (map created_of tasks).
Proof.
  induction 1 as [|t r Ht _ IH]; [reflexivity|].
  cbn [map_result map]. rewrite IH. unfold created_of.
  destruct (created_at t); [reflexivity|congruence].
Qed.

Lemma created_keys_missing tasks :
  Exists (fun t => created_at t = None) tasks ->
  map_result (fun t => getitem (created_at t)) tasks = KeyError.
Proof.
  induction 1 as [t r Ht|t r _ IH]; cbn [map_result].
  - now rewrite Ht.
  - rewrite IH. now destruct (getitem (created_at t)).
Qed.

Lemma keyed_pairs tasks :
  Forall (fun p => fst p = created_of (snd p))
    (combine (map created_of tasks) tasks).
Proof. induction tasks; cbn; constructor; auto. Qed.

Lemma keyed_map_snd tasks :
  map snd (combine (map created_of tasks) tasks) = tasks.
Proof. induction tasks; cbn; congruence. Qed.

Lemma keyed_filter k l :
  Forall (fun p => fst p = created_of (snd p)) l ->
  created_on k (map snd l)
  = map snd (filter (fun p => String.eqb (fst p) k) l).
Proof.
  unfold created_on.
  induction 1 as [|[k' t] r Hp _ IH]; [reflexivity|].
  cbn [map filter fst snd] in *. rewrite <- Hp.
  destruct (String.eqb k' k); cbn [map snd]; now rewrite IH.
Qed.

Lemma keyed_sorted l :
  Forall (fun p => fst p = created_of (snd p)) l ->
  StronglySorted (fun p q => String.ltb (fst q) (fst p) = false) l ->
  StronglySorted not_after (map snd l).
Proof.
  intros Hk Hs. induction Hs as [|p r Hr IH Hall]; cbn; [constructor|].
  inversion Hk as [|? ? Hp Hkr]; subst.
  constructor; [now apply IH|].
  rewrite Forall_map. rewrite Forall_forall in *. intros q Hq.
  unfold not_after. rewrite <- Hp, <- (Hkr q Hq). now apply Hall.
Qed.

(** [list]: with a creation time on every task, the printed list holds
    the tasks of the collection, each as often as it is there, in
    creation order, and the tasks of one creation time in the order of
    the file.  A task without a creation time makes the command raise
    [KeyError]. *)
Theorem list_in_creation_order (tasks : list task) :
  (Forall (fun t => created_at t <> None) tasks ->
   exists l, cmd_list tasks = Ok l /\
     Permutation tasks l /\ StronglySorted not_after l /\
     forall k, created_on k l = created_on k tasks) /\
  (Exists (fun t => created_at t = None) tasks ->
   cmd_list tasks = KeyError).
Proof.
  split; intros H; unfold cmd_list.
  - rewrite (created_keys _ H). cbn [bind].
    eexists. split; [reflexivity|].
    pose proof (keyed_pairs tasks) as Hk.
    pose proof (sort_by_key_perm (combine (map created_of tasks) tasks))
      as Hp.
    assert (Hk' := Permutation_Forall Hp Hk).
    split; [|split].
    + rewrite <- (keyed_map_snd tasks) at 1. now apply Permutation_map.
    + apply keyed_sorted; [exact Hk'|apply sort_by_key_sorted].
    + intros k. rewrite (keyed_filter k _ Hk'), sort_by_key_filter.
      rewrite <- (keyed_filter k _ Hk). now rewrite keyed_map_snd.
  - now rewrite (created_keys_missing _ H).
Qed.
